(** * SecureVault: the cryptographic storage engine, embedded in Rocq

    A shallow embedding of the vault core of the SecureVault web client:

    - [EncryptionService] (key derivation, [encrypt], [decrypt], [hashPassword]),
    - [LocalStorageService] (the master-password verifier and the encrypted blob),
    - [LocalDataSource] (read-modify-write mutations of the blob),
    - [VaultProvider] ([addEntry], [updateEntry], [deleteEntry], [refreshEntries]),
    - [PasswordGenerator.calculateStrength].

    Browser built-ins whose exact behaviour matters for the properties below
    ([btoa]/[atob], [TextEncoder]/[TextDecoder], [String.fromCharCode],
    [Uint8Array.prototype.slice], the regular expressions of the strength
    scorer) are modelled concretely after their standards.  The WebCrypto
    primitives (PBKDF2, AES-GCM, SHA-256) and the JSON codec are interfaces:
    the development is parametric in them and only assumes, where a proof
    needs it, their functional-correctness law. *)

From Stdlib Require Import ZArith List Lia Bool ZifyBool.
From Stdlib Require Import Strings.Byte.
From stdpp Require Import gmap strings.

Import ListNotations.

(** * Bytes and JavaScript strings *)

(** The contents of a [Uint8Array]. *)
Definition bytes := list byte.

(** A JavaScript string is a sequence of UTF-16 code units. *)
Definition code_unit := Z.
Definition jsstring := list code_unit.

Definition Z_of_byte (b : byte) : Z := Z.of_N (Byte.to_N b).

(** Storing a number into a [Uint8Array] keeps it modulo 256. *)
Definition byte_of_Z (z : Z) : byte :=
  match Byte.of_N (Z.to_N (z mod 256)) with
  | Some b => b
  | None => x00
  end.

(** A string literal of the source, as code units (ASCII only). *)
Fixpoint js (s : string) : jsstring :=
  match s with
  | EmptyString => []
  | String a s' => Z.of_N (Ascii.N_of_ascii a) :: js s'
  end.

(** [String.fromCharCode(...bytes)]. *)
Definition fromCharCode (bs : bytes) : jsstring := map Z_of_byte bs.

(** [Uint8Array.from(str, c => c.charCodeAt(0))]. *)
Definition charCodes (s : jsstring) : bytes := map byte_of_Z s.

(** [arr.slice(a, b)] and [arr.slice(a)] for [0 <= a <= b]. *)
Definition slice {A} (a b : nat) (l : list A) : list A := firstn (b - a) (skipn a l).
Definition slice_from {A} (a : nat) (l : list A) : list A := skipn a l.

(** * Exceptions *)

(** A thrown error object: its [name] and its [message]. *)
Record exn := { name : string; message : string }.

(** [new Error(message)]. *)
Definition Error (msg : string) : exn := {| name := "Error"; message := msg |}.

(** The [DOMException]s of [atob]/[btoa] and of [crypto.subtle]. *)
Definition InvalidCharacterError : exn :=
  {| name := "InvalidCharacterError";
     message := "The string to be encoded or decoded is not correctly encoded." |}.
Definition OperationError : exn :=
  {| name := "OperationError";
     message := "The operation failed for an operation-specific reason" |}.

(** The error of [JSON.parse]. *)
Definition SyntaxError : exn :=
  {| name := "SyntaxError"; message := "Unexpected token in JSON" |}.

Inductive result (A : Type) :=
  | Ok (a : A)
  | Throw (e : exn).
Arguments Ok {A} a.
Arguments Throw {A} e.

(** * Base64: [btoa] and [atob] *)

Module Base64.
Local Open Scope Z_scope.

Definition pad : Z := 61. (* '=' *)

(** The range of a byte and of a base64 digit. *)
Definition octet (z : Z) : Prop := 0 <= z < 256.
Definition sextet (z : Z) : Prop := 0 <= z < 64.

Definition char_of_sextet (n : Z) : Z :=
  if n <? 26 then 65 + n
  else if n <? 52 then 97 + (n - 26)
  else if n <? 62 then 48 + (n - 52)
  else if n =? 62 then 43
  else 47.

Definition sextet_of_char (c : Z) : option Z :=
  if (65 <=? c) && (c <=? 90) then Some (c - 65)
  else if (97 <=? c) && (c <=? 122) then Some (c - 71)
  else if (48 <=? c) && (c <=? 57) then Some (c + 4)
  else if c =? 43 then Some 62
  else if c =? 47 then Some 63
  else None.

(** The padded encoding of a binary string (every code unit below 256). *)
Fixpoint encode (s : list Z) : list Z :=
  match s with
  | [] => []
  | [a] => [char_of_sextet (a / 4); char_of_sextet ((a mod 4) * 16); pad; pad]
  | [a; b] =>
      [char_of_sextet (a / 4); char_of_sextet ((a mod 4) * 16 + b / 16);
       char_of_sextet ((b mod 16) * 4); pad]
  | a :: b :: c :: rest =>
      char_of_sextet (a / 4) :: char_of_sextet ((a mod 4) * 16 + b / 16)
      :: char_of_sextet ((b mod 16) * 4 + c / 64) :: char_of_sextet (c mod 64)
      :: encode rest
  end.

(** [btoa] throws when a code unit does not fit a byte. *)
Definition btoa (s : jsstring) : result jsstring :=
  if forallb (fun c => (0 <=? c) && (c <=? 255)) s then Ok (encode s)
  else Throw InvalidCharacterError.

(** The forgiving-base64 decoder behind [atob]. *)
Definition is_ascii_whitespace (c : Z) : bool :=
  (c =? 9) || (c =? 10) || (c =? 12) || (c =? 13) || (c =? 32).

Definition remove_whitespace (s : list Z) : list Z :=
  List.filter (fun c => negb (is_ascii_whitespace c)) s.

(** Removes one or two trailing ['=']. *)
Fixpoint strip_trailing_pad (s : list Z) : list Z :=
  match s with
  | [] => []
  | [a] => if a =? pad then [] else [a]
  | [a; b] => if b =? pad then (if a =? pad then [] else [a]) else [a; b]
  | a :: rest => a :: strip_trailing_pad rest
  end.

Fixpoint sextets_of (s : list Z) : option (list Z) :=
  match s with
  | [] => Some []
  | c :: s' =>
      match sextet_of_char c, sextets_of s' with
      | Some x, Some xs => Some (x :: xs)
      | _, _ => None
      end
  end.

(** Four sextets give three bytes; of a last group of two or three sextets
    the left-over low bits are discarded without being looked at. *)
Fixpoint decode_sextets (xs : list Z) : list Z :=
  match xs with
  | a :: b :: c :: d :: rest =>
      (a * 4 + b / 16) :: ((b mod 16) * 16 + c / 4) :: ((c mod 4) * 64 + d)
      :: decode_sextets rest
  | [a; b; c] => [a * 4 + b / 16; (b mod 16) * 16 + c / 4]
  | [a; b] => [a * 4 + b / 16]
  | _ => []
  end.

Definition atob (s : jsstring) : result jsstring :=
  let data := remove_whitespace s in
  let data := if (length data mod 4 =? 0)%nat then strip_trailing_pad data else data in
  if (length data mod 4 =? 1)%nat then Throw InvalidCharacterError
  else match sextets_of data with
       | None => Throw InvalidCharacterError
       | Some xs => Ok (decode_sextets xs)
       end.

End Base64.

(** * UTF-8: [TextEncoder] and [TextDecoder]

    [new TextEncoder().encode(s)] converts [s] to scalar values (an unpaired
    surrogate becomes U+FFFD) and encodes them in UTF-8.
    [new TextDecoder().decode(bytes)] runs the UTF-8 decoder of the Encoding
    standard in replacement mode and, since [ignoreBOM] is left at its
    default, drops a leading U+FEFF.  The standard's [byte & 0x3F] and
    [cp << 6 | x] are written [byte mod 64] and [cp * 64 + x]. *)

Module UTF8.
Local Open Scope Z_scope.

Definition replacement : Z := 0xFFFD.
Definition BOM : Z := 0xFEFF.

Definition is_lead (c : Z) : bool := (0xD800 <=? c) && (c <=? 0xDBFF).
Definition is_trail (c : Z) : bool := (0xDC00 <=? c) && (c <=? 0xDFFF).

(** [String.prototype.isWellFormed]: no unpaired surrogate. *)
Fixpoint isWellFormed (s : jsstring) : bool :=
  match s with
  | [] => true
  | c :: s' =>
      if is_lead c then
        match s' with
        | d :: s'' => is_trail d && isWellFormed s''
        | [] => false
        end
      else negb (is_trail c) && (0 <=? c) && (c <? 0x10000) && isWellFormed s'
  end.

(** The scalar values of a string. *)
Fixpoint scalars_of (s : jsstring) : list Z :=
  match s with
  | [] => []
  | c :: s' =>
      if is_lead c then
        match s' with
        | d :: s'' =>
            if is_trail d
            then (0x10000 + (c - 0xD800) * 0x400 + (d - 0xDC00)) :: scalars_of s''
            else replacement :: scalars_of s'
        | [] => [replacement]
        end
      else if is_trail c then replacement :: scalars_of s'
      else c :: scalars_of s'
  end.

(** The code units of a sequence of scalar values. *)
Definition code_units_of_scalar (c : Z) : jsstring :=
  if c <? 0x10000 then [c]
  else [0xD800 + (c - 0x10000) / 0x400; 0xDC00 + (c - 0x10000) mod 0x400].

Definition code_units_of (cs : list Z) : jsstring := flat_map code_units_of_scalar cs.

Definition encode_scalar (c : Z) : bytes :=
  if c <? 0x80 then [byte_of_Z c]
  else if c <? 0x800 then
    [byte_of_Z (0xC0 + c / 64); byte_of_Z (0x80 + c mod 64)]
  else if c <? 0x10000 then
    [byte_of_Z (0xE0 + c / 4096); byte_of_Z (0x80 + (c / 64) mod 64);
     byte_of_Z (0x80 + c mod 64)]
  else
    [byte_of_Z (0xF0 + c / 262144); byte_of_Z (0x80 + (c / 4096) mod 64);
     byte_of_Z (0x80 + (c / 64) mod 64); byte_of_Z (0x80 + c mod 64)].

Definition encode (s : jsstring) : bytes := flat_map encode_scalar (scalars_of s).

(** The state of the UTF-8 decoder. *)
Record decoder := {
  code_point : Z;
  bytes_seen : Z;
  bytes_needed : Z;
  lower_boundary : Z;
  upper_boundary : Z
}.

Definition fresh : decoder :=
  {| code_point := 0; bytes_seen := 0; bytes_needed := 0;
     lower_boundary := 0x80; upper_boundary := 0xBF |}.

(** A byte read while no continuation byte is awaited. *)
Definition lead_byte (b : Z) : list Z * decoder :=
  if b <=? 0x7F then ([b], fresh)
  else if (0xC2 <=? b) && (b <=? 0xDF) then
    ([], {| code_point := b mod 32; bytes_seen := 0; bytes_needed := 1;
            lower_boundary := 0x80; upper_boundary := 0xBF |})
  else if (0xE0 <=? b) && (b <=? 0xEF) then
    ([], {| code_point := b mod 16; bytes_seen := 0; bytes_needed := 2;
            lower_boundary := if b =? 0xE0 then 0xA0 else 0x80;
            upper_boundary := if b =? 0xED then 0x9F else 0xBF |})
  else if (0xF0 <=? b) && (b <=? 0xF4) then
    ([], {| code_point := b mod 8; bytes_seen := 0; bytes_needed := 3;
            lower_boundary := if b =? 0xF0 then 0x90 else 0x80;
            upper_boundary := if b =? 0xF4 then 0x8F else 0xBF |})
  else ([replacement], fresh).

Fixpoint run_decoder (d : decoder) (bs : bytes) : list Z :=
  match bs with
  | [] => if bytes_needed d =? 0 then [] else [replacement]
  | b :: bs' =>
      let b := Z_of_byte b in
      if bytes_needed d =? 0 then
        let '(out, d') := lead_byte b in out ++ run_decoder d' bs'
      else if (b <? lower_boundary d) || (upper_boundary d <? b) then
        (* the sequence is cut short: U+FFFD, and the byte is read again *)
        let '(out, d') := lead_byte b in replacement :: out ++ run_decoder d' bs'
      else
        let cp := code_point d * 64 + b mod 64 in
        if bytes_seen d + 1 =? bytes_needed d then cp :: run_decoder fresh bs'
        else run_decoder {| code_point := cp; bytes_seen := bytes_seen d + 1;
                            bytes_needed := bytes_needed d;
                            lower_boundary := 0x80; upper_boundary := 0xBF |} bs'
  end.

Definition strip_bom (cs : list Z) : list Z :=
  match cs with
  | c :: cs' => if c =? BOM then cs' else cs
  | [] => []
  end.

Definition decode (bs : bytes) : jsstring :=
  code_units_of (strip_bom (run_decoder fresh bs)).

(** A Unicode scalar value: a code point that is not a surrogate. *)
Definition scalar (c : Z) : Prop :=
  0 <= c < 0x110000 /\ ~ (0xD800 <= c <= 0xDFFF).

(** Text that [TextEncoder]/[TextDecoder] carry unchanged: well formed and
    not starting with a byte order mark. *)
Definition preserved_text (s : jsstring) : Prop :=
  isWellFormed s = true /\ hd 0 s <> BOM.

End UTF8.

(** * The environment of the page

    [localStorage], the bytes that [crypto.getRandomValues] and
    [crypto.randomUUID] hand out, the readings of the clock, what was
    written with [console.error], and two constants of the JavaScript
    engine: the largest number of arguments it lets one call take, and the
    message of the [RangeError] it throws beyond that. *)

Record World := {
  localStorage : gmap string jsstring;
  entropy : nat -> byte;
  drawn : nat;
  clock : nat -> jsstring;
  ticks : nat;
  console : list (string * exn);
  max_arguments : N;
  too_many_arguments : string
}.

Definition with_localStorage (f : gmap string jsstring -> gmap string jsstring)
    (w : World) : World :=
  {| localStorage := f (localStorage w); entropy := entropy w; drawn := drawn w;
     clock := clock w; ticks := ticks w; console := console w;
     max_arguments := max_arguments w; too_many_arguments := too_many_arguments w |}.

Definition with_drawn (n : nat) (w : World) : World :=
  {| localStorage := localStorage w; entropy := entropy w; drawn := n;
     clock := clock w; ticks := ticks w; console := console w;
     max_arguments := max_arguments w; too_many_arguments := too_many_arguments w |}.

Definition with_ticks (n : nat) (w : World) : World :=
  {| localStorage := localStorage w; entropy := entropy w; drawn := drawn w;
     clock := clock w; ticks := n; console := console w;
     max_arguments := max_arguments w; too_many_arguments := too_many_arguments w |}.

Definition with_console (l : list (string * exn)) (w : World) : World :=
  {| localStorage := localStorage w; entropy := entropy w; drawn := drawn w;
     clock := clock w; ticks := ticks w; console := l;
     max_arguments := max_arguments w; too_many_arguments := too_many_arguments w |}.

(** An asynchronous computation: it reads and changes the environment and
    either resolves or rejects.  What it changed before rejecting stays. *)
Definition M (A : Type) : Type := World -> result A * World.

Definition ret {A} (a : A) : M A := fun w => (Ok a, w).

Definition throw {A} (e : exn) : M A := fun w => (Throw e, w).

Definition bind {A B} (m : M A) (k : A -> M B) : M B :=
  fun w => match m w with
           | (Ok a, w') => k a w'
           | (Throw e, w') => (Throw e, w')
           end.

Definition try_catch {A} (m : M A) (handler : exn -> M A) : M A :=
  fun w => match m w with
           | (Ok a, w') => (Ok a, w')
           | (Throw e, w') => handler e w'
           end.

Definition lift {A} (r : result A) : M A := fun w => (r, w).

Declare Scope vault_scope.
Delimit Scope vault_scope with vault.
Notation "x <- m ;; k" := (bind m (fun x => k))
  (at level 100, m at next level, right associativity) : vault_scope.
Notation "m ;; k" := (bind m (fun _ => k))
  (at level 100, right associativity) : vault_scope.
Local Open Scope vault_scope.

(** [mapM f l]: [l.map(f)] for a callback with effects. *)
Fixpoint mapM {A B} (f : A -> M B) (l : list A) : M (list B) :=
  match l with
  | [] => ret []
  | a :: l' => b <- f a ;; bs <- mapM f l' ;; ret (b :: bs)
  end.

(** The [RangeError] of a call with more arguments than the engine takes. *)
Definition RangeError (w : World) : exn :=
  {| name := "RangeError"; message := too_many_arguments w |}.

(** [String.fromCharCode(...bs)]: the spread passes one argument for each
    byte, so the call is refused when there are more bytes than the engine
    takes arguments. *)
Definition fromCharCode_spread (bs : bytes) : M jsstring :=
  fun w => if (N.of_nat (length bs) <=? max_arguments w)%N
           then (Ok (fromCharCode bs), w)
           else (Throw (RangeError w), w).

(** [crypto.getRandomValues(new Uint8Array(n))]. *)
Definition getRandomValues (n : nat) : M bytes :=
  fun w => (Ok (map (entropy w) (seq (drawn w) n)), with_drawn (drawn w + n) w).

(** [crypto.getRandomValues] refuses more than 65536 bytes at once. *)
Definition QuotaExceededError : exn :=
  {| name := "QuotaExceededError";
     message := "The requested length exceeds 65,536 bytes" |}.

(** The elements of a [Uint32Array] over the given bytes (little endian). *)
Fixpoint uint32s (bs : bytes) : list Z :=
  match bs with
  | b0 :: b1 :: b2 :: b3 :: rest =>
      (Z_of_byte b0 + 256 * Z_of_byte b1 + 65536 * Z_of_byte b2
       + 16777216 * Z_of_byte b3)%Z :: uint32s rest
  | _ => []
  end.

(** [crypto.getRandomValues(new Uint32Array(n))]. *)
Definition getRandomUint32Array (n : nat) : M (list Z) :=
  if (65536 <? 4 * Z.of_nat n)%Z then throw QuotaExceededError
  else (bs <- getRandomValues (4 * n) ;; ret (uint32s bs)).

(** [new Date().toISOString()]. *)
Definition now : M jsstring :=
  fun w => (Ok (clock w (ticks w)), with_ticks (S (ticks w)) w).

Definition console_error (label : string) (e : exn) : M unit :=
  fun w => (Ok tt, with_console (console w ++ [(label, e)]) w).

Definition getItem (key : string) : M (option jsstring) :=
  fun w => (Ok (localStorage w !! key), w).

Definition setItem (key : string) (value : jsstring) : M unit :=
  fun w => (Ok tt, with_localStorage (insert key value) w).

Definition removeItem (key : string) : M unit :=
  fun w => (Ok tt, with_localStorage (delete key) w).

(** Truthiness of a [string | null]: [null] and the empty string are falsy. *)
Definition truthy (o : option jsstring) : bool :=
  match o with
  | Some (_ :: _) => true
  | _ => false
  end.

(** Two lowercase hexadecimal digits: [b.toString(16).padStart(2, '0')]. *)
Definition hex_digit (n : Z) : Z := (if n <? 10 then 48 + n else 87 + n)%Z.
Definition hex_byte (b : byte) : jsstring :=
  [hex_digit (Z_of_byte b / 16); hex_digit (Z_of_byte b mod 16)].
Definition hex (bs : bytes) : jsstring := flat_map hex_byte bs.

(** [crypto.randomUUID()]: sixteen random bytes with the version and
    variant bits of a version 4 UUID, printed 8-4-4-4-12. *)
Definition uuid_bytes (bs : bytes) : bytes :=
  match bs with
  | b0 :: b1 :: b2 :: b3 :: b4 :: b5 :: b6 :: b7 :: b8 :: rest =>
      b0 :: b1 :: b2 :: b3 :: b4 :: b5
      :: byte_of_Z (64 + Z_of_byte b6 mod 16) :: b7
      :: byte_of_Z (128 + Z_of_byte b8 mod 64) :: rest
  | _ => bs
  end.

Definition format_uuid (bs : bytes) : jsstring :=
  hex (slice 0 4 bs) ++ [45%Z] ++ hex (slice 4 6 bs) ++ [45%Z] ++ hex (slice 6 8 bs)
  ++ [45%Z] ++ hex (slice 8 10 bs) ++ [45%Z] ++ hex (slice_from 10 bs).

Definition randomUUID : M jsstring :=
  bs <- getRandomValues 16 ;; ret (format_uuid (uuid_bytes bs)).

(** * The interfaces of the platform *)

(** [crypto.subtle]: PBKDF2-HMAC-SHA-256 to a 256-bit AES key, AES-GCM with
    its 128-bit tag appended to the ciphertext, and SHA-256.  A failed
    authentication is [None]. *)
Class WebCrypto := {
  pbkdf2_sha256 : bytes -> bytes -> N -> bytes;
  aes_gcm_encrypt : bytes -> bytes -> bytes -> bytes;
  aes_gcm_decrypt : bytes -> bytes -> bytes -> option bytes;
  sha256 : bytes -> bytes
}.

(** Decryption under the key and nonce of the encryption gives the
    plaintext back. *)
Definition aead_correct (wc : WebCrypto) : Prop :=
  forall key iv plaintext,
    aes_gcm_decrypt key iv (aes_gcm_encrypt key iv plaintext) = Some plaintext.




(** A digest is never empty (SHA-256 gives 32 bytes). *)
Definition digest_nonempty (wc : WebCrypto) : Prop :=
  forall msg, sha256 msg <> [].

(** [JSON.stringify] and [JSON.parse] at the type of the stored value. *)
Class JSON (A : Type) := {
  stringify : A -> jsstring;
  parse : jsstring -> result A
}.

(** [JSON.parse] inverts [JSON.stringify]; the text of an array starts with
    a bracket and has no unpaired surrogate (they are escaped). *)
Definition json_correct {A} (codec : JSON (list A)) : Prop :=
  forall l : list A,
    parse (stringify l) = Ok l /\
    hd 0%Z (stringify l) = 91%Z /\
    UTF8.isWellFormed (stringify l) = true.

(** * EncryptionService (lib/encryption) *)

Module EncryptionService.
Section with_crypto.
Context {wc : WebCrypto}.

Definition PBKDF2_ITERATIONS : N := 100000.

(** [importKey] of the encoded password, then [deriveKey]: neither looks at
    the length of the password. *)
Definition deriveKey (password : jsstring) (salt : bytes) : M bytes :=
  let passwordKey := UTF8.encode password in
  ret (pbkdf2_sha256 passwordKey salt PBKDF2_ITERATIONS).

(** The last line is [btoa(String.fromCharCode(...combined))]: the spread
    comes first and is refused when [combined] is too long for one call. *)
Definition encrypt (plaintext password : jsstring) : M jsstring :=
  salt <- getRandomValues 16 ;;
  iv <- getRandomValues 12 ;;
  key <- deriveKey password salt ;;
  let encryptedData := aes_gcm_encrypt key iv (UTF8.encode plaintext) in
  let combined := salt ++ iv ++ encryptedData in
  chars <- fromCharCode_spread combined ;;
  lift (Base64.btoa chars).

Definition DECRYPTION_FAILED : exn :=
  Error "Decryption failed. Invalid password or corrupted data.".

Definition decrypt (ciphertext password : jsstring) : M jsstring :=
  try_catch
    (decoded <- lift (Base64.atob ciphertext) ;;
     let combined := charCodes decoded in
     let salt := slice 0 16 combined in
     let iv := slice 16 28 combined in
     let data := slice_from 28 combined in
     key <- deriveKey password salt ;;
     match aes_gcm_decrypt key iv data with
     | Some decryptedData => ret (UTF8.decode decryptedData)
     | None => throw OperationError
     end)
    (fun _ => throw DECRYPTION_FAILED).

Definition hashPassword (password : jsstring) : M jsstring :=
  let msgBuffer := UTF8.encode password in
  let hashBuffer := sha256 msgBuffer in
  ret (hex hashBuffer).

(** The salt and the nonce that the next [encrypt] draws, what it seals
    under them, and the token it returns. *)
Definition next_salt (w : World) : bytes := map (entropy w) (seq (drawn w) 16).
Definition next_nonce (w : World) : bytes := map (entropy w) (seq (drawn w + 16) 12).

Definition sealed (plaintext password : jsstring) (salt nonce : bytes) : bytes :=
  aes_gcm_encrypt (pbkdf2_sha256 (UTF8.encode password) salt PBKDF2_ITERATIONS) nonce
                  (UTF8.encode plaintext).

Definition token_of (plaintext password : jsstring) (salt nonce : bytes) : jsstring :=
  Base64.encode (fromCharCode (salt ++ nonce ++ sealed plaintext password salt nonce)).

(** Whether the bytes that the next [encrypt] puts together (salt, nonce
    and sealed bytes) are few enough to be spread over one call. *)
Definition fits (plaintext password : jsstring) (w : World) : bool :=
  (N.of_nat (length (next_salt w ++ next_nonce w
                     ++ sealed plaintext password (next_salt w) (next_nonce w)))
   <=? max_arguments w)%N.

(** What [decrypt] makes of the decoded bytes of a token. *)
Definition open_token (combined : bytes) (password : jsstring) : result jsstring :=
  match aes_gcm_decrypt
          (pbkdf2_sha256 (UTF8.encode password) (slice 0 16 combined) PBKDF2_ITERATIONS)
          (slice 16 28 combined) (slice_from 28 combined) with
  | Some decryptedData => Ok (UTF8.decode decryptedData)
  | None => Throw DECRYPTION_FAILED
  end.

End with_crypto.
End EncryptionService.

(** * LocalStorageService (lib/storage) *)

Record PasswordEntry := {
  id : jsstring;
  title : jsstring;
  username : option jsstring;
  password : jsstring;
  url : option jsstring;
  category_id : option jsstring;
  tags : list jsstring;
  notes : option jsstring;
  strength_score : Z;
  last_used : option jsstring;
  created_at : jsstring;
  updated_at : jsstring
}.

Record Category := {
  cat_id : jsstring;
  cat_name : jsstring;
  cat_icon : jsstring;
  cat_color : jsstring
}.

Module LocalStorageService.
Section with_platform.
Context {wc : WebCrypto} {json_entries : JSON (list PasswordEntry)}
        {json_categories : JSON (list Category)}.

Definition ENTRIES_KEY : string := "securevault_entries".
Definition CATEGORIES_KEY : string := "securevault_categories".
Definition MASTER_PASSWORD_HASH_KEY : string := "securevault_master_hash".

Definition setMasterPassword (password : jsstring) : M unit :=
  hash <- EncryptionService.hashPassword password ;;
  setItem MASTER_PASSWORD_HASH_KEY hash.

Definition verifyMasterPassword (password : jsstring) : M bool :=
  storedHash <- getItem MASTER_PASSWORD_HASH_KEY ;;
  match storedHash with
  | Some (c :: h) =>
      hash <- EncryptionService.hashPassword password ;;
      ret (bool_decide (hash = c :: h))
  | _ => ret false
  end.

Definition hasMasterPassword : M bool :=
  stored <- getItem MASTER_PASSWORD_HASH_KEY ;; ret (truthy stored).

Definition getEntries (masterPassword : jsstring) : M (list PasswordEntry) :=
  encrypted <- getItem ENTRIES_KEY ;;
  match encrypted with
  | Some (c :: t) =>
      try_catch
        (decrypted <- EncryptionService.decrypt (c :: t) masterPassword ;;
         lift (parse decrypted))
        (fun error =>
           console_error "Failed to decrypt entries:" error ;;
           throw (Error "Invalid master password"))
  | _ => ret []
  end.

Definition saveEntries (entries : list PasswordEntry) (masterPassword : jsstring) : M unit :=
  let json := stringify entries in
  encrypted <- EncryptionService.encrypt json masterPassword ;;
  setItem ENTRIES_KEY encrypted.

Definition defaultCategories : list Category :=
  [ {| cat_id := js "1"; cat_name := js "Social Media"; cat_icon := js "share-2";
       cat_color := js "#3B82F6" |};
    {| cat_id := js "2"; cat_name := js "Banking"; cat_icon := js "landmark";
       cat_color := js "#059669" |};
    {| cat_id := js "3"; cat_name := js "Work"; cat_icon := js "briefcase";
       cat_color := js "#6B7280" |};
    {| cat_id := js "4"; cat_name := js "Personal"; cat_icon := js "user";
       cat_color := js "#8B5CF6" |};
    {| cat_id := js "5"; cat_name := js "Shopping"; cat_icon := js "shopping-cart";
       cat_color := js "#F97316" |} ].

Definition saveCategories (categories : list Category) : M unit :=
  setItem CATEGORIES_KEY (stringify categories).

Definition getCategories : M (list Category) :=
  stored <- getItem CATEGORIES_KEY ;;
  match stored with
  | Some (c :: t) => lift (parse (c :: t))
  | _ => saveCategories defaultCategories ;; ret defaultCategories
  end.

Definition clearAll : M unit :=
  removeItem ENTRIES_KEY ;;
  removeItem CATEGORIES_KEY ;;
  removeItem MASTER_PASSWORD_HASH_KEY.

End with_platform.
End LocalStorageService.

(** * The data sources (lib/datasource) *)

(** [Omit<PasswordEntry, 'id' | 'created_at' | 'updated_at'>]. *)
Record EntryInput := {
  in_title : jsstring;
  in_username : option jsstring;
  in_password : jsstring;
  in_url : option jsstring;
  in_category_id : option jsstring;
  in_tags : list jsstring;
  in_notes : option jsstring;
  in_strength_score : Z;
  in_last_used : option jsstring
}.

(** [Partial<PasswordEntry>]: a field that is absent is [None]. *)
Record EntryPatch := {
  p_id : option jsstring;
  p_title : option jsstring;
  p_username : option (option jsstring);
  p_password : option jsstring;
  p_url : option (option jsstring);
  p_category_id : option (option jsstring);
  p_tags : option (list jsstring);
  p_notes : option (option jsstring);
  p_strength_score : option Z;
  p_last_used : option (option jsstring);
  p_created_at : option jsstring;
  p_updated_at : option jsstring
}.

(** [{ ...entry, id, created_at, updated_at }]. *)
Definition new_entry (entry : EntryInput) (i c u : jsstring) : PasswordEntry :=
  {| id := i; title := in_title entry; username := in_username entry;
     password := in_password entry; url := in_url entry;
     category_id := in_category_id entry; tags := in_tags entry;
     notes := in_notes entry; strength_score := in_strength_score entry;
     last_used := in_last_used entry; created_at := c; updated_at := u |}.

(** [{ ...e, ...entry }]. *)
Definition spread (e : PasswordEntry) (entry : EntryPatch) : PasswordEntry :=
  {| id := default (id e) (p_id entry);
     title := default (title e) (p_title entry);
     username := default (username e) (p_username entry);
     password := default (password e) (p_password entry);
     url := default (url e) (p_url entry);
     category_id := default (category_id e) (p_category_id entry);
     tags := default (tags e) (p_tags entry);
     notes := default (notes e) (p_notes entry);
     strength_score := default (strength_score e) (p_strength_score entry);
     last_used := default (last_used e) (p_last_used entry);
     created_at := default (created_at e) (p_created_at entry);
     updated_at := default (updated_at e) (p_updated_at entry) |}.

(** [{ ...e, updated_at }]. *)
Definition touch (e : PasswordEntry) (u : jsstring) : PasswordEntry :=
  {| id := id e; title := title e; username := username e; password := password e;
     url := url e; category_id := category_id e; tags := tags e; notes := notes e;
     strength_score := strength_score e; last_used := last_used e;
     created_at := created_at e; updated_at := u |}.

(** The interface [VaultDataSource]. *)
Module VaultDataSource.
Record t := {
  loadEntries : M (list PasswordEntry);
  loadCategories : M (list Category);
  addEntry : EntryInput -> option jsstring -> M PasswordEntry;
  updateEntry : jsstring -> EntryPatch -> M unit;
  deleteEntry : jsstring -> M unit
}.
End VaultDataSource.

Module LocalDataSource.
Section with_platform.
Context {wc : WebCrypto} {json_entries : JSON (list PasswordEntry)}
        {json_categories : JSON (list Category)}.
Variable masterPassword : jsstring.

Definition loadEntries : M (list PasswordEntry) :=
  LocalStorageService.getEntries masterPassword.

Definition loadCategories : M (list Category) :=
  LocalStorageService.getCategories.

Definition addEntry (entry : EntryInput) : M PasswordEntry :=
  i <- randomUUID ;;
  c <- now ;;
  u <- now ;;
  let newEntry := new_entry entry i c u in
  existing <- loadEntries ;;
  LocalStorageService.saveEntries (newEntry :: existing) masterPassword ;;
  ret newEntry.

Definition updateEntry (i : jsstring) (entry : EntryPatch) : M unit :=
  existing <- loadEntries ;;
  updated <- mapM (fun e => if bool_decide (id e = i)
                            then (u <- now ;; ret (touch (spread e entry) u))
                            else ret e) existing ;;
  LocalStorageService.saveEntries updated masterPassword.

Definition deleteEntry (i : jsstring) : M unit :=
  existing <- loadEntries ;;
  let updated := List.filter (fun e => negb (bool_decide (id e = i))) existing in
  LocalStorageService.saveEntries updated masterPassword.

(** The blob was written back as one unit: storage changed at the key of
    the entries only, and what is stored there is one token that opens, under
    the master password, to the text of the whole collection [es]. *)
Definition whole_blob_rewritten (w w' : World) (es : list PasswordEntry) : Prop :=
  exists token,
    localStorage w' = <[LocalStorageService.ENTRIES_KEY := token]> (localStorage w) /\
    EncryptionService.decrypt token masterPassword w' = (Ok (stringify es), w') /\
    loadEntries w' = (Ok es, w').

(** [new LocalDataSource(masterPassword)]. *)
Definition make : VaultDataSource.t :=
  {| VaultDataSource.loadEntries := loadEntries;
     VaultDataSource.loadCategories := loadCategories;
     VaultDataSource.addEntry := fun entry _ => addEntry entry;
     VaultDataSource.updateEntry := updateEntry;
     VaultDataSource.deleteEntry := deleteEntry |}.

End with_platform.
End LocalDataSource.

(** The calls the cloud data source makes on the Supabase client, each with
    the [data] it resolves to; a call that comes back with an [error]
    throws it.  [None] is a disabled or missing client. *)
Record SupabaseClient := {
  (* [from('password_entries').select('*').order('created_at', ...)] *)
  select_password_entries : M (list PasswordEntry);
  (* [from('categories').select('*')] *)
  select_categories : M (list Category);
  (* [from('password_entries').insert([payload]).select().single()] *)
  insert_password_entry : EntryInput -> jsstring -> M PasswordEntry;
  (* [from('password_entries').update(payload).eq('id', id)] *)
  update_password_entry : EntryPatch -> jsstring -> M unit;
  (* [from('password_entries').delete().eq('id', id)] *)
  delete_password_entry : jsstring -> M unit
}.

(** [{ ...entry, password }]. *)
Definition with_in_password (entry : EntryInput) (p : jsstring) : EntryInput :=
  {| in_title := in_title entry; in_username := in_username entry; in_password := p;
     in_url := in_url entry; in_category_id := in_category_id entry;
     in_tags := in_tags entry; in_notes := in_notes entry;
     in_strength_score := in_strength_score entry; in_last_used := in_last_used entry |}.

(** [{ ...r, password }]. *)
Definition with_password (r : PasswordEntry) (p : jsstring) : PasswordEntry :=
  {| id := id r; title := title r; username := username r; password := p;
     url := url r; category_id := category_id r; tags := tags r; notes := notes r;
     strength_score := strength_score r; last_used := last_used r;
     created_at := created_at r; updated_at := updated_at r |}.

(** [payload.password = ...] on a copy of the patch. *)
Definition with_p_password (entry : EntryPatch) (p : jsstring) : EntryPatch :=
  {| p_id := p_id entry; p_title := p_title entry; p_username := p_username entry;
     p_password := Some p; p_url := p_url entry; p_category_id := p_category_id entry;
     p_tags := p_tags entry; p_notes := p_notes entry;
     p_strength_score := p_strength_score entry; p_last_used := p_last_used entry;
     p_created_at := p_created_at entry; p_updated_at := p_updated_at entry |}.

Module SupabaseDataSource.
Section with_platform.
Context {wc : WebCrypto}.
(** [SUPABASE_ENABLED && supabase]. *)
Variable supabase : option SupabaseClient.
Variable userId : jsstring.
Variable encryptionPassword : jsstring.

Definition ensureSupabase : M SupabaseClient :=
  match supabase with
  | Some sb => ret sb
  | None => throw (Error "Supabase is disabled")
  end.

(** The rows are opened together ([Promise.all]): one that does not open
    rejects the whole load. *)
Definition loadEntries : M (list PasswordEntry) :=
  sb <- ensureSupabase ;;
  rows <- select_password_entries sb ;;
  mapM (fun r =>
          p <- EncryptionService.decrypt (password r) encryptionPassword ;;
          ret (with_password r p)) rows.

Definition loadCategories : M (list Category) :=
  sb <- ensureSupabase ;;
  select_categories sb.

Definition addEntry (entry : EntryInput) : M PasswordEntry :=
  sb <- ensureSupabase ;;
  ciphertext <- EncryptionService.encrypt (in_password entry) encryptionPassword ;;
  data <- insert_password_entry sb (with_in_password entry ciphertext) userId ;;
  ret (with_password data (in_password entry)).

Definition updateEntry (i : jsstring) (entry : EntryPatch) : M unit :=
  sb <- ensureSupabase ;;
  payload <- match p_password entry with
             | Some p =>
                 ciphertext <- EncryptionService.encrypt p encryptionPassword ;;
                 ret (with_p_password entry ciphertext)
             | None => ret entry
             end ;;
  update_password_entry sb payload i.

Definition deleteEntry (i : jsstring) : M unit :=
  sb <- ensureSupabase ;;
  delete_password_entry sb i.

(** [new SupabaseDataSource(userId, encryptionPassword)]. *)
Definition make : VaultDataSource.t :=
  {| VaultDataSource.loadEntries := loadEntries;
     VaultDataSource.loadCategories := loadCategories;
     VaultDataSource.addEntry := fun entry _ => addEntry entry;
     VaultDataSource.updateEntry := updateEntry;
     VaultDataSource.deleteEntry := deleteEntry |}.

End with_platform.
End SupabaseDataSource.

(** * VaultProvider (contexts/VaultContext)

    The state of the provider is the React state of the component together
    with [user] and [isGuest] of the authentication context.  A handler maps
    the state it was rendered with to the state it leaves. *)

Module VaultProvider.

Record State := {
  isGuest : bool;
  user : option jsstring;              (* [user.id] *)
  entries : list PasswordEntry;
  categories : list Category;
  loading : bool;
  error : option string;
  masterPassword : option jsstring;
  dataSource : option VaultDataSource.t
}.

Definition setEntries (es : list PasswordEntry) (st : State) : State :=
  {| isGuest := isGuest st; user := user st; entries := es;
     categories := categories st; loading := loading st; error := error st;
     masterPassword := masterPassword st; dataSource := dataSource st |}.

Definition setCategories (cs : list Category) (st : State) : State :=
  {| isGuest := isGuest st; user := user st; entries := entries st;
     categories := cs; loading := loading st; error := error st;
     masterPassword := masterPassword st; dataSource := dataSource st |}.

Definition setLoading (b : bool) (st : State) : State :=
  {| isGuest := isGuest st; user := user st; entries := entries st;
     categories := categories st; loading := b; error := error st;
     masterPassword := masterPassword st; dataSource := dataSource st |}.

Definition setError (msg : string) (st : State) : State :=
  {| isGuest := isGuest st; user := user st; entries := entries st;
     categories := categories st; loading := loading st; error := Some msg;
     masterPassword := masterPassword st; dataSource := dataSource st |}.

Definition setMasterPasswordState (p : jsstring) (st : State) : State :=
  {| isGuest := isGuest st; user := user st; entries := entries st;
     categories := categories st; loading := loading st; error := error st;
     masterPassword := Some p; dataSource := dataSource st |}.

Definition setDataSource (ds : VaultDataSource.t) (st : State) : State :=
  {| isGuest := isGuest st; user := user st; entries := entries st;
     categories := categories st; loading := loading st; error := error st;
     masterPassword := masterPassword st; dataSource := Some ds |}.

(** The state of a freshly mounted provider. *)
Definition initial (guest : bool) (u : option jsstring) : State :=
  {| isGuest := guest; user := u; entries := []; categories := []; loading := true;
     error := None; masterPassword := None; dataSource := None |}.

(** A data source exists only while a master password is held. *)
Definition gate_consistent (st : State) : Prop :=
  masterPassword st = None -> dataSource st = None.

(** The gate of a state: the master password it holds and its data source. *)
Definition same_gate (st st' : State) : Prop :=
  masterPassword st' = masterPassword st /\ dataSource st' = dataSource st.

Section with_platform.
Context {wc : WebCrypto} {json_entries : JSON (list PasswordEntry)}
        {json_categories : JSON (list Category)}.
(** [APP_MODE === 'cloud'] and [new SupabaseDataSource(userId, password)]. *)
Variable cloud : bool.
Variable SupabaseDataSource : jsstring -> jsstring -> VaultDataSource.t.

(** The two loaders catch every error and show its message. *)
Definition loadLocalEntries (password : jsstring) (st : State) : M State :=
  fun w =>
    match LocalStorageService.getEntries password w with
    | (Throw err, w1) => (Ok (setLoading false (setError (message err) st)), w1)
    | (Ok localEntries, w1) =>
        let st1 := setEntries localEntries st in
        match LocalStorageService.getCategories w1 with
        | (Throw err, w2) => (Ok (setLoading false (setError (message err) st1)), w2)
        | (Ok localCategories, w2) =>
            (Ok (setLoading false (setCategories localCategories st1)), w2)
        end
    end.

(** [Promise.all] of the two loads, the entries first. *)
Definition loadFromDataSource (source : VaultDataSource.t) (st : State) : M State :=
  fun w =>
    let '(e, w1) := VaultDataSource.loadEntries source w in
    let '(c, w2) := VaultDataSource.loadCategories source w1 in
    match e, c with
    | Ok e, Ok c => (Ok (setLoading false (setCategories c (setEntries e st))), w2)
    | Throw err, _ => (Ok (setLoading false (setError (message err) st)), w2)
    | _, Throw err => (Ok (setLoading false (setError (message err) st)), w2)
    end.

Definition setMasterPassword (password : jsstring) (st : State) : M State :=
  if isGuest st then
    has <- LocalStorageService.hasMasterPassword ;;
    isValid <- (if has : bool then LocalStorageService.verifyMasterPassword password
                else ret true) ;;
    if negb isValid then throw (Error "Invalid master password")
    else
      has' <- LocalStorageService.hasMasterPassword ;;
      (if negb has' then LocalStorageService.setMasterPassword password else ret tt) ;;
      loadLocalEntries password (setMasterPasswordState password st)
  else
    let st1 := setMasterPasswordState password st in
    match user st with
    | Some u => if cloud then ret (setDataSource (SupabaseDataSource u password) st1)
                else ret st1
    | None => ret st1
    end.

(** The effect that runs when [user], [isGuest] or [masterPassword] change. *)
Definition useEffect (st : State) : M State :=
  match masterPassword st with
  | Some (c :: p) =>
      if isGuest st then
        loadLocalEntries (c :: p) (setDataSource (LocalDataSource.make (c :: p)) st)
      else
        match user st with
        | Some u =>
            if cloud then
              let source := SupabaseDataSource u (c :: p) in
              loadFromDataSource source (setDataSource source st)
            else ret st
        | None => ret (setLoading false st)
        end
  | _ =>
      match user st with
      | None => if isGuest st then ret st else ret (setLoading false st)
      | Some _ => ret st
      end
  end.

Definition addEntry (entry : EntryInput) (st : State) : M State :=
  match isGuest st, masterPassword st with
  | true, Some (c :: p) =>
      i <- randomUUID ;;
      created <- now ;;
      updated <- now ;;
      let newEntry := new_entry entry i created updated in
      let updatedEntries := newEntry :: entries st in
      LocalStorageService.saveEntries updatedEntries (c :: p) ;;
      ret (setEntries updatedEntries st)
  | _, _ =>
      match dataSource st, user st with
      | Some ds, Some u =>
          created <- VaultDataSource.addEntry ds entry (Some u) ;;
          ret (setEntries (created :: entries st) st)
      | _, _ => ret st
      end
  end.

Definition updateEntry (i : jsstring) (entry : EntryPatch) (st : State) : M State :=
  match isGuest st, masterPassword st with
  | true, Some (c :: p) =>
      updatedEntries <-
        mapM (fun e => if bool_decide (id e = i)
                       then (u <- now ;; ret (touch (spread e entry) u))
                       else ret e) (entries st) ;;
      LocalStorageService.saveEntries updatedEntries (c :: p) ;;
      ret (setEntries updatedEntries st)
  | _, _ =>
      match dataSource st, user st with
      | Some ds, Some _ =>
          VaultDataSource.updateEntry ds i entry ;;
          ret (setEntries
                 (map (fun e => if bool_decide (id e = i) then spread e entry else e)
                      (entries st)) st)
      | _, _ => ret st
      end
  end.

Definition deleteEntry (i : jsstring) (st : State) : M State :=
  match isGuest st, masterPassword st with
  | true, Some (c :: p) =>
      let updatedEntries :=
        List.filter (fun e => negb (bool_decide (id e = i))) (entries st) in
      LocalStorageService.saveEntries updatedEntries (c :: p) ;;
      ret (setEntries updatedEntries st)
  | _, _ =>
      match dataSource st, user st with
      | Some ds, Some _ =>
          VaultDataSource.deleteEntry ds i ;;
          ret (setEntries
                 (List.filter (fun e => negb (bool_decide (id e = i))) (entries st)) st)
      | _, _ => ret st
      end
  end.

Definition refreshEntries (st : State) : M State :=
  match dataSource st, user st, isGuest st with
  | Some ds, Some _, false => loadFromDataSource ds st
  | _, _, _ =>
      match isGuest st, masterPassword st with
      | true, Some (c :: p) => loadLocalEntries (c :: p) st
      | _, _ => ret st
      end
  end.

End with_platform.
End VaultProvider.

(** * PasswordGenerator.calculateStrength (lib/passwordGenerator) *)

Module PasswordGenerator.
Local Open Scope Z_scope.

Definition is_lower (c : Z) : bool := (97 <=? c) && (c <=? 122).   (* [a-z] *)
Definition is_upper (c : Z) : bool := (65 <=? c) && (c <=? 90).    (* [A-Z] *)
Definition is_digit (c : Z) : bool := (48 <=? c) && (c <=? 57).    (* [0-9] *)
Definition is_symbol (c : Z) : bool :=                              (* [^a-zA-Z0-9] *)
  negb (is_lower c || is_upper c || is_digit c).

(** What [.] does not match: LF, CR, U+2028 and U+2029. *)
Definition is_line_terminator (c : Z) : bool :=
  (c =? 10) || (c =? 13) || (c =? 0x2028) || (c =? 0x2029).

(** [/[cls]/.test(s)]. *)
Definition test_class (cls : Z -> bool) (s : jsstring) : bool := existsb cls s.

(** A match of [.*[cls]] that starts at the head of [s]. *)
Fixpoint any_then_class (cls : Z -> bool) (s : jsstring) : bool :=
  match s with
  | [] => false
  | c :: s' => cls c || (negb (is_line_terminator c) && any_then_class cls s')
  end.

(** [/[cls].*[cls]/.test(s)]. *)
Fixpoint test_class_twice (cls : Z -> bool) (s : jsstring) : bool :=
  match s with
  | [] => false
  | c :: s' => (cls c && any_then_class cls s') || test_class_twice cls s'
  end.

Record Strength := { score : Z; label : string; color : string }.

(** [if (b) score += n]. *)
Definition bonus (b : bool) (n : Z) : Z := if b then n else 0.

Definition calculateStrength (password : jsstring) : Strength :=
  let len := Z.of_nat (length password) in
  let score := 0 in
  let score := score + bonus (len >=? 8) 20 in
  let score := score + bonus (len >=? 12) 15 in
  let score := score + bonus (len >=? 16) 15 in
  let score := score + bonus (test_class is_lower password) 10 in
  let score := score + bonus (test_class is_upper password) 10 in
  let score := score + bonus (test_class is_digit password) 10 in
  let score := score + bonus (test_class is_symbol password) 10 in
  let score := score + bonus (test_class_twice is_lower password) 5 in
  let score := score + bonus (test_class_twice is_upper password) 5 in
  let score := score + bonus (test_class_twice is_digit password) 5 in
  let score := score + bonus (test_class_twice is_symbol password) 5 in
  let score := Z.min score 100 in
  let label_color : string * string :=
    if score >=? 80 then ("Strong", "#059669")
    else if score >=? 60 then ("Good", "#3B82F6")
    else if score >=? 40 then ("Fair", "#F59E0B")
    else ("Weak", "#EF4444") in
  {| score := score; label := fst label_color; color := snd label_color |}.

(** The heuristic in the words of the specification: a class earns its
    bonus of 5 when it appears at least twice. *)
Definition occurrences (cls : Z -> bool) (s : jsstring) : nat :=
  length (List.filter cls s).

Definition specified_score (password : jsstring) : Z :=
  let len := Z.of_nat (length password) in
  let present cls := bonus (1 <=? occurrences cls password)%nat 10 in
  let twice cls := bonus (2 <=? occurrences cls password)%nat 5 in
  Z.min 100
    (bonus (8 <=? len) 20 + bonus (12 <=? len) 15 + bonus (16 <=? len) 15
     + present is_lower + present is_upper + present is_digit + present is_symbol
     + twice is_lower + twice is_upper + twice is_digit + twice is_symbol).

Definition specified_label (score : Z) : string :=
  if score <? 40 then "Weak"
  else if score <? 60 then "Fair"
  else if score <? 80 then "Good"
  else "Strong".

(** [PasswordOptions]. *)
Module PasswordOptions.
Record t := {
  length : nat;
  uppercase : bool;
  lowercase : bool;
  numbers : bool;
  special : bool
}.
End PasswordOptions.

Definition UPPERCASE : jsstring := js "ABCDEFGHIJKLMNOPQRSTUVWXYZ".
Definition LOWERCASE : jsstring := js "abcdefghijklmnopqrstuvwxyz".
Definition NUMBERS : jsstring := js "0123456789".
Definition SPECIAL : jsstring := js "!@#$%^&*()_+-=[]{}|;:,.<>?".

(** The class of the last test of [generate], which lists the characters
    of [SPECIAL]. *)
Definition is_special (c : Z) : bool := existsb (Z.eqb c) SPECIAL.

(** [set[v % set.length]] as a piece of text: a missing [v] or an index
    outside the text gives [undefined], which concatenates as that word. *)
Definition pick (set : jsstring) (v : option Z) : jsstring :=
  match v with
  | Some x =>
      match nth_error set (Z.to_nat (x mod Z.of_nat (length set))) with
      | Some c => [c]
      | None => js "undefined"
      end
  | None => js "undefined"
  end.

(** [if (selected && !/[cls]/.test(password))
       password = set[array[0] % set.length] + password.slice(1)]. *)
Definition ensure_class (selected : bool) (cls : Z -> bool) (set : jsstring)
    (array : list Z) (password : jsstring) : jsstring :=
  if selected && negb (test_class cls password)
  then pick set (hd_error array) ++ skipn 1 password
  else password.

Definition charset_of (options : PasswordOptions.t) : jsstring :=
  (if PasswordOptions.uppercase options then UPPERCASE else [])
  ++ (if PasswordOptions.lowercase options then LOWERCASE else [])
  ++ (if PasswordOptions.numbers options then NUMBERS else [])
  ++ (if PasswordOptions.special options then SPECIAL else []).

Definition generate (options : PasswordOptions.t) : M jsstring :=
  let charset := charset_of options in
  if (length charset =? 0)%nat
  then throw (Error "At least one character type must be selected")
  else
    bind (getRandomUint32Array (PasswordOptions.length options)) (fun array =>
    let password := flat_map (fun v => pick charset (Some v)) array in
    let password :=
      ensure_class (PasswordOptions.uppercase options) is_upper UPPERCASE array password in
    let password :=
      ensure_class (PasswordOptions.lowercase options) is_lower LOWERCASE array password in
    let password :=
      ensure_class (PasswordOptions.numbers options) is_digit NUMBERS array password in
    let password :=
      ensure_class (PasswordOptions.special options) is_special SPECIAL array password in
    ret password).

End PasswordGenerator.

(** * A small instance of the platform interfaces

    It shows that the laws assumed of the platform can be met and gives the
    examples below something to run on.  It is no cipher: the sealed text is
    the reversed plaintext followed by sixteen bytes of the key. *)

Module Toy.

#[local] Instance byte_eq_dec : EqDecision byte := Byte.byte_eq_dec.

Definition pad_to (n : nat) (bs : bytes) : bytes := firstn n (bs ++ repeat x00 n).

Definition kdf (password salt : bytes) (iterations : N) : bytes :=
  pad_to 32 (password ++ salt).

Definition tag (key : bytes) : bytes := pad_to 16 key.

Definition seal (key iv plaintext : bytes) : bytes := rev_append plaintext (tag key).

Definition unseal (key iv data : bytes) : option bytes :=
  let n := (length data - 16)%nat in
  if decide (16 <= length data /\ skipn n data = tag key)%nat
  then Some (rev_append (firstn n data) [])
  else None.

Definition digest (msg : bytes) : bytes := pad_to 32 (rev msg).

Definition crypto : WebCrypto :=
  {| pbkdf2_sha256 := kdf; aes_gcm_encrypt := seal; aes_gcm_decrypt := unseal;
     sha256 := digest |}.

(** A second instance, which also meets the laws of the ideal primitives:
    a key is the password, framed, and the salt; a sealed text is the key
    and the nonce, framed, and the plaintext. *)
Definition frame (bs : bytes) : bytes := flat_map (fun b => [x01; b]) bs ++ [x00].

Definition strict_kdf (password salt : bytes) (iterations : N) : bytes :=
  frame password ++ salt.

Definition strict_seal (key iv plaintext : bytes) : bytes :=
  frame key ++ frame iv ++ plaintext.

Definition strict_unseal (key iv data : bytes) : option bytes :=
  let header := frame key ++ frame iv in
  if decide (firstn (length header) data = header)
  then Some (skipn (length header) data)
  else None.

Definition strict : WebCrypto :=
  {| pbkdf2_sha256 := strict_kdf; aes_gcm_encrypt := strict_seal;
     aes_gcm_decrypt := strict_unseal; sha256 := digest |}.

(** Text for a value: a bracket, then the binary digits of its code. *)
Fixpoint digits (p : positive) : jsstring :=
  match p with
  | xH => []
  | xO p' => 48%Z :: digits p'
  | xI p' => 49%Z :: digits p'
  end.

Fixpoint number (s : jsstring) : option positive :=
  match s with
  | [] => Some xH
  | c :: s' =>
      match number s' with
      | Some p => if (c =? 48)%Z then Some (xO p)
                  else if (c =? 49)%Z then Some (xI p) else None
      | None => None
      end
  end.

Definition json_of_code {A} (code : A -> positive) (uncode : positive -> option A) : JSON A :=
  {| stringify := fun a => 91%Z :: digits (code a);
     parse := fun s =>
       match s with
       | c :: s' =>
           if (c =? 91)%Z then
             match number s' with
             | Some p => match uncode p with Some a => Ok a | None => Throw SyntaxError end
             | None => Throw SyntaxError
             end
           else Throw SyntaxError
       | [] => Throw SyntaxError
       end |}.

(** An entry and a category as lists of fields, a field as a list of
    strings: a string by itself, an absent one as no string, a number as a
    string of one element. *)
Definition opt_field (o : option jsstring) : list jsstring :=
  match o with Some s => [s] | None => [] end.

Definition field_opt (f : list jsstring) : option (option jsstring) :=
  match f with [] => Some None | [s] => Some (Some s) | _ => None end.

Definition entry_fields (e : PasswordEntry) : list (list jsstring) :=
  [ [id e]; [title e]; opt_field (username e); [password e]; opt_field (url e);
    opt_field (category_id e); tags e; opt_field (notes e); [[strength_score e]];
    opt_field (last_used e); [created_at e]; [updated_at e] ].

Definition fields_entry (fs : list (list jsstring)) : option PasswordEntry :=
  match fs with
  | [ [i]; [t]; u; [p]; l; c; g; n; [[s]]; d; [ca]; [ua] ] =>
      match field_opt u, field_opt l, field_opt c, field_opt n, field_opt d with
      | Some u, Some l, Some c, Some n, Some d =>
          Some {| id := i; title := t; username := u; password := p; url := l;
                  category_id := c; tags := g; notes := n; strength_score := s;
                  last_used := d; created_at := ca; updated_at := ua |}
      | _, _, _, _, _ => None
      end
  | _ => None
  end.

Definition category_fields (c : Category) : list jsstring :=
  [cat_id c; cat_name c; cat_icon c; cat_color c].

Definition fields_category (fs : list jsstring) : option Category :=
  match fs with
  | [i; n; ic; co] => Some {| cat_id := i; cat_name := n; cat_icon := ic; cat_color := co |}
  | _ => None
  end.

Fixpoint traverse {A B} (f : A -> option B) (l : list A) : option (list B) :=
  match l with
  | [] => Some []
  | a :: l' =>
      match f a, traverse f l' with
      | Some b, Some bs => Some (b :: bs)
      | _, _ => None
      end
  end.

Definition entries_code (l : list PasswordEntry) : positive :=
  encode (map entry_fields l).
Definition entries_uncode (p : positive) : option (list PasswordEntry) :=
  match decode p with Some fs => traverse fields_entry fs | None => None end.
Definition categories_code (l : list Category) : positive :=
  encode (map category_fields l).
Definition categories_uncode (p : positive) : option (list Category) :=
  match decode p with Some fs => traverse fields_category fs | None => None end.

Definition json_entries : JSON (list PasswordEntry) :=
  json_of_code entries_code entries_uncode.
Definition json_categories : JSON (list Category) :=
  json_of_code categories_code categories_uncode.

(** The entry of the example: title Gmail, secret hunter2. *)
Definition gmail : EntryInput :=
  {| in_title := js "Gmail"; in_username := None; in_password := js "hunter2";
     in_url := None; in_category_id := None; in_tags := []; in_notes := None;
     in_strength_score := 35; in_last_used := None |}.

(** An entry with a note of 5000 letters. *)
Definition diary : EntryInput :=
  {| in_title := js "Diary"; in_username := None; in_password := js "hunter2";
     in_url := None; in_category_id := None; in_tags := [];
     in_notes := Some (repeat 97%Z (N.to_nat 5000));
     in_strength_score := 35; in_last_used := None |}.

(** A page with nothing stored, whose random bytes count up from zero, on
    an engine that takes 65536 arguments (the limit of JavaScriptCore). *)
Definition world : World :=
  {| localStorage := ∅;
     entropy := fun n => byte_of_Z (Z.of_nat n);
     drawn := 0;
     clock := fun n => js "2025-10-01T19:58:09.000Z";
     ticks := 0;
     console := [];
     max_arguments := 65536;
     too_many_arguments := "Maximum call stack size exceeded." |}.

(** The same page after [setMasterPassword] of the master password
    longpass1: a verifier is stored, no entries yet. *)
Definition configured : World :=
  snd (@LocalStorageService.setMasterPassword crypto (js "longpass1") world).

(** The configured page with something stored at the key of the entries
    that is no token. *)
Definition garbled : World :=
  with_localStorage (insert LocalStorageService.ENTRIES_KEY (js "!!!")) configured.

(** The configured page after the empty collection was saved under the
    master password longpass1. *)
Definition saved : World :=
  snd (@LocalStorageService.saveEntries crypto json_entries [] (js "longpass1") configured).

(** A page whose random source gives the byte 26 for ever. *)
Definition steady : World :=
  {| localStorage := ∅;
     entropy := fun _ => byte_of_Z 26;
     drawn := 0;
     clock := fun n => js "2025-10-01T19:58:09.000Z";
     ticks := 0;
     console := [];
     max_arguments := 65536;
     too_many_arguments := "Maximum call stack size exceeded." |}.

(** Eight characters of the classes uppercase, lowercase and special. *)
Definition letters_and_symbols : PasswordGenerator.PasswordOptions.t :=
  {| PasswordGenerator.PasswordOptions.length := 8;
     PasswordGenerator.PasswordOptions.uppercase := true;
     PasswordGenerator.PasswordOptions.lowercase := true;
     PasswordGenerator.PasswordOptions.numbers := false;
     PasswordGenerator.PasswordOptions.special := true |}.

(** A row as the backend returns it for a payload, and a backend that
    holds the given rows. *)
Definition row_of (payload : EntryInput) (user : jsstring) : PasswordEntry :=
  new_entry payload (js "7") (js "2025-10-01T19:58:09.000Z")
            (js "2025-10-01T19:58:09.000Z").

(** A guest's provider that holds the master password longpass1. *)
Definition unlocked : VaultProvider.State :=
  VaultProvider.setMasterPasswordState (js "longpass1") (VaultProvider.initial true None).

Definition client (rows : list PasswordEntry) : SupabaseClient :=
  {| select_password_entries := ret rows;
     select_categories := ret [];
     insert_password_entry := fun payload user => ret (row_of payload user);
     update_password_entry := fun _ _ => ret tt;
     delete_password_entry := fun _ => ret tt |}.

End Toy.

(** * Facts about bytes and strings *)

(** Case analysis on every conditional of the goal, innermost tests first. *)
Ltac case_ifs :=
  repeat match goal with
         | |- context [if ?c then _ else _] =>
             lazymatch c with
             | context [if _ then _ else _] => fail
             | _ => destruct c eqn:?
             end
         end.

Lemma Z_of_byte_range (b : byte) : (0 <= Z_of_byte b < 256)%Z.
Proof.
  unfold Z_of_byte. pose proof (Byte.to_N_bounded b). lia.
Qed.

Lemma byte_of_Z_of_byte (b : byte) : byte_of_Z (Z_of_byte b) = b.
Proof.
  unfold byte_of_Z. pose proof (Z_of_byte_range b) as Hr.
  rewrite Z.mod_small by lia. unfold Z_of_byte.
  rewrite N2Z.id, Byte.of_to_N. reflexivity.
Qed.

Lemma Z_of_byte_of_Z (z : Z) : (0 <= z < 256)%Z -> Z_of_byte (byte_of_Z z) = z.
Proof.
  intros Hz. unfold byte_of_Z. rewrite Z.mod_small by lia.
  destruct (Byte.of_N (Z.to_N z)) as [b|] eqn:E.
  - apply Byte.to_of_N in E. unfold Z_of_byte. rewrite E. lia.
  - apply Byte.of_N_None_iff in E. lia.
Qed.

Lemma charCodes_fromCharCode (bs : bytes) : charCodes (fromCharCode bs) = bs.
Proof.
  unfold charCodes, fromCharCode. rewrite map_map.
  induction bs as [|b bs IH]; simpl; [reflexivity|].
  now rewrite byte_of_Z_of_byte, IH.
Qed.

(** * Facts about sequencing *)

Lemma bind_ok {A B} (m : M A) (k : A -> M B) w a w' :
  m w = (Ok a, w') -> bind m k w = k a w'.
Proof. intros H. unfold bind. now rewrite H. Qed.

Lemma bind_throw {A B} (m : M A) (k : A -> M B) w e w' :
  m w = (Throw e, w') -> bind m k w = (Throw e, w').
Proof. intros H. unfold bind. now rewrite H. Qed.

Lemma bind_inv {A B} (m : M A) (k : A -> M B) w b w' :
  bind m k w = (Ok b, w') -> exists a w1, m w = (Ok a, w1) /\ k a w1 = (Ok b, w').
Proof.
  unfold bind. destruct (m w) as [[a|e] w1]; [eauto | discriminate].
Qed.

(** * Facts about Base64 *)

Module Base64Facts.
Import Base64.
Local Open Scope Z_scope.

(** Induction over a list three elements at a time, as [encode] recurses. *)
Lemma list_ind3 {A} (P : list A -> Prop) :
  P [] -> (forall a, P [a]) -> (forall a b, P [a; b]) ->
  (forall a b c l, P l -> P (a :: b :: c :: l)) ->
  forall l, P l.
Proof.
  intros H0 H1 H2 H3.
  fix IH 1. intros [|a [|b [|c l]]].
  - exact H0.
  - apply H1.
  - apply H2.
  - apply H3, IH.
Qed.

Lemma sextet_of_char_of_sextet n : sextet n -> sextet_of_char (char_of_sextet n) = Some n.
Proof.
  unfold sextet, sextet_of_char, char_of_sextet. intros Hn.
  case_ifs; try (f_equal; lia); lia.
Qed.

Lemma char_of_sextet_not_pad n : sextet n -> char_of_sextet n <> pad.
Proof.
  unfold sextet, char_of_sextet, pad. intros Hn.
  case_ifs; lia.
Qed.

Lemma char_of_sextet_not_whitespace n :
  sextet n -> is_ascii_whitespace (char_of_sextet n) = false.
Proof.
  unfold sextet, char_of_sextet, is_ascii_whitespace. intros Hn.
  case_ifs; lia.
Qed.

(** The four sextets of three octets, and the sextets of a shorter tail. *)
Lemma sextets_in_range a b c :
  octet a -> octet b -> octet c ->
  sextet (a / 4) /\ sextet ((a mod 4) * 16 + b / 16) /\
  sextet ((b mod 16) * 4 + c / 64) /\ sextet (c mod 64) /\
  sextet ((a mod 4) * 16) /\ sextet ((b mod 16) * 4).
Proof. unfold octet, sextet. intros. repeat split; Z.div_mod_to_equations; lia. Qed.

Lemma regroup a b c :
  octet a -> octet b -> octet c ->
  (a / 4) * 4 + ((a mod 4) * 16 + b / 16) / 16 = a /\
  (((a mod 4) * 16 + b / 16) mod 16) * 16 + ((b mod 16) * 4 + c / 64) / 4 = b /\
  (((b mod 16) * 4 + c / 64) mod 4) * 64 + c mod 64 = c.
Proof. unfold octet. intros. repeat split; Z.div_mod_to_equations; lia. Qed.

Lemma strip_trailing_pad_group c1 c2 c3 c4 tl :
  c4 <> pad ->
  strip_trailing_pad (c1 :: c2 :: c3 :: c4 :: tl)
  = c1 :: c2 :: c3 :: c4 :: strip_trailing_pad tl.
Proof.
  intros Hc4. destruct tl as [|x [|y tl]]; simpl.
  - destruct (c4 =? pad) eqn:E; [lia | reflexivity].
  - destruct (x =? pad) eqn:Ex, (c4 =? pad) eqn:E; try lia; reflexivity.
  - reflexivity.
Qed.

Lemma remove_whitespace_encode s :
  Forall octet s -> remove_whitespace (encode s) = encode s.
Proof.
  induction s as [|a|a b|a b c l IH] using list_ind3; intros Hs.
  - reflexivity.
  - inversion_clear Hs as [|? ? Ha _].
    destruct (sextets_in_range a 0 0) as (H1 & _ & _ & _ & H5 & _); [assumption|unfold octet; lia..|].
    unfold remove_whitespace. simpl.
    rewrite !char_of_sextet_not_whitespace by assumption. reflexivity.
  - inversion_clear Hs as [|? ? Ha Hs']. inversion_clear Hs' as [|? ? Hb _].
    destruct (sextets_in_range a b 0) as (H1 & H2 & _ & _ & _ & H6); [assumption..|unfold octet; lia|].
    unfold remove_whitespace. simpl.
    rewrite !char_of_sextet_not_whitespace by assumption. reflexivity.
  - inversion_clear Hs as [|? ? Ha Hs']. inversion_clear Hs' as [|? ? Hb Hs''].
    inversion_clear Hs'' as [|? ? Hc Hl].
    destruct (sextets_in_range a b c) as (H1 & H2 & H3 & H4 & _); [assumption..|].
    unfold remove_whitespace in *. simpl.
    rewrite !char_of_sextet_not_whitespace by assumption. simpl.
    now rewrite IH.
Qed.

Lemma length_encode s : exists k : nat, length (encode s) = (4 * k)%nat.
Proof.
  induction s as [|a|a b|a b c l [k IH]] using list_ind3.
  - now exists 0%nat.
  - now exists 1%nat.
  - now exists 1%nat.
  - exists (S k). simpl length. rewrite IH. lia.
Qed.

Lemma length_encode_mod4 s : (length (encode s) mod 4 = 0)%nat.
Proof.
  destruct (length_encode s) as [k ->].
  rewrite Nat.mul_comm. apply Nat.Div0.mod_mul.
Qed.

(** Decoding the stripped encoding gives the octets back; the number of
    sextets is never 1 modulo 4. *)
Lemma decode_stripped_encode s :
  Forall octet s ->
  exists xs k r,
    sextets_of (strip_trailing_pad (encode s)) = Some xs /\
    decode_sextets xs = s /\
    length (strip_trailing_pad (encode s)) = (4 * k + r)%nat /\
    (r = 0 \/ r = 2 \/ r = 3)%nat.
Proof.
  induction s as [|a|a b|a b c l IH] using list_ind3; intros Hs.
  - exists [], 0%nat, 0%nat. simpl. auto.
  - inversion_clear Hs as [|? ? Ha _].
    destruct (sextets_in_range a 0 0) as (H1 & _ & _ & _ & H5 & _); [assumption|unfold octet; lia..|].
    exists [a / 4; (a mod 4) * 16], 0%nat, 2%nat. simpl.
    rewrite !sextet_of_char_of_sextet by assumption.
    repeat split; auto.
    f_equal. unfold octet in Ha. Z.div_mod_to_equations; lia.
  - inversion_clear Hs as [|? ? Ha Hs']. inversion_clear Hs' as [|? ? Hb _].
    destruct (sextets_in_range a b 0) as (H1 & H2 & _ & _ & _ & H6); [assumption..|unfold octet; lia|].
    exists [a / 4; (a mod 4) * 16 + b / 16; (b mod 16) * 4], 0%nat, 3%nat.
    assert (Hne : (char_of_sextet (b mod 16 * 4) =? pad) = false)
      by (apply Z.eqb_neq, char_of_sextet_not_pad; assumption).
    simpl. rewrite Hne. simpl.
    rewrite !sextet_of_char_of_sextet by assumption.
    repeat split; auto.
    unfold octet in Ha, Hb. repeat f_equal; Z.div_mod_to_equations; lia.
  - inversion_clear Hs as [|? ? Ha Hs']. inversion_clear Hs' as [|? ? Hb Hs''].
    inversion_clear Hs'' as [|? ? Hc Hl].
    destruct (IH Hl) as (xs & k & r & Hxs & Hdec & Hlen & Hr).
    destruct (sextets_in_range a b c) as (H1 & H2 & H3 & H4 & _); [assumption..|].
    destruct (regroup a b c) as (Ra & Rb & Rc); [assumption..|].
    exists (a / 4 :: (a mod 4) * 16 + b / 16 :: (b mod 16) * 4 + c / 64 :: c mod 64 :: xs),
      (S k), r.
    cbn [encode]. rewrite strip_trailing_pad_group by (apply char_of_sextet_not_pad; assumption).
    cbn [sextets_of]. rewrite !sextet_of_char_of_sextet by assumption. rewrite Hxs.
    cbn [decode_sextets length]. rewrite Hdec, Hlen, Ra, Rb, Rc.
    repeat split; auto. lia.
Qed.

Lemma btoa_octets s : Forall octet s -> btoa s = Ok (encode s).
Proof.
  intros Hs. unfold btoa.
  replace (forallb _ s) with true; [reflexivity|].
  symmetry. apply forallb_forall. intros c Hc.
  rewrite Forall_forall in Hs. specialize (Hs c). unfold octet in Hs.
  rewrite <-list_elem_of_In in Hc. specialize (Hs Hc). lia.
Qed.

Theorem atob_encode s : Forall octet s -> atob (encode s) = Ok s.
Proof.
  intros Hs. unfold atob.
  rewrite remove_whitespace_encode by assumption.
  rewrite length_encode_mod4. cbn [Nat.eqb].
  destruct (decode_stripped_encode s Hs) as (xs & k & r & Hxs & Hdec & Hlen & Hr).
  rewrite Hlen, Hxs, Hdec.
  replace ((4 * k + r) mod 4)%nat with r.
  - destruct Hr as [-> | [-> | ->]]; reflexivity.
  - rewrite Nat.add_comm, Nat.mul_comm, Nat.Div0.mod_add.
    symmetry. apply Nat.mod_small. lia.
Qed.

Lemma octets_fromCharCode (bs : bytes) : Forall octet (fromCharCode bs).
Proof.
  unfold fromCharCode. apply Forall_forall. intros z Hz.
  apply list_elem_of_In, in_map_iff in Hz. destruct Hz as (b & <- & _). apply Z_of_byte_range.
Qed.

(** The byte-level round trip used by [encrypt] and [decrypt]. *)
Corollary atob_btoa_bytes (bs : bytes) :
  exists t, btoa (fromCharCode bs) = Ok t /\
            atob t = Ok (fromCharCode bs).
Proof.
  exists (encode (fromCharCode bs)). split.
  - apply btoa_octets, octets_fromCharCode.
  - apply atob_encode, octets_fromCharCode.
Qed.
End Base64Facts.

(** * Facts about UTF-8 *)

Module UTF8Facts.
Import UTF8.
Local Open Scope Z_scope.

Lemma run_decoder_lead d b bs :
  bytes_needed d = 0 ->
  run_decoder d (b :: bs)
  = fst (lead_byte (Z_of_byte b)) ++ run_decoder (snd (lead_byte (Z_of_byte b))) bs.
Proof.
  intros Hd. cbn [run_decoder]. rewrite Hd. cbn [Z.eqb].
  destruct (lead_byte (Z_of_byte b)); reflexivity.
Qed.

Lemma run_decoder_continue d b bs :
  bytes_needed d <> 0 ->
  lower_boundary d <= Z_of_byte b <= upper_boundary d ->
  run_decoder d (b :: bs)
  = if bytes_seen d + 1 =? bytes_needed d
    then (code_point d * 64 + Z_of_byte b mod 64) :: run_decoder fresh bs
    else run_decoder {| code_point := code_point d * 64 + Z_of_byte b mod 64;
                        bytes_seen := bytes_seen d + 1;
                        bytes_needed := bytes_needed d;
                        lower_boundary := 0x80; upper_boundary := 0xBF |} bs.
Proof.
  intros Hd Hb. cbn [run_decoder].
  destruct (bytes_needed d =? 0) eqn:E; [lia|].
  destruct ((Z_of_byte b <? lower_boundary d) || (upper_boundary d <? Z_of_byte b)) eqn:E'; [lia|].
  reflexivity.
Qed.

Lemma run_decoder_last d b bs :
  bytes_needed d <> 0 /\ bytes_seen d + 1 = bytes_needed d /\
  lower_boundary d <= Z_of_byte b <= upper_boundary d ->
  run_decoder d (b :: bs) = (code_point d * 64 + Z_of_byte b mod 64) :: run_decoder fresh bs.
Proof.
  intros (Hd & Hn & Hb). rewrite run_decoder_continue by assumption.
  destruct (bytes_seen d + 1 =? bytes_needed d) eqn:E; [reflexivity | lia].
Qed.

Lemma run_decoder_more d b bs :
  bytes_needed d <> 0 /\ bytes_seen d + 1 <> bytes_needed d /\
  lower_boundary d <= Z_of_byte b <= upper_boundary d ->
  run_decoder d (b :: bs)
  = run_decoder {| code_point := code_point d * 64 + Z_of_byte b mod 64;
                   bytes_seen := bytes_seen d + 1;
                   bytes_needed := bytes_needed d;
                   lower_boundary := 0x80; upper_boundary := 0xBF |} bs.
Proof.
  intros (Hd & Hn & Hb). rewrite run_decoder_continue by assumption.
  destruct (bytes_seen d + 1 =? bytes_needed d) eqn:E; [lia | reflexivity].
Qed.

Ltac arith := cbn [bytes_needed lower_boundary upper_boundary bytes_seen code_point];
  case_ifs; Z.div_mod_to_equations; lia.

(** One decoding step along the bytes of an encoded scalar value. *)
Ltac decoder_step :=
  first
    [ rewrite run_decoder_lead by reflexivity;
      rewrite Z_of_byte_of_Z by arith;
      unfold lead_byte at 1 2; case_ifs; try (exfalso; arith); cbn [fst snd app]
    | rewrite run_decoder_last
        by (cbn [bytes_needed lower_boundary upper_boundary bytes_seen];
            rewrite ?Z_of_byte_of_Z by arith; arith);
      cbn [code_point]; rewrite ?Z_of_byte_of_Z by arith
    | rewrite run_decoder_more
        by (cbn [bytes_needed lower_boundary upper_boundary bytes_seen];
            rewrite ?Z_of_byte_of_Z by arith; arith);
      cbn [bytes_needed bytes_seen code_point]; rewrite ?Z_of_byte_of_Z by arith ].

Lemma decode_encode_scalar c rest :
  scalar c ->
  run_decoder fresh (encode_scalar c ++ rest) = c :: run_decoder fresh rest.
Proof.
  intros [Hr Hs]. unfold encode_scalar.
  destruct (c <? 0x80) eqn:E1; [|destruct (c <? 0x800) eqn:E2; [|destruct (c <? 0x10000) eqn:E3]];
    cbn [app].
  - decoder_step. reflexivity.
  - do 2 decoder_step; f_equal; arith.
  - do 3 decoder_step; f_equal; arith.
  - do 4 decoder_step; f_equal; arith.
Qed.

Lemma run_decoder_encode cs :
  Forall scalar cs -> run_decoder fresh (flat_map encode_scalar cs) = cs.
Proof.
  induction 1 as [|c cs Hc _ IH]; [reflexivity|].
  cbn [flat_map]. now rewrite decode_encode_scalar, IH.
Qed.

(** Induction over a well-formed string: a unit that is no surrogate, or a
    surrogate pair, at a time. *)
Lemma well_formed_ind (P : jsstring -> Prop) :
  P [] ->
  (forall c s, is_lead c = false -> is_trail c = false -> 0 <= c < 0x10000 ->
               isWellFormed s = true -> P s -> P (c :: s)) ->
  (forall c d s, is_lead c = true -> is_trail d = true ->
                 isWellFormed s = true -> P s -> P (c :: d :: s)) ->
  forall s, isWellFormed s = true -> P s.
Proof.
  intros H0 H1 H2. fix IH 1. intros [|c s].
  - intros _. exact H0.
  - cbn [isWellFormed]. destruct (is_lead c) eqn:Ec.
    + destruct s as [|d s]; [discriminate|].
      intros H. apply andb_true_iff in H as [Hd Hs].
      apply H2; [assumption..|]. apply IH, Hs.
    + intros H. apply andb_true_iff in H as [H Hs].
      apply H1; [assumption|lia|lia|assumption|]. apply IH, Hs.
Qed.

Lemma scalars_of_well_formed s :
  isWellFormed s = true ->
  Forall scalar (scalars_of s) /\ code_units_of (scalars_of s) = s.
Proof.
  revert s. apply well_formed_ind.
  - split; [constructor | reflexivity].
  - intros c s Hl Ht Hc Hs [IH1 IH2]. cbn [scalars_of]. rewrite Hl, Ht. split.
    + constructor; [|assumption]. unfold scalar, is_lead, is_trail in *. lia.
    + unfold code_units_of in *. cbn [flat_map]. rewrite IH2.
      unfold code_units_of_scalar. destruct (c <? 0x10000) eqn:E; [reflexivity|lia].
  - intros c d s Hl Ht Hs [IH1 IH2].
    cbn [scalars_of]. rewrite Hl, Ht. unfold is_lead, is_trail in *. split.
    + constructor; [|assumption]. unfold scalar. lia.
    + unfold code_units_of in *. cbn [flat_map]. rewrite IH2.
      unfold code_units_of_scalar. case_ifs; [lia|]. cbn [app].
      f_equal; [|f_equal]; Z.div_mod_to_equations; lia.
Qed.

Lemma strip_bom_scalars_of c s :
  c <> BOM -> strip_bom (scalars_of (c :: s)) = scalars_of (c :: s).
Proof.
  intros Hc. cbn [scalars_of]. unfold BOM, replacement, is_lead, is_trail in *.
  destruct ((55296 <=? c) && (c <=? 56319)) eqn:El.
  - destruct s as [|d s]; [reflexivity|].
    destruct ((56320 <=? d) && (d <=? 57343)) eqn:Et; unfold strip_bom, BOM;
      case_ifs; try reflexivity; lia.
  - unfold strip_bom, BOM; case_ifs; try reflexivity; lia.
Qed.

Theorem decode_encode s : preserved_text s -> decode (encode s) = s.
Proof.
  intros [Hwf Hbom]. unfold decode, encode.
  destruct (scalars_of_well_formed s Hwf) as [Hsc Hcu].
  rewrite run_decoder_encode by assumption.
  destruct s as [|c s]; [reflexivity|].
  rewrite strip_bom_scalars_of by exact Hbom. exact Hcu.
Qed.

(** A leading byte order mark is lost. *)
Lemma decode_encode_bom : decode (encode [BOM]) = [].
Proof. vm_compute. reflexivity. Qed.
End UTF8Facts.

(** * The small instance meets the laws *)

Module ToyFacts.
Import Toy.

Lemma length_pad_to n bs : length (pad_to n bs) = n.
Proof.
  unfold pad_to. rewrite length_take, length_app, repeat_length. lia.
Qed.

Lemma unseal_seal key iv plaintext : unseal key iv (seal key iv plaintext) = Some plaintext.
Proof.
  unfold unseal, seal. rewrite rev_append_rev, <-rev_alt.
  assert (Hlen : (length (rev plaintext ++ tag key) - 16 = length (rev plaintext))%nat).
  { rewrite length_app. unfold tag. rewrite length_pad_to. lia. }
  rewrite Hlen, drop_app_length, take_app_length, rev_involutive.
  destruct (decide _) as [_|Hn]; [reflexivity|].
  exfalso. apply Hn. split; [|reflexivity].
  rewrite length_app. unfold tag. rewrite length_pad_to. lia.
Qed.

Lemma crypto_correct : aead_correct crypto.
Proof. intros key iv plaintext. apply unseal_seal. Qed.


Lemma strict_correct : aead_correct strict.
Proof.
  intros key iv plaintext. cbn. unfold strict_unseal, strict_seal.
  rewrite app_assoc, take_app_length, drop_app_length.
  destruct (decide _); [reflexivity | congruence].
Qed.




Lemma number_digits p : number (digits p) = Some p.
Proof. induction p as [p IH|p IH|]; cbn; rewrite ?IH; reflexivity. Qed.

Lemma digits_well_formed p : UTF8.isWellFormed (digits p) = true.
Proof. induction p as [p IH|p IH|]; cbn [digits]; [..|reflexivity]; exact IH. Qed.

Lemma json_of_code_correct {A} (code : list A -> positive) uncode :
  (forall l, uncode (code l) = Some l) -> json_correct (json_of_code code uncode).
Proof.
  intros Hc l. cbn. rewrite number_digits, Hc. repeat split.
  apply digits_well_formed.
Qed.

Lemma field_opt_field o : field_opt (opt_field o) = Some o.
Proof. now destruct o. Qed.

Lemma fields_entry_fields e : fields_entry (entry_fields e) = Some e.
Proof.
  destruct e. unfold entry_fields, fields_entry. cbn [id title username password url
    category_id tags notes strength_score last_used created_at updated_at].
  now rewrite !field_opt_field.
Qed.

Lemma fields_category_fields c : fields_category (category_fields c) = Some c.
Proof. now destruct c. Qed.

Lemma traverse_map {A B} (f : B -> option A) (g : A -> B) l :
  (forall a, f (g a) = Some a) -> traverse f (map g l) = Some l.
Proof.
  intros H. induction l as [|a l IH]; [reflexivity|].
  cbn [map traverse]. now rewrite H, IH.
Qed.

Lemma json_entries_correct : json_correct json_entries.
Proof.
  apply json_of_code_correct. intros l. unfold entries_uncode, entries_code.
  rewrite decode_encode. apply traverse_map, fields_entry_fields.
Qed.

Lemma json_categories_correct : json_correct json_categories.
Proof.
  apply json_of_code_correct. intros l. unfold categories_uncode, categories_code.
  rewrite decode_encode. apply traverse_map, fields_category_fields.
Qed.
End ToyFacts.

(** * Facts about EncryptionService *)

Module EncryptionFacts.
Import EncryptionService.
Section with_crypto.
Context {wc : WebCrypto}.

Lemma length_next_salt w : length (next_salt w) = 16%nat.
Proof. unfold next_salt. now rewrite length_map, length_seq. Qed.

Lemma length_next_nonce w : length (next_nonce w) = 12%nat.
Proof. unfold next_nonce. now rewrite length_map, length_seq. Qed.

(** [encrypt] draws 28 bytes; it returns the token when the bytes it put
    together fit in one call, and rejects with the [RangeError] of the
    spread when they do not. *)
Lemma encrypt_run plaintext password w :
  encrypt plaintext password w
  = (if fits plaintext password w
     then Ok (token_of plaintext password (next_salt w) (next_nonce w))
     else Throw (RangeError w),
     with_drawn (drawn w + 28) w).
Proof.
  unfold encrypt, bind, getRandomValues, deriveKey, ret, lift, fromCharCode_spread, fits.
  cbn [drawn with_drawn entropy max_arguments].
  fold (next_salt w). fold (next_nonce w). unfold sealed.
  assert (Hw : with_drawn (drawn w + 16 + 12) (with_drawn (drawn w + 16) w)
               = with_drawn (drawn w + 28) w).
  { unfold with_drawn. cbn. f_equal. lia. }
  destruct (_ <=? _)%N.
  - rewrite Base64Facts.btoa_octets by apply Base64Facts.octets_fromCharCode.
    unfold token_of, sealed. now rewrite Hw.
  - unfold RangeError. cbn [too_many_arguments with_drawn]. now rewrite Hw.
Qed.

Lemma encrypt_fits plaintext password w :
  fits plaintext password w = true ->
  encrypt plaintext password w
  = (Ok (token_of plaintext password (next_salt w) (next_nonce w)),
     with_drawn (drawn w + 28) w).
Proof. intros H. now rewrite encrypt_run, H. Qed.

(** Whether a text fits depends on the bytes to be drawn and on the engine. *)
Lemma fits_frame plaintext password w w' :
  entropy w' = entropy w -> drawn w' = drawn w -> max_arguments w' = max_arguments w ->
  fits plaintext password w' = fits plaintext password w.
Proof.
  intros He Hd Hm. unfold fits, next_salt, next_nonce. now rewrite He, Hd, Hm.
Qed.

(** [decrypt] leaves the environment alone and has one way to fail. *)
Lemma decrypt_run ciphertext password w :
  decrypt ciphertext password w
  = (match Base64.atob ciphertext with
     | Ok decoded => open_token (charCodes decoded) password
     | Throw _ => Throw DECRYPTION_FAILED
     end, w).
Proof.
  unfold decrypt, try_catch, bind, lift, deriveKey, ret, throw, open_token.
  destruct (Base64.atob ciphertext) as [decoded|e]; [|reflexivity].
  destruct (aes_gcm_decrypt _ _ _); reflexivity.
Qed.

Lemma atob_token plaintext password salt nonce :
  Base64.atob (token_of plaintext password salt nonce)
  = Ok (fromCharCode (salt ++ nonce ++ sealed plaintext password salt nonce)).
Proof. apply Base64Facts.atob_encode, Base64Facts.octets_fromCharCode. Qed.

Lemma split_token (salt nonce rest : bytes) :
  length salt = 16%nat -> length nonce = 12%nat ->
  slice 0 16 (salt ++ nonce ++ rest) = salt /\
  slice 16 28 (salt ++ nonce ++ rest) = nonce /\
  slice_from 28 (salt ++ nonce ++ rest) = rest.
Proof.
  intros Hs Hn. unfold slice, slice_from. change (16 - 0)%nat with 16%nat.
  change (28 - 16)%nat with 12%nat. cbn [skipn]. repeat split.
  - now apply take_app_length'.
  - rewrite (drop_app_length' salt) by (symmetry; exact Hs).
    now apply take_app_length'.
  - rewrite app_assoc. apply drop_app_length'. rewrite length_app. lia.
Qed.

(** Opening a token of [encrypt]: the key is derived again from the salt
    at offset 0, and the nonce at offset 16 and the sealed bytes at offset 28
    are those of the encryption. *)
Lemma decrypt_token plaintext password password' salt nonce w :
  length salt = 16%nat -> length nonce = 12%nat ->
  decrypt (token_of plaintext password salt nonce) password' w
  = (match aes_gcm_decrypt
             (pbkdf2_sha256 (UTF8.encode password') salt PBKDF2_ITERATIONS) nonce
             (sealed plaintext password salt nonce) with
     | Some decryptedData => Ok (UTF8.decode decryptedData)
     | None => Throw DECRYPTION_FAILED
     end, w).
Proof.
  intros Hs Hn. rewrite decrypt_run, atob_token, charCodes_fromCharCode.
  unfold open_token.
  destruct (split_token salt nonce (sealed plaintext password salt nonce) Hs Hn)
    as (-> & -> & ->).
  reflexivity.
Qed.

Lemma decrypt_encrypt plaintext password w :
  aead_correct wc -> UTF8.preserved_text plaintext ->
  decrypt (token_of plaintext password (next_salt w) (next_nonce w)) password
          (with_drawn (drawn w + 28) w)
  = (Ok plaintext, with_drawn (drawn w + 28) w).
Proof.
  intros Hwc Hp.
  rewrite decrypt_token by (apply length_next_salt || apply length_next_nonce).
  unfold sealed. rewrite Hwc, UTF8Facts.decode_encode by assumption. reflexivity.
Qed.

End with_crypto.
End EncryptionFacts.

(** * Theorems about EncryptionService *)

Module EncryptionTheorems.
Import EncryptionService EncryptionFacts.

Lemma token_of_inj {wc : WebCrypto} P S salt1 nonce1 salt2 nonce2 :
  length salt1 = 16%nat -> length nonce1 = 12%nat ->
  length salt2 = 16%nat -> length nonce2 = 12%nat ->
  token_of P S salt1 nonce1 = token_of P S salt2 nonce2 ->
  salt1 = salt2 /\ nonce1 = nonce2.
Proof.
  intros Hs1 Hn1 Hs2 Hn2 Ht.
  assert (Hb : salt1 ++ nonce1 ++ sealed P S salt1 nonce1
               = salt2 ++ nonce2 ++ sealed P S salt2 nonce2).
  { rewrite <-(charCodes_fromCharCode (salt1 ++ _)), <-(charCodes_fromCharCode (salt2 ++ _)).
    f_equal. pose proof (atob_token P S salt1 nonce1) as H1.
    pose proof (atob_token P S salt2 nonce2) as H2. rewrite Ht in H1. congruence. }
  apply app_inj_1 in Hb as [-> Hb]; [|congruence].
  apply app_inj_1 in Hb as [-> _]; [|congruence]. auto.
Qed.

(** The text after a leading byte order mark comes back without it. *)
Lemma decode_encode_after_bom s :
  UTF8.isWellFormed s = true -> UTF8.decode (UTF8.encode (UTF8.BOM :: s)) = s.
Proof.
  intros Hwf. unfold UTF8.decode, UTF8.encode.
  destruct (UTF8Facts.scalars_of_well_formed s Hwf) as [Hsc Hcu].
  change (UTF8.scalars_of (UTF8.BOM :: s)) with (UTF8.BOM :: UTF8.scalars_of s).
  rewrite UTF8Facts.run_decoder_encode.
  - exact Hcu.
  - constructor; [|assumption]. unfold UTF8.scalar, UTF8.BOM. lia.
Qed.

(** Under any lawful AES-GCM the text after a leading byte order mark is
    what [decrypt] returns. *)
Lemma decrypt_encrypt_after_bom {wc : WebCrypto} plaintext password w w' :
  aead_correct wc -> UTF8.isWellFormed plaintext = true ->
  decrypt (token_of (UTF8.BOM :: plaintext) password (next_salt w) (next_nonce w))
          password w'
  = (Ok plaintext, w').
Proof.
  intros Hwc Hp.
  rewrite decrypt_token by (apply length_next_salt || apply length_next_nonce).
  unfold sealed. rewrite Hwc, decode_encode_after_bom by assumption. reflexivity.
Qed.

(** C1 (as amended).  A plaintext that is well formed (no unpaired
    surrogate), does not start with U+FEFF and whose salt, nonce and sealed
    bytes fit in one call comes back from [decrypt (encrypt P S) S], for
    every secret [S] of at least 8 code units and whatever random bytes
    [encrypt] draws. *)
Theorem encrypt_decrypt_roundtrip (wc : WebCrypto) (P S : jsstring) (w : World) :
  aead_correct wc -> UTF8.preserved_text P -> (8 <= length S)%nat ->
  fits P S w = true ->
  exists token w',
    encrypt P S w = (Ok token, w') /\ decrypt token S w' = (Ok P, w').
Proof.
  intros Hwc HP _ Hfits. eexists _, _. split.
  - now apply encrypt_fits.
  - now apply decrypt_encrypt.
Qed.

Lemma encrypt_decrypt_roundtrip_witness :
  exists token w',
    @encrypt Toy.crypto (js "hunter2") (js "longpass1") Toy.world = (Ok token, w') /\
    @decrypt Toy.crypto token (js "longpass1") w' = (Ok (js "hunter2"), w').
Proof.
  apply (encrypt_decrypt_roundtrip Toy.crypto).
  - exact ToyFacts.crypto_correct.
  - split; [reflexivity | vm_compute; discriminate].
  - vm_compute. lia.
  - vm_compute. reflexivity.
Defined.

(** C1, the claim as stated fails: a leading U+FEFF is dropped by
    [TextDecoder], an unpaired surrogate comes back as U+FFFD, and a
    plaintext of 65536 letters, on an engine that takes 65536 arguments, is
    not encrypted at all: the spread of its 65580 bytes is refused. *)
Lemma roundtrip_loses_bom_and_lone_surrogates :
  (exists token w',
     @encrypt Toy.crypto (0xFEFF%Z :: js "hunter2") (js "longpass1") Toy.world
     = (Ok token, w') /\
     @decrypt Toy.crypto token (js "longpass1") w' = (Ok (js "hunter2"), w') /\
     js "hunter2" <> 0xFEFF%Z :: js "hunter2") /\
  (exists token w',
     @encrypt Toy.crypto [0xD83D%Z] (js "longpass1") Toy.world = (Ok token, w') /\
     @decrypt Toy.crypto token (js "longpass1") w' = (Ok [0xFFFD%Z], w') /\
     [0xFFFD%Z] <> [0xD83D%Z]) /\
  (exists w',
     max_arguments Toy.world = 65536%N /\
     @encrypt Toy.crypto (repeat 97%Z (N.to_nat 65536)) (js "longpass1") Toy.world
     = (Throw (RangeError Toy.world), w')).
Proof.
  split; [|split]; [eexists _, _; (split; [apply encrypt_fits; vm_compute; reflexivity|]);
                    (split; [|discriminate])..|].
  - apply decrypt_encrypt_after_bom; [exact ToyFacts.crypto_correct | reflexivity].
  - rewrite decrypt_token by (apply length_next_salt || apply length_next_nonce).
    unfold sealed. rewrite ToyFacts.crypto_correct. reflexivity.
  - eexists. split; [reflexivity|]. rewrite encrypt_run.
    assert (Hfits : @fits Toy.crypto (repeat 97%Z (N.to_nat 65536)) (js "longpass1") Toy.world = false)
      by (vm_compute; reflexivity).
    rewrite Hfits. reflexivity.
Qed.

(** A line feed added to a token is skipped by [atob]: the token opens as before. *)
Lemma decrypt_ignores_whitespace {wc : WebCrypto} token S w :
  decrypt (token ++ [10%Z]) S w = decrypt token S w.
Proof.
  rewrite !decrypt_run. unfold Base64.atob, Base64.remove_whitespace.
  rewrite List.filter_app. cbn [List.filter Base64.is_ascii_whitespace Z.eqb Pos.eqb orb negb].
  now rewrite app_nil_r.
Qed.

Lemma decrypt_outcome {wc : WebCrypto} ciphertext S w :
  decrypt ciphertext S w = (Throw DECRYPTION_FAILED, w) \/
  exists plaintext, decrypt ciphertext S w = (Ok plaintext, w).
Proof.
  rewrite decrypt_run. destruct (Base64.atob ciphertext) as [decoded|e]; [|now left].
  unfold open_token. destruct (aes_gcm_decrypt _ _ _); [right; eauto | now left].
Qed.





(** C3.  The token of [encrypt] is the base64 text of salt (16 bytes), nonce
    (12 bytes) and the sealed bytes, in this order; [decrypt] cuts the decoded
    bytes of any token at 16 and 28, and on a token of [encrypt] thereby
    recovers the salt, the nonce and the sealed bytes before it derives the
    key from that salt. *)
Theorem token_layout (wc : WebCrypto) (P S S' ciphertext : jsstring) (w w' : World) :
  let salt := next_salt w in
  let nonce := next_nonce w in
  let combined := salt ++ nonce ++ sealed P S salt nonce in
  exists token,
    encrypt P S w
    = (if fits P S w then Ok token else Throw (RangeError w),
       with_drawn (drawn w + 28) w) /\
    length salt = 16%nat /\ length nonce = 12%nat /\
    Base64.btoa (fromCharCode combined) = Ok token /\
    Base64.atob token = Ok (fromCharCode combined) /\
    slice 0 16 (charCodes (fromCharCode combined)) = salt /\
    slice 16 28 (charCodes (fromCharCode combined)) = nonce /\
    slice_from 28 (charCodes (fromCharCode combined)) = sealed P S salt nonce /\
    decrypt token S' w'
    = (match aes_gcm_decrypt (pbkdf2_sha256 (UTF8.encode S') salt PBKDF2_ITERATIONS)
                             nonce (sealed P S salt nonce) with
       | Some decryptedData => Ok (UTF8.decode decryptedData)
       | None => Throw DECRYPTION_FAILED
       end, w') /\
    decrypt ciphertext S' w'
    = (match Base64.atob ciphertext with
       | Ok decoded =>
           match aes_gcm_decrypt
                   (pbkdf2_sha256 (UTF8.encode S') (slice 0 16 (charCodes decoded))
                                  PBKDF2_ITERATIONS)
                   (slice 16 28 (charCodes decoded))
                   (slice_from 28 (charCodes decoded)) with
           | Some decryptedData => Ok (UTF8.decode decryptedData)
           | None => Throw DECRYPTION_FAILED
           end
       | Throw _ => Throw DECRYPTION_FAILED
       end, w').
Proof.
  cbv zeta. exists (token_of P S (next_salt w) (next_nonce w)).
  pose proof (length_next_salt w) as Hs. pose proof (length_next_nonce w) as Hn.
  destruct (split_token (next_salt w) (next_nonce w)
              (sealed P S (next_salt w) (next_nonce w)) Hs Hn) as (E1 & E2 & E3).
  rewrite charCodes_fromCharCode.
  repeat split; try assumption.
  - apply encrypt_run.
  - apply Base64Facts.btoa_octets, Base64Facts.octets_fromCharCode.
  - apply atob_token.
  - now apply decrypt_token.
  - apply decrypt_run.
Qed.

(** C4.  Every [encrypt] takes the next 16 bytes of the random source as
    salt and the 12 after them as nonce and moves the source 28 bytes on, so
    no byte is drawn twice; two encryptions of one plaintext under one
    secret give the same token only if they drew the same salt and nonce. *)
Theorem fresh_salt_and_nonce (wc : WebCrypto) (P S : jsstring) (w1 w2 : World) :
  exists t1 t2 w1' w2',
    encrypt P S w1 = (if fits P S w1 then Ok t1 else Throw (RangeError w1), w1') /\
    encrypt P S w2 = (if fits P S w2 then Ok t2 else Throw (RangeError w2), w2') /\
    t1 = token_of P S (next_salt w1) (next_nonce w1) /\
    next_salt w1 = map (entropy w1) (seq (drawn w1) 16) /\
    next_nonce w1 = map (entropy w1) (seq (drawn w1 + 16) 12) /\
    entropy w1' = entropy w1 /\ drawn w1' = (drawn w1 + 28)%nat /\
    next_salt w1' = map (entropy w1) (seq (drawn w1 + 28) 16) /\
    (t1 = t2 <-> next_salt w1 = next_salt w2 /\ next_nonce w1 = next_nonce w2).
Proof.
  eexists _, _, _, _. split; [apply encrypt_run|]. split; [apply encrypt_run|].
  do 6 (split; [reflexivity|]). split.
  - intros Ht. apply token_of_inj in Ht;
      [assumption|apply length_next_salt || apply length_next_nonce..].
  - intros [-> ->]. reflexivity.
Qed.

(** C6 (as amended).  Key derivation has no minimum length: [deriveKey]
    resolves with the PBKDF2 key of any secret, whatever its length;
    [encrypt] seals under that key (whether it resolves depends on the size
    of the plaintext only, not on the secret), and [decrypt] opens the token
    with the same secret. *)
Theorem key_derivation_has_no_minimum_length
    (wc : WebCrypto) (P S : jsstring) (salt : bytes) (w : World) :
  aead_correct wc -> UTF8.preserved_text P ->
  deriveKey S salt w = (Ok (pbkdf2_sha256 (UTF8.encode S) salt 100000), w) /\
  exists token,
    token
    = Base64.encode
        (fromCharCode
           (next_salt w ++ next_nonce w
            ++ aes_gcm_encrypt (pbkdf2_sha256 (UTF8.encode S) (next_salt w) 100000)
                               (next_nonce w) (UTF8.encode P))) /\
    encrypt P S w
    = (if fits P S w then Ok token else Throw (RangeError w),
       with_drawn (drawn w + 28) w) /\
    forall w', decrypt token S w' = (Ok P, w').
Proof.
  intros Hwc HP. split; [reflexivity|].
  exists (token_of P S (next_salt w) (next_nonce w)).
  split; [reflexivity|]. split; [apply encrypt_run|].
  intros w'. rewrite decrypt_token by (apply length_next_salt || apply length_next_nonce).
  unfold sealed. rewrite Hwc, UTF8Facts.decode_encode by assumption. reflexivity.
Qed.

Lemma key_derivation_has_no_minimum_length_witness :
  @deriveKey Toy.crypto (js "short") (next_salt Toy.world) Toy.world
  = (Ok (Toy.kdf (UTF8.encode (js "short")) (next_salt Toy.world) 100000), Toy.world) /\
  exists token w',
    @encrypt Toy.crypto (js "hunter2") (js "short") Toy.world = (Ok token, w') /\
    @decrypt Toy.crypto token (js "short") w' = (Ok (js "hunter2"), w').
Proof.
  destruct (key_derivation_has_no_minimum_length Toy.crypto (js "hunter2") (js "short")
              (next_salt Toy.world) Toy.world ToyFacts.crypto_correct)
    as (Hkey & token & _ & Henc & Hdec).
  - split; [reflexivity | vm_compute; discriminate].
  - split; [exact Hkey|]. eexists _, _. split; [exact Henc | apply Hdec].
Defined.

(** C6, the claim as stated fails: a secret of five characters is not
    rejected; a key is derived from it and a token is sealed under it. *)
Lemma short_secret_derives_a_key :
  (length (js "short") < 8)%nat /\
  (exists key,
     @deriveKey Toy.crypto (js "short") (next_salt Toy.world) Toy.world
     = (Ok key, Toy.world)) /\
  (exists token w',
     @encrypt Toy.crypto (js "hunter2") (js "short") Toy.world = (Ok token, w')).
Proof.
  split; [vm_compute; lia|]. split.
  - eexists. reflexivity.
  - eexists _, _. apply encrypt_fits. vm_compute. reflexivity.
Qed.
End EncryptionTheorems.

(** * Facts about LocalStorageService *)

Module StorageFacts.
Import EncryptionService EncryptionFacts LocalStorageService.
Section with_platform.
Context {wc : WebCrypto} {je : JSON (list PasswordEntry)} {jc : JSON (list Category)}.

(** Loading reads storage only: a successful load leaves the environment
    as it was, a failed one adds a line to the console. *)
Lemma getEntries_world pw w :
  (exists es, getEntries pw w = (Ok es, w)) \/
  (exists e, getEntries pw w
             = (Throw (Error "Invalid master password"),
                with_console (console w ++ [("Failed to decrypt entries:"%string, e)]) w)).
Proof.
  unfold getEntries, bind, getItem.
  destruct (localStorage w !! ENTRIES_KEY) as [[|c t]|]; [left; eexists; reflexivity| |left; eexists; reflexivity].
  unfold try_catch, bind. rewrite decrypt_run.
  destruct (Base64.atob (c :: t)) as [decoded|e].
  - destruct (open_token (charCodes decoded) pw) as [decrypted|e].
    + unfold lift. destruct (parse decrypted) as [es|e]; [left; eauto|right; eexists; reflexivity].
    + right; eexists; reflexivity.
  - right; eexists; reflexivity.
Qed.

(** What a load returns depends on storage alone. *)
Lemma getEntries_storage pw w1 w2 :
  localStorage w1 = localStorage w2 ->
  fst (getEntries pw w1) = fst (getEntries pw w2).
Proof.
  intros Hs. unfold getEntries, bind, getItem. rewrite Hs.
  destruct (localStorage w2 !! ENTRIES_KEY) as [[|c t]|]; try reflexivity.
  unfold try_catch, bind. rewrite !decrypt_run.
  destruct (Base64.atob (c :: t)) as [decoded|e]; [|reflexivity].
  destruct (open_token (charCodes decoded) pw) as [decrypted|e]; [|reflexivity].
  unfold lift. destruct (parse decrypted); reflexivity.
Qed.

Lemma getEntries_ok_frame pw w1 w2 es :
  localStorage w1 = localStorage w2 ->
  getEntries pw w1 = (Ok es, w1) -> getEntries pw w2 = (Ok es, w2).
Proof.
  intros Hs H1. pose proof (getEntries_storage pw w1 w2 Hs) as Hf.
  destruct (getEntries_world pw w2) as [[es' H2]|[e H2]];
    rewrite H1, H2 in Hf; cbn [fst] in Hf.
  - congruence.
  - discriminate.
Qed.

Lemma token_nonempty P S w :
  exists c t, token_of P S (next_salt w) (next_nonce w) = c :: t.
Proof.
  unfold token_of, next_salt. cbn [seq map app fromCharCode Base64.encode]. eauto.
Qed.

(** A collection whose blob does not fit in one call is not saved: the
    save rejects with the [RangeError] of the spread and storage is as it
    was. *)
Lemma saveEntries_too_large es pw w :
  fits (stringify es) pw w = false ->
  saveEntries es pw w = (Throw (RangeError w), with_drawn (drawn w + 28) w).
Proof.
  intros H. unfold saveEntries, bind. now rewrite encrypt_run, H.
Qed.

(** Saving and loading again gives the saved collection. *)
Lemma saveEntries_getEntries es pw w :
  aead_correct wc -> json_correct je -> fits (stringify es) pw w = true ->
  exists token w',
    saveEntries es pw w = (Ok tt, w') /\
    w' = with_localStorage (insert ENTRIES_KEY token) (with_drawn (drawn w + 28) w) /\
    decrypt token pw w' = (Ok (stringify es), w') /\
    getEntries pw w' = (Ok es, w').
Proof.
  intros Hwc Hje Hfits. destruct (Hje es) as (Hparse & Hhd & Hwf).
  assert (Htext : UTF8.preserved_text (stringify es)).
  { split; [exact Hwf|]. rewrite Hhd. unfold UTF8.BOM. lia. }
  exists (token_of (stringify es) pw (next_salt w) (next_nonce w)). eexists.
  unfold saveEntries, bind. rewrite encrypt_fits by exact Hfits. unfold setItem.
  split; [reflexivity|]. split; [reflexivity|].
  assert (Hdec : forall w0, decrypt (token_of (stringify es) pw (next_salt w) (next_nonce w)) pw w0
                            = (Ok (stringify es), w0)).
  { intros w0. rewrite decrypt_token by (apply length_next_salt || apply length_next_nonce).
    unfold sealed. rewrite Hwc, UTF8Facts.decode_encode by assumption. reflexivity. }
  split; [apply Hdec|].
  unfold getEntries, bind, getItem. cbn [localStorage with_localStorage with_drawn].
  rewrite lookup_insert_eq.
  destruct (token_nonempty (stringify es) pw w) as (c & t & Ht). rewrite Ht.
  unfold try_catch, bind. rewrite <-Ht, Hdec. unfold lift. rewrite Hparse. reflexivity.
Qed.

End with_platform.
End StorageFacts.

(** * Theorems about LocalDataSource *)

Module DataSourceTheorems.
Import EncryptionService EncryptionFacts LocalStorageService StorageFacts.

Section with_platform.
Context {wc : WebCrypto} {je : JSON (list PasswordEntry)} {jc : JSON (list Category)}.

(** The callback of [updateEntry] never rejects and only reads the clock. *)
Lemma mapM_update i patch (l : list PasswordEntry) w :
  exists l' w',
    mapM (fun e => if bool_decide (id e = i)
                   then (u <- now ;; ret (touch (spread e patch) u))
                   else ret e) l w = (Ok l', w') /\
    localStorage w' = localStorage w /\
    Forall2 (fun e e' => if bool_decide (id e = i)
                         then exists u, e' = touch (spread e patch) u
                         else e' = e) l l'.
Proof.
  revert w. induction l as [|e l IH]; intros w.
  - exists [], w. repeat split. constructor.
  - cbn [mapM]. destruct (bool_decide (id e = i)) eqn:E.
    + destruct (IH (with_ticks (S (ticks w)) w)) as (l' & w' & Hm & Hs & HF).
      exists (touch (spread e patch) (clock w (ticks w)) :: l'), w'.
      split; [|split].
      * unfold bind at 1. unfold bind at 1. unfold now at 1. unfold ret at 1.
        unfold bind at 1. rewrite Hm. reflexivity.
      * exact Hs.
      * constructor; [rewrite E; eauto | exact HF].
    + destruct (IH w) as (l' & w' & Hm & Hs & HF).
      exists (e :: l'), w'. split; [|split].
      * unfold bind at 1. unfold ret at 1. unfold bind at 1. rewrite Hm. reflexivity.
      * exact Hs.
      * constructor; [rewrite E; reflexivity | exact HF].
Qed.

(** The same callback in detail: the clock is read once for each entry
    with the id, the stamps are its readings from the present tick on, and
    nothing else of the environment changes. *)
Lemma mapM_update_clock i patch (l : list PasswordEntry) w :
  exists l' n,
    mapM (fun e => if bool_decide (id e = i)
                   then (u <- now ;; ret (touch (spread e patch) u))
                   else ret e) l w = (Ok l', with_ticks (ticks w + n) w) /\
    Forall2 (fun e e' => if bool_decide (id e = i)
                         then exists k, e' = touch (spread e patch) (clock w (ticks w + k))
                         else e' = e) l l'.
Proof.
  revert w. induction l as [|e l IH]; intros w.
  - exists [], 0. split; [|constructor]. cbn [mapM]. unfold ret.
    destruct w. unfold with_ticks. cbn. do 2 f_equal. lia.
  - cbn [mapM]. destruct (bool_decide (id e = i)) eqn:E.
    + destruct (IH (with_ticks (S (ticks w)) w)) as (l' & n & Hm & HF).
      exists (touch (spread e patch) (clock w (ticks w)) :: l'), (S n).
      split.
      * unfold bind at 1. unfold bind at 1. unfold now at 1. unfold ret at 1.
        unfold bind at 1. rewrite Hm. unfold ret, with_ticks. cbn. do 2 f_equal. lia.
      * constructor.
        -- rewrite E. exists 0. do 2 f_equal. lia.
        -- eapply Forall2_impl; [exact HF|]. intros x y. cbn.
           destruct (bool_decide (id x = i)); [|auto].
           intros [k ->]. exists (S k). do 2 f_equal. lia.
    + destruct (IH w) as (l' & n & Hm & HF).
      exists (e :: l'), n. split.
      * unfold bind at 1. unfold ret at 1. unfold bind at 1. rewrite Hm. reflexivity.
      * constructor; [rewrite E; reflexivity | exact HF].
Qed.

(** C8.  Every mutation of the local data source loads (opens and parses)
    the whole blob, changes the collection in memory and seals the whole new
    collection again.  The added entry has a fresh UUID, the fields of the
    input and two readings of the clock; an updated entry has the fields of
    the patch where the patch has them, its own elsewhere, and a reading of
    the clock as [updated_at], and every other entry is kept; a deleted id
    is filtered out.  When the new blob fits in one call it is written back
    as one token: storage changes at the key of the entries only, the token
    opens to the text of the whole new collection and a load returns that
    collection.  When it does not fit, the mutation rejects with the
    [RangeError] of the spread and storage is as it was.  On an empty vault
    an added entry is the only one loaded afterwards, with the secret that
    was given. *)
Theorem local_mutations_rewrite_whole_blob
    (masterPassword : jsstring) (existing : list PasswordEntry) (w : World) :
  aead_correct wc -> json_correct je ->
  LocalDataSource.loadEntries masterPassword w = (Ok existing, w) ->
  (forall entry, exists newEntry,
      id newEntry = format_uuid (uuid_bytes (map (entropy w) (seq (drawn w) 16))) /\
      title newEntry = in_title entry /\ username newEntry = in_username entry /\
      password newEntry = in_password entry /\ url newEntry = in_url entry /\
      category_id newEntry = in_category_id entry /\ tags newEntry = in_tags entry /\
      notes newEntry = in_notes entry /\
      strength_score newEntry = in_strength_score entry /\
      last_used newEntry = in_last_used entry /\
      created_at newEntry = clock w (ticks w) /\
      updated_at newEntry = clock w (S (ticks w)) /\
      if fits (stringify (newEntry :: existing)) masterPassword
              (with_drawn (drawn w + 16) w)
      then exists w',
             LocalDataSource.addEntry masterPassword entry w = (Ok newEntry, w') /\
             LocalDataSource.whole_blob_rewritten masterPassword w w' (newEntry :: existing)
      else exists w',
             LocalDataSource.addEntry masterPassword entry w
             = (Throw (RangeError w), w') /\
             localStorage w' = localStorage w) /\
  (forall i patch, exists updated,
      Forall2 (fun e e' =>
                 if bool_decide (id e = i)
                 then id e' = default (id e) (p_id patch) /\
                      title e' = default (title e) (p_title patch) /\
                      username e' = default (username e) (p_username patch) /\
                      password e' = default (password e) (p_password patch) /\
                      url e' = default (url e) (p_url patch) /\
                      category_id e' = default (category_id e) (p_category_id patch) /\
                      tags e' = default (tags e) (p_tags patch) /\
                      notes e' = default (notes e) (p_notes patch) /\
                      strength_score e'
                      = default (strength_score e) (p_strength_score patch) /\
                      last_used e' = default (last_used e) (p_last_used patch) /\
                      created_at e' = default (created_at e) (p_created_at patch) /\
                      exists k, updated_at e' = clock w (ticks w + k)
                 else e' = e) existing updated /\
      if fits (stringify updated) masterPassword w
      then exists w',
             LocalDataSource.updateEntry masterPassword i patch w = (Ok tt, w') /\
             LocalDataSource.whole_blob_rewritten masterPassword w w' updated
      else exists w',
             LocalDataSource.updateEntry masterPassword i patch w
             = (Throw (RangeError w), w') /\
             localStorage w' = localStorage w) /\
  (forall i,
      let updated := List.filter (fun e => negb (bool_decide (id e = i))) existing in
      if fits (stringify updated) masterPassword w
      then exists w',
             LocalDataSource.deleteEntry masterPassword i w = (Ok tt, w') /\
             LocalDataSource.whole_blob_rewritten masterPassword w w' updated
      else exists w',
             LocalDataSource.deleteEntry masterPassword i w
             = (Throw (RangeError w), w') /\
             localStorage w' = localStorage w) /\
  (localStorage w !! ENTRIES_KEY = None -> existing = [] /\
   forall entry newEntry w',
      LocalDataSource.addEntry masterPassword entry w = (Ok newEntry, w') ->
      LocalDataSource.loadEntries masterPassword w' = (Ok [newEntry], w') /\
      password newEntry = in_password entry).
Proof.
  intros Hwc Hje Hload. unfold LocalDataSource.loadEntries in Hload.
  assert (Hadd : forall entry,
      let newEntry := new_entry entry
           (format_uuid (uuid_bytes (map (entropy w) (seq (drawn w) 16))))
           (clock w (ticks w)) (clock w (S (ticks w))) in
      if fits (stringify (newEntry :: existing)) masterPassword
              (with_drawn (drawn w + 16) w)
      then exists w',
             LocalDataSource.addEntry masterPassword entry w = (Ok newEntry, w') /\
             LocalDataSource.whole_blob_rewritten masterPassword w w' (newEntry :: existing)
      else exists w',
             LocalDataSource.addEntry masterPassword entry w
             = (Throw (RangeError w), w') /\
             localStorage w' = localStorage w).
  { intros entry newEntry. unfold LocalDataSource.addEntry.
    set (w2 := with_ticks (S (S (ticks w))) (with_drawn (drawn w + 16) w)).
    rewrite <-(fits_frame _ _ _ w2) by reflexivity.
    destruct (fits (stringify (newEntry :: existing)) masterPassword w2) eqn:Hfits.
    - destruct (saveEntries_getEntries (newEntry :: existing) masterPassword w2
                  Hwc Hje Hfits) as (token & w' & Hsave & Hw' & Hdec & Hget).
      exists w'. split.
      + erewrite bind_ok by reflexivity. erewrite bind_ok by reflexivity.
        erewrite bind_ok by reflexivity.
        erewrite bind_ok
          by (unfold LocalDataSource.loadEntries;
              apply (getEntries_ok_frame masterPassword w w2 existing);
              [reflexivity|exact Hload]).
        erewrite bind_ok by exact Hsave. reflexivity.
      + exists token. split; [|split; [exact Hdec|exact Hget]].
        rewrite Hw'. reflexivity.
    - eexists. split.
      + erewrite bind_ok by reflexivity. erewrite bind_ok by reflexivity.
        erewrite bind_ok by reflexivity.
        erewrite bind_ok
          by (unfold LocalDataSource.loadEntries;
              apply (getEntries_ok_frame masterPassword w w2 existing);
              [reflexivity|exact Hload]).
        erewrite bind_throw by (apply saveEntries_too_large; exact Hfits).
        reflexivity.
      + reflexivity. }
  split; [|split; [|split]].
  - intros entry.
    exists (new_entry entry
              (format_uuid (uuid_bytes (map (entropy w) (seq (drawn w) 16))))
              (clock w (ticks w)) (clock w (S (ticks w)))).
    do 12 (split; [reflexivity|]). apply Hadd.
  - intros i patch. unfold LocalDataSource.updateEntry.
    destruct (mapM_update_clock i patch existing w) as (updated & n & Hm & HF).
    exists updated. split.
    { eapply Forall2_impl; [exact HF|]. intros e e'. cbn.
      destruct (bool_decide (id e = i)); [|auto].
      intros [k ->]. do 11 (split; [reflexivity|]). exists k. reflexivity. }
    rewrite <-(fits_frame _ _ _ (with_ticks (ticks w + n) w)) by reflexivity.
    destruct (fits (stringify updated) masterPassword (with_ticks (ticks w + n) w))
      eqn:Hfits.
    + destruct (saveEntries_getEntries updated masterPassword _ Hwc Hje Hfits)
        as (token & w' & Hsave & Hw' & Hdec & Hget).
      exists w'. split.
      * erewrite bind_ok by exact Hload. erewrite bind_ok by exact Hm. exact Hsave.
      * exists token. split; [|split; [exact Hdec|exact Hget]].
        rewrite Hw'. reflexivity.
    + eexists. split.
      * erewrite bind_ok by exact Hload. erewrite bind_ok by exact Hm.
        rewrite saveEntries_too_large by exact Hfits. reflexivity.
      * reflexivity.
  - intros i updated. unfold LocalDataSource.deleteEntry.
    destruct (fits (stringify updated) masterPassword w) eqn:Hfits.
    + destruct (saveEntries_getEntries updated masterPassword w Hwc Hje Hfits)
        as (token & w' & Hsave & Hw' & Hdec & Hget).
      exists w'. split.
      * erewrite bind_ok by exact Hload. exact Hsave.
      * exists token. split; [|split; [exact Hdec|exact Hget]]. rewrite Hw'. reflexivity.
    + eexists. split.
      * erewrite bind_ok by exact Hload.
        rewrite saveEntries_too_large by exact Hfits. reflexivity.
      * reflexivity.
  - intros Hnone.
    assert (He : existing = []).
    { unfold getEntries, bind, getItem in Hload. rewrite Hnone in Hload.
      unfold ret in Hload. congruence. }
    split; [exact He|]. intros entry newEntry w' Hrun.
    specialize (Hadd entry). cbv zeta in Hadd.
    destruct (fits _ masterPassword (with_drawn (drawn w + 16) w)).
    + destruct Hadd as (w1 & Ha & token & _ & _ & Hl).
      rewrite Ha in Hrun. injection Hrun as <- <-. rewrite He in Hl. auto.
    + destruct Hadd as (w1 & Ha & _). rewrite Ha in Hrun. discriminate.
Qed.

End with_platform.

Lemma local_mutations_rewrite_whole_blob_witness :
  (exists newEntry w',
    @LocalDataSource.addEntry Toy.crypto Toy.json_entries (js "longpass1") Toy.gmail
      Toy.configured = (Ok newEntry, w') /\
    @LocalDataSource.loadEntries Toy.crypto Toy.json_entries (js "longpass1") w'
    = (Ok [newEntry], w') /\
    password newEntry = js "hunter2") /\
  (exists w',
    @LocalDataSource.addEntry Toy.crypto Toy.json_entries (js "longpass1") Toy.diary
      Toy.configured = (Throw (RangeError Toy.configured), w') /\
    localStorage w' = localStorage Toy.configured).
Proof.
  pose proof (@local_mutations_rewrite_whole_blob Toy.crypto Toy.json_entries
                (js "longpass1") [] Toy.configured
                ToyFacts.crypto_correct ToyFacts.json_entries_correct eq_refl)
    as (Hadd & _ & _ & Hempty).
  assert (Hnew : forall entry newEntry,
    id newEntry = format_uuid (uuid_bytes (map (entropy Toy.configured)
                                               (seq (drawn Toy.configured) 16))) ->
    title newEntry = in_title entry -> username newEntry = in_username entry ->
    password newEntry = in_password entry -> url newEntry = in_url entry ->
    category_id newEntry = in_category_id entry -> tags newEntry = in_tags entry ->
    notes newEntry = in_notes entry ->
    strength_score newEntry = in_strength_score entry ->
    last_used newEntry = in_last_used entry ->
    created_at newEntry = clock Toy.configured (ticks Toy.configured) ->
    updated_at newEntry = clock Toy.configured (S (ticks Toy.configured)) ->
    newEntry
    = new_entry entry
        (format_uuid (uuid_bytes (map (entropy Toy.configured)
                                      (seq (drawn Toy.configured) 16))))
        (clock Toy.configured (ticks Toy.configured))
        (clock Toy.configured (S (ticks Toy.configured)))).
  { intros entry newEntry. destruct newEntry.
    cbn [id title username password url category_id tags notes strength_score
         last_used created_at updated_at].
    intros. subst. reflexivity. }
  split.
  - destruct (Hadd Toy.gmail) as (newEntry & Hid & Ht & Hu & Hp & Hl & Hc & Hg & Hn & Hs
                                  & Hd & Hca & Hua & Hrun).
    pose proof (Hnew Toy.gmail newEntry Hid Ht Hu Hp Hl Hc Hg Hn Hs Hd Hca Hua) as E.
    rewrite E in Hrun.
    assert (Hfits : @fits Toy.crypto
              (@stringify _ Toy.json_entries
                 [new_entry Toy.gmail
                    (format_uuid (uuid_bytes (map (entropy Toy.configured)
                                                  (seq (drawn Toy.configured) 16))))
                    (clock Toy.configured (ticks Toy.configured))
                    (clock Toy.configured (S (ticks Toy.configured)))])
              (js "longpass1") (with_drawn (drawn Toy.configured + 16) Toy.configured)
            = true) by (vm_compute; reflexivity).
    rewrite Hfits in Hrun. destruct Hrun as (w' & Ha & _).
    rewrite <-E in Ha.
    exists newEntry, w'. split; [exact Ha|].
    exact (proj2 (Hempty eq_refl) Toy.gmail newEntry w' Ha).
  - destruct (Hadd Toy.diary) as (newEntry & Hid & Ht & Hu & Hp & Hl & Hc & Hg & Hn & Hs
                                  & Hd & Hca & Hua & Hrun).
    pose proof (Hnew Toy.diary newEntry Hid Ht Hu Hp Hl Hc Hg Hn Hs Hd Hca Hua) as E.
    rewrite E in Hrun.
    assert (Hfits : @fits Toy.crypto
              (@stringify _ Toy.json_entries
                 [new_entry Toy.diary
                    (format_uuid (uuid_bytes (map (entropy Toy.configured)
                                                  (seq (drawn Toy.configured) 16))))
                    (clock Toy.configured (ticks Toy.configured))
                    (clock Toy.configured (S (ticks Toy.configured)))])
              (js "longpass1") (with_drawn (drawn Toy.configured + 16) Toy.configured)
            = false) by (vm_compute; reflexivity).
    rewrite Hfits in Hrun. exact Hrun.
Defined.

End DataSourceTheorems.

(** * When the blob does not open *)

Module DataSourceFacts.
Import EncryptionService EncryptionFacts LocalStorageService StorageFacts DataSourceTheorems.
Section with_platform.
Context {wc : WebCrypto} {je : JSON (list PasswordEntry)} {jc : JSON (list Category)}.

Lemma getEntries_throw_frame pw w1 w2 e :
  localStorage w1 = localStorage w2 ->
  fst (getEntries pw w1) = Throw e ->
  exists w2', getEntries pw w2 = (Throw (Error "Invalid master password"), w2') /\
              localStorage w2' = localStorage w2.
Proof.
  intros Hs H1. rewrite (getEntries_storage pw w1 w2 Hs) in H1.
  destruct (getEntries_world pw w2) as [[es H2]|[e' H2]]; rewrite H2 in H1 |- *.
  - discriminate.
  - eexists. split; reflexivity.
Qed.

(** X10.  A blob that does not open stops every mutation before anything is
    written: the mutation rejects with the error of the load, and storage
    is as it was. *)
Lemma local_mutations_need_the_blob (masterPassword : jsstring) (w : World) e :
  fst (LocalDataSource.loadEntries masterPassword w) = Throw e ->
  (forall entry, exists w',
      LocalDataSource.addEntry masterPassword entry w
      = (Throw (Error "Invalid master password"), w') /\
      localStorage w' = localStorage w) /\
  (forall i patch, exists w',
      LocalDataSource.updateEntry masterPassword i patch w
      = (Throw (Error "Invalid master password"), w') /\
      localStorage w' = localStorage w) /\
  (forall i, exists w',
      LocalDataSource.deleteEntry masterPassword i w
      = (Throw (Error "Invalid master password"), w') /\
      localStorage w' = localStorage w).
Proof.
  unfold LocalDataSource.loadEntries. intros Hload.
  destruct (getEntries_throw_frame masterPassword w w e eq_refl Hload) as (w1 & Hw & Hs).
  split; [|split].
  - intros entry. unfold LocalDataSource.addEntry.
    set (w2 := with_ticks (S (S (ticks w))) (with_drawn (drawn w + 16) w)).
    destruct (getEntries_throw_frame masterPassword w w2 e eq_refl Hload) as (w2' & Hw2 & Hs2).
    exists w2'. split; [|exact Hs2].
    erewrite bind_ok by reflexivity. erewrite bind_ok by reflexivity.
    erewrite bind_ok by reflexivity.
    apply bind_throw. exact Hw2.
  - intros i patch. exists w1. split; [|exact Hs].
    unfold LocalDataSource.updateEntry. apply bind_throw. exact Hw.
  - intros i. exists w1. split; [|exact Hs].
    unfold LocalDataSource.deleteEntry. apply bind_throw. exact Hw.
Qed.

End with_platform.
End DataSourceFacts.

(** * Theorems about LocalStorageService and VaultProvider *)

Module StorageTheorems.
Import EncryptionService LocalStorageService.

(** C10.  With no blob stored, [getEntries] resolves with the empty list for
    every master password, whatever the platform primitives are, and leaves
    the environment (storage, random source, console) as it was: nothing is
    decrypted and the password is not compared with the stored verifier. *)
Theorem getEntries_without_blob
    (wc : WebCrypto) (je : JSON (list PasswordEntry)) (masterPassword : jsstring) (w : World) :
  localStorage w !! ENTRIES_KEY = None ->
  getEntries masterPassword w = (Ok [], w).
Proof.
  intros Hnone. unfold getEntries, bind, getItem. rewrite Hnone. reflexivity.
Qed.

Lemma getEntries_without_blob_witness :
  @verifyMasterPassword Toy.crypto (js "wrongpass") Toy.configured
  = (Ok false, Toy.configured) /\
  @getEntries Toy.crypto Toy.json_entries (js "wrongpass") Toy.configured
  = (Ok [], Toy.configured).
Proof.
  split.
  - vm_compute. reflexivity.
  - apply (getEntries_without_blob Toy.crypto Toy.json_entries). reflexivity.
Defined.

(** C5 (as amended).  [setMasterPassword] stores, under the key of the
    verifier and nowhere else, the hexadecimal SHA-256 digest of the encoded
    secret alone: no salt is drawn (the random source is not touched) and
    none is stored.  [verifyMasterPassword] compares with the same digest.
    The key of a token is another derivation: PBKDF2 of the secret with the
    random salt of that token. *)
Theorem verifier_is_plain_sha256 (wc : WebCrypto) (secret : jsstring) (salt : bytes) (w : World) :
  let verifier := hex (sha256 (UTF8.encode secret)) in
  setMasterPassword secret w
  = (Ok tt, with_localStorage (insert MASTER_PASSWORD_HASH_KEY verifier) w) /\
  hashPassword secret w = (Ok verifier, w) /\
  drawn (snd (setMasterPassword secret w)) = drawn w /\
  entropy (snd (setMasterPassword secret w)) = entropy w /\
  (forall k, k <> MASTER_PASSWORD_HASH_KEY ->
             localStorage (snd (setMasterPassword secret w)) !! k = localStorage w !! k) /\
  (forall candidate,
      verifyMasterPassword candidate (snd (setMasterPassword secret w))
      = (Ok (bool_decide (hex (sha256 (UTF8.encode candidate)) = verifier /\ verifier <> [])),
         snd (setMasterPassword secret w))) /\
  deriveKey secret salt w
  = (Ok (pbkdf2_sha256 (UTF8.encode secret) salt PBKDF2_ITERATIONS), w).
Proof.
  cbv zeta. split; [reflexivity|]. split; [reflexivity|].
  split; [reflexivity|]. split; [reflexivity|]. split; [|split; [|reflexivity]].
  - intros k Hk. cbn. now rewrite lookup_insert_ne.
  - intros candidate.
    unfold verifyMasterPassword, setMasterPassword, bind, getItem, hashPassword, ret, setItem.
    cbn [fst snd localStorage with_localStorage]. rewrite lookup_insert_eq.
    destruct (hex (sha256 (UTF8.encode secret))) as [|c h] eqn:E.
    + f_equal. f_equal. symmetry. apply bool_decide_eq_false. intros [_ H]. now apply H.
    + f_equal. f_equal. apply bool_decide_ext. split; [intros ->; split; [reflexivity|discriminate] | intros [H _]; exact H].
Qed.

(** C5, the claim as stated fails: two pages whose random sources differ
    store the same verifier for the same secret, draw nothing for it, and
    store nothing besides it. *)
Lemma verifier_has_no_salt :
  let w1 := Toy.world in
  let w2 := with_drawn 100 Toy.world in
  let w1' := snd (@setMasterPassword Toy.crypto (js "longpass1") w1) in
  let w2' := snd (@setMasterPassword Toy.crypto (js "longpass1") w2) in
  next_salt w1 <> next_salt w2 /\
  localStorage w1' !! MASTER_PASSWORD_HASH_KEY = localStorage w2' !! MASTER_PASSWORD_HASH_KEY /\
  is_Some (localStorage w1' !! MASTER_PASSWORD_HASH_KEY) /\
  dom (localStorage w1') = {[ MASTER_PASSWORD_HASH_KEY ]} /\
  drawn w1' = drawn w1 /\ drawn w2' = drawn w2.
Proof.
  cbv zeta. split; [vm_compute; discriminate|]. split; [reflexivity|].
  split; [eexists; vm_compute; reflexivity|]. split; [|split; reflexivity].
  cbn. rewrite dom_insert_L, dom_empty_L. set_solver.
Qed.

End StorageTheorems.

(** * The gate of the provider *)

Module ProviderFacts.
Import VaultProvider.

Section with_platform.
Context {wc : WebCrypto} {je : JSON (list PasswordEntry)} {jc : JSON (list Category)}.
Variable cloud : bool.
Variable SupabaseDataSource : jsstring -> jsstring -> VaultDataSource.t.

Lemma loadLocalEntries_gate pw st w :
  exists st' w', loadLocalEntries pw st w = (Ok st', w') /\ same_gate st st'.
Proof.
  unfold loadLocalEntries.
  destruct (LocalStorageService.getEntries pw w) as [[es|e] w1].
  - destruct (LocalStorageService.getCategories w1) as [[cs|e] w2];
      eexists _, _; (split; [reflexivity | split; reflexivity]).
  - eexists _, _. split; [reflexivity | split; reflexivity].
Qed.

Lemma loadFromDataSource_gate ds st w :
  exists st' w', loadFromDataSource ds st w = (Ok st', w') /\ same_gate st st'.
Proof.
  unfold loadFromDataSource.
  destruct (VaultDataSource.loadEntries ds w) as [[es|e] w1];
    destruct (VaultDataSource.loadCategories ds w1) as [[cs|e'] w2];
    eexists _, _; (split; [reflexivity | split; reflexivity]).
Qed.

Lemma same_gate_consistent st st' :
  same_gate st st' -> gate_consistent st -> gate_consistent st'.
Proof. intros [Hm Hd] Hc. unfold gate_consistent. rewrite Hm, Hd. exact Hc. Qed.

Lemma held_password_consistent st p : masterPassword st = Some p -> gate_consistent st.
Proof. intros H. unfold gate_consistent. rewrite H. discriminate. Qed.

Ltac peel H :=
  repeat (apply bind_inv in H; destruct H as (? & ? & _ & H); cbv beta in H).

Ltac finish H :=
  unfold ret in H; injection H as <- <-;
  first [ assumption
        | eapply same_gate_consistent; [|eassumption]; split; reflexivity
        | eapply held_password_consistent; reflexivity ].

(** No handler of the provider leaves a data source without a master
    password. *)
Lemma handlers_keep_gate_consistent st st' w w' :
  gate_consistent st ->
  (forall pw, setMasterPassword cloud SupabaseDataSource pw st w = (Ok st', w') ->
              gate_consistent st') /\
  (useEffect cloud SupabaseDataSource st w = (Ok st', w') -> gate_consistent st') /\
  (forall entry, addEntry entry st w = (Ok st', w') -> gate_consistent st') /\
  (forall i patch, updateEntry i patch st w = (Ok st', w') -> gate_consistent st') /\
  (forall i, deleteEntry i st w = (Ok st', w') -> gate_consistent st') /\
  (refreshEntries st w = (Ok st', w') -> gate_consistent st').
Proof.
  intros Hc. repeat split.
  - intros pw H. unfold setMasterPassword in H. destruct (isGuest st).
    + apply bind_inv in H. destruct H as (has & w1 & _ & H).
      apply bind_inv in H. destruct H as ([|] & w2 & _ & H); cbn [negb] in H;
        [|discriminate].
      peel H.
      match type of H with
      | loadLocalEntries ?pw ?st ?w = _ =>
          destruct (loadLocalEntries_gate pw st w) as (st2 & w3 & Hl & Hg)
      end.
      rewrite Hl in H. injection H as <- <-.
      eapply same_gate_consistent; [exact Hg|].
      eapply held_password_consistent. reflexivity.
    + destruct (user st); [destruct cloud|]; finish H.
  - intros H. unfold useEffect in H.
    destruct (masterPassword st) as [[|c p]|] eqn:Em.
    + destruct (user st), (isGuest st); finish H.
    + destruct (isGuest st).
      * destruct (loadLocalEntries_gate (c :: p)
                    (setDataSource (LocalDataSource.make (c :: p)) st) w)
          as (st2 & w3 & Hl & Hg).
        rewrite Hl in H. injection H as <- <-.
        eapply same_gate_consistent; [exact Hg|].
        eapply held_password_consistent. cbn. exact Em.
      * destruct (user st) as [u|]; [destruct cloud|]; try finish H.
        destruct (loadFromDataSource_gate (SupabaseDataSource u (c :: p))
                    (setDataSource (SupabaseDataSource u (c :: p)) st) w)
          as (st2 & w3 & Hl & Hg).
        rewrite Hl in H. injection H as <- <-.
        eapply same_gate_consistent; [exact Hg|].
        eapply held_password_consistent. cbn. exact Em.
    + destruct (user st), (isGuest st); finish H.
  - intros entry H. unfold addEntry in H.
    destruct (isGuest st), (masterPassword st) as [[|c p]|] eqn:Em;
      try (destruct (dataSource st), (user st)); peel H; finish H.
  - intros i patch H. unfold updateEntry in H.
    destruct (isGuest st), (masterPassword st) as [[|c p]|] eqn:Em;
      try (destruct (dataSource st), (user st)); peel H; finish H.
  - intros i H. unfold deleteEntry in H.
    destruct (isGuest st), (masterPassword st) as [[|c p]|] eqn:Em;
      try (destruct (dataSource st), (user st)); peel H; finish H.
  - intros H. unfold refreshEntries in H.
    destruct (dataSource st) as [ds|] eqn:Ed, (user st), (isGuest st),
             (masterPassword st) as [[|c p]|] eqn:Em;
      try finish H;
      match type of H with
      | loadFromDataSource ?ds ?st ?w = _ =>
          destruct (loadFromDataSource_gate ds st w) as (st2 & w3 & Hl & Hg)
      | loadLocalEntries ?pw ?st ?w = _ =>
          destruct (loadLocalEntries_gate pw st w) as (st2 & w3 & Hl & Hg)
      end;
      rewrite Hl in H; injection H as <- <-;
      (eapply same_gate_consistent; [exact Hg | exact Hc]).
Qed.

Lemma initial_gate_consistent guest u : gate_consistent (initial guest u).
Proof. intros _. reflexivity. Qed.

End with_platform.
End ProviderFacts.

Module ProviderTheorems.
Import VaultProvider.

(** C7 (as amended).  While no master password is held, in a state the
    provider can be in (a data source exists only with a master password),
    the handlers of the provider resolve without an error and change
    nothing: neither the state of the provider nor storage, the random
    source, the clock or the console. *)
Theorem locked_handlers_do_nothing
    (wc : WebCrypto) (je : JSON (list PasswordEntry)) (jc : JSON (list Category))
    (st : State) (entry : EntryInput) (i : jsstring) (patch : EntryPatch) (w : World) :
  gate_consistent st -> masterPassword st = None ->
  addEntry entry st w = (Ok st, w) /\
  updateEntry i patch st w = (Ok st, w) /\
  deleteEntry i st w = (Ok st, w) /\
  refreshEntries st w = (Ok st, w).
Proof.
  intros Hc Hm. pose proof (Hc Hm) as Hd.
  unfold addEntry, updateEntry, deleteEntry, refreshEntries.
  rewrite Hm, Hd. destruct (isGuest st); repeat split.
Qed.

Lemma locked_handlers_do_nothing_witness :
  let st := initial true None in
  @addEntry Toy.crypto Toy.json_entries Toy.gmail st Toy.configured = (Ok st, Toy.configured) /\
  @updateEntry Toy.crypto Toy.json_entries (js "1") 
     {| p_id := None; p_title := Some (js "Mail"); p_username := None; p_password := None;
        p_url := None; p_category_id := None; p_tags := None; p_notes := None;
        p_strength_score := None; p_last_used := None; p_created_at := None;
        p_updated_at := None |} st Toy.configured = (Ok st, Toy.configured) /\
  @deleteEntry Toy.crypto Toy.json_entries (js "1") st Toy.configured = (Ok st, Toy.configured) /\
  @refreshEntries Toy.crypto Toy.json_entries Toy.json_categories st Toy.configured
  = (Ok st, Toy.configured).
Proof.
  cbv zeta.
  apply (locked_handlers_do_nothing Toy.crypto Toy.json_entries Toy.json_categories).
  - intros _. reflexivity.
  - reflexivity.
Defined.

(** C7, the claim as stated fails: on a page whose vault is locked (a
    verifier is stored, no master password is held) [addEntry] resolves, no
    error is thrown, and the entry is neither shown nor stored. *)
Lemma locked_addEntry_resolves_silently :
  let st := initial true None in
  exists st' w',
    @addEntry Toy.crypto Toy.json_entries Toy.gmail st Toy.configured = (Ok st', w') /\
    masterPassword st = None /\
    entries st' = [] /\
    localStorage w' !! LocalStorageService.ENTRIES_KEY = None /\
    is_Some (localStorage w' !! LocalStorageService.MASTER_PASSWORD_HASH_KEY).
Proof.
  cbv zeta. eexists _, _. split; [reflexivity|]. split; [reflexivity|].
  split; [reflexivity|]. split; [reflexivity|]. eexists. vm_compute. reflexivity.
Qed.

End ProviderTheorems.

(** * Theorems about PasswordGenerator.calculateStrength *)

Module StrengthTheorems.
Import PasswordGenerator.
Local Open Scope Z_scope.

Lemma test_class_occurrences cls s :
  test_class cls s = (1 <=? occurrences cls s)%nat.
Proof.
  unfold test_class, occurrences. induction s as [|c s IH]; [reflexivity|].
  cbn [existsb List.filter]. destruct (cls c); [reflexivity|]. exact IH.
Qed.

Lemma any_then_class_one_line cls s :
  Forall (fun c => is_line_terminator c = false) s ->
  any_then_class cls s = existsb cls s.
Proof.
  induction 1 as [|c s Hc _ IH]; [reflexivity|].
  cbn [any_then_class existsb]. now rewrite Hc, IH.
Qed.

Lemma test_class_twice_occurrences cls s :
  Forall (fun c => is_line_terminator c = false) s ->
  test_class_twice cls s = (2 <=? occurrences cls s)%nat.
Proof.
  induction 1 as [|c s Hc Hs IH]; [reflexivity|].
  cbn [test_class_twice]. rewrite any_then_class_one_line by assumption.
  fold (test_class cls s). rewrite test_class_occurrences, IH.
  unfold occurrences. cbn [List.filter]. destruct (cls c); cbn [length andb orb].
  - destruct (length (List.filter cls s)) as [|[|n]]; reflexivity.
  - reflexivity.
Qed.

Lemma bonus_range b n : 0 <= n -> 0 <= bonus b n <= n.
Proof. unfold bonus. destruct b; lia. Qed.

(** The score lies between 0 and 100. *)
Lemma score_range password : 0 <= score (calculateStrength password) <= 100.
Proof.
  unfold calculateStrength. cbn [score].
  repeat match goal with
         | |- context [bonus ?b ?n] =>
             let H := fresh in
             pose proof (bonus_range b n ltac:(lia)) as H;
             let x := fresh "x" in
             set (x := bonus b n) in *; clearbody x
         end.
  lia.
Qed.

(** The label follows the thresholds 40, 60 and 80. *)
Lemma label_thresholds password :
  label (calculateStrength password)
  = specified_label (score (calculateStrength password)).
Proof.
  unfold calculateStrength, specified_label. cbn [score label].
  set (s := Z.min _ 100). clearbody s.
  case_ifs; try reflexivity; lia.
Qed.

Lemma strength_ordering :
  score (calculateStrength (js "a")) < score (calculateStrength (js "aaaaaaaa"))
  /\ score (calculateStrength (js "aaaaaaaa")) < score (calculateStrength (js "Aa1!aaaa")).
Proof. vm_compute. split; reflexivity. Qed.

(** X24.  On a password without line breaks the score is the specified one:
    the bonus of 5 of a class is earned exactly when the class occurs twice. *)
Lemma score_as_specified_on_one_line password :
  Forall (fun c => is_line_terminator c = false) password ->
  score (calculateStrength password) = specified_score password.
Proof.
  intros Hp. unfold calculateStrength, specified_score. cbn [score].
  rewrite !test_class_occurrences, !test_class_twice_occurrences by assumption.
  rewrite Z.min_comm. f_equal.
  rewrite !Z.geb_leb. reflexivity.
Qed.

(** C9, where the code departs from the heuristic: the password of two
    lowercase letters with a line separator (U+2028) between them holds the
    class twice, so the heuristic gives 10 + 10 + 5; the code, whose [.]
    does not match a line terminator, gives 20, as it does for a line feed. *)
Theorem class_bonus_stops_at_line_break :
  let password := js "a" ++ [0x2028] ++ js "a" in
  occurrences is_lower password = 2%nat /\
  specified_score password = 25 /\
  test_class_twice is_lower password = false /\
  score (calculateStrength password) = 20 /\
  score (calculateStrength (js "a" ++ [10] ++ js "a")) = 20.
Proof. vm_compute. repeat split. Qed.

End StrengthTheorems.

(** * Further properties of EncryptionService *)

Module EncryptionExtras.
Import EncryptionService EncryptionFacts.

Lemma toy_digest_nonempty : digest_nonempty Toy.crypto.
Proof.
  intros msg H. apply (f_equal length) in H. cbn in H.
  unfold Toy.digest in H. rewrite ToyFacts.length_pad_to in H. discriminate.
Qed.

(** X1.  The secret enters key derivation and the verifier only through its
    UTF-8 encoding: two secrets with the same encoding (they differ in
    unpaired surrogates only) have the same verifier hash, [encrypt] does
    the same under both, and the token it makes under one opens under the
    other. *)
Theorem secrets_with_one_encoding_are_interchangeable
    (wc : WebCrypto) (P S1 S2 : jsstring) (w : World) :
  aead_correct wc -> UTF8.preserved_text P -> UTF8.encode S1 = UTF8.encode S2 ->
  hashPassword S1 w = hashPassword S2 w /\
  encrypt P S1 w = encrypt P S2 w /\
  exists token,
    encrypt P S1 w
    = (if fits P S1 w then Ok token else Throw (RangeError w),
       with_drawn (drawn w + 28) w) /\
    forall w', decrypt token S2 w' = (Ok P, w').
Proof.
  intros Hwc HP HS. split; [|split].
  - unfold hashPassword. now rewrite HS.
  - rewrite !encrypt_run. unfold fits, token_of, sealed. now rewrite HS.
  - eexists. split; [apply encrypt_run|]. intros w'.
    rewrite decrypt_token by (apply length_next_salt || apply length_next_nonce).
    unfold sealed. rewrite HS, Hwc, UTF8Facts.decode_encode by assumption. reflexivity.
Qed.

Lemma secrets_with_one_encoding_are_interchangeable_witness :
  (0xD800 :: js "longpass")%Z <> (0xDFFF :: js "longpass")%Z /\
  @hashPassword Toy.crypto (0xD800 :: js "longpass")%Z Toy.world
  = @hashPassword Toy.crypto (0xDFFF :: js "longpass")%Z Toy.world /\
  exists token w',
    @encrypt Toy.crypto (js "hunter2") (0xD800 :: js "longpass")%Z Toy.world
    = (Ok token, w') /\
    @decrypt Toy.crypto token (0xDFFF :: js "longpass")%Z w' = (Ok (js "hunter2"), w').
Proof.
  split; [discriminate|].
  destruct (secrets_with_one_encoding_are_interchangeable Toy.crypto
              (js "hunter2") (0xD800 :: js "longpass")%Z (0xDFFF :: js "longpass")%Z
              Toy.world ToyFacts.crypto_correct)
    as (Hhash & _ & token & Henc & Hdec).
  - split; [reflexivity | vm_compute; discriminate].
  - reflexivity.
  - split; [exact Hhash|]. eexists _, _. split; [exact Henc | apply Hdec].
Defined.

Lemma sextets_of_invalid c s :
  In c s -> Base64.sextet_of_char c = None -> Base64.sextets_of s = None.
Proof.
  intros Hin Hc. induction s as [|a s IH]; [destruct Hin|].
  cbn [Base64.sextets_of]. destruct Hin as [->|Hin].
  - now rewrite Hc.
  - rewrite (IH Hin). now destruct (Base64.sextet_of_char a).
Qed.

Lemma strip_trailing_pad_keeps c s :
  In c s -> c <> Base64.pad -> In c (Base64.strip_trailing_pad s).
Proof.
  intros Hin Hc. revert Hin.
  induction s as [|a|a b|a b d l IH] using Base64Facts.list_ind3.
  - intros [].
  - intros [->|[]]. cbn. destruct (Z.eqb_spec c Base64.pad); [contradiction | now left].
  - cbn [Base64.strip_trailing_pad].
    intros [->|[->|[]]].
    + destruct (Z.eqb_spec b Base64.pad).
      * destruct (Z.eqb_spec c Base64.pad); [contradiction | now left].
      * now left.
    + destruct (Z.eqb_spec c Base64.pad); [contradiction | right; now left].
  - intros Hin.
    assert (Hstep : Base64.strip_trailing_pad (a :: b :: d :: l)
                    = a :: Base64.strip_trailing_pad (b :: d :: l)) by reflexivity.
    rewrite Hstep. destruct Hin as [->|Hin]; [now left|]. right.
    destruct l as [|e l'].
    + cbn [Base64.strip_trailing_pad].
      destruct Hin as [->|[->|[]]].
      * destruct (Z.eqb_spec d Base64.pad).
        -- destruct (Z.eqb_spec c Base64.pad); [contradiction | now left].
        -- now left.
      * destruct (Z.eqb_spec c Base64.pad); [contradiction | right; now left].
    + assert (Hstep2 : Base64.strip_trailing_pad (b :: d :: e :: l')
                       = b :: Base64.strip_trailing_pad (d :: e :: l')) by reflexivity.
      rewrite Hstep2. destruct Hin as [->|Hin]; [now left|]. right.
      destruct l' as [|f l''].
      * cbn [Base64.strip_trailing_pad]. destruct Hin as [->|[->|[]]].
        -- destruct (Z.eqb_spec e Base64.pad).
           ++ destruct (Z.eqb_spec c Base64.pad); [contradiction | now left].
           ++ now left.
        -- destruct (Z.eqb_spec c Base64.pad); [contradiction | right; now left].
      * assert (Hstep3 : Base64.strip_trailing_pad (d :: e :: f :: l'')
                         = d :: Base64.strip_trailing_pad (e :: f :: l'')) by reflexivity.
        rewrite Hstep3. destruct Hin as [->|Hin]; [now left|]. right.
        apply IH. exact Hin.
Qed.

Lemma atob_invalid c s :
  In c s -> Base64.sextet_of_char c = None -> Base64.is_ascii_whitespace c = false ->
  c <> Base64.pad ->
  Base64.atob s = Throw InvalidCharacterError.
Proof.
  intros Hin Hc Hw Hp. unfold Base64.atob.
  assert (Hin' : In c (Base64.remove_whitespace s)).
  { unfold Base64.remove_whitespace. apply List.filter_In. split; [exact Hin|].
    now rewrite Hw. }
  cbv zeta.
  match goal with |- context [Base64.sextets_of ?d] => set (data := d) end.
  assert (Hd : In c data).
  { unfold data. destruct (_ =? 0)%nat; [|exact Hin'].
    now apply strip_trailing_pad_keeps. }
  destruct (_ =? 1)%nat; [reflexivity|].
  now rewrite (sextets_of_invalid c data Hd Hc).
Qed.

(** X2.  A text holding a character that is neither a base64 digit, nor
    ['='], nor ASCII whitespace is rejected by [decrypt] with the generic
    error, for every secret and without the cipher being asked. *)
Theorem decrypt_rejects_text_outside_base64
    (wc : WebCrypto) (ciphertext S : jsstring) (c : Z) (w : World) :
  In c ciphertext -> Base64.sextet_of_char c = None ->
  Base64.is_ascii_whitespace c = false -> c <> Base64.pad ->
  decrypt ciphertext S w = (Throw DECRYPTION_FAILED, w).
Proof.
  intros Hin Hc Hw Hp. rewrite decrypt_run.
  now rewrite (atob_invalid c ciphertext Hin Hc Hw Hp).
Qed.

Lemma decrypt_rejects_text_outside_base64_witness :
  @decrypt Toy.crypto (js "not-a-token") (js "longpass1") Toy.world
  = (Throw DECRYPTION_FAILED, Toy.world).
Proof.
  apply (decrypt_rejects_text_outside_base64 Toy.crypto _ _ 45%Z).
  - cbn. tauto.
  - reflexivity.
  - reflexivity.
  - discriminate.
Defined.

End EncryptionExtras.

(** * Further properties of LocalStorageService *)

Module StorageExtras.
Import EncryptionService EncryptionFacts LocalStorageService StorageFacts.

Lemma hex_digit_inj a b :
  (0 <= a < 16)%Z -> (0 <= b < 16)%Z -> hex_digit a = hex_digit b -> a = b.
Proof. unfold hex_digit. intros Ha Hb. case_ifs; lia. Qed.

Lemma hex_byte_inj b1 b2 : hex_byte b1 = hex_byte b2 -> b1 = b2.
Proof.
  unfold hex_byte. intros H. injection H as Hhi Hlo.
  pose proof (Z_of_byte_range b1) as R1. pose proof (Z_of_byte_range b2) as R2.
  apply hex_digit_inj in Hhi; [|Z.to_euclidean_division_equations; lia..].
  apply hex_digit_inj in Hlo; [|Z.to_euclidean_division_equations; lia..].
  rewrite <-(byte_of_Z_of_byte b1), <-(byte_of_Z_of_byte b2). f_equal.
  Z.to_euclidean_division_equations; lia.
Qed.

Lemma hex_inj bs1 bs2 : hex bs1 = hex bs2 -> bs1 = bs2.
Proof.
  revert bs2. induction bs1 as [|b1 bs1 IH]; intros [|b2 bs2] H; try reflexivity;
    try discriminate H.
  unfold hex in H. cbn [flat_map hex_byte app] in H.
  injection H as Hhi Hlo Hrest.
  f_equal; [apply hex_byte_inj; unfold hex_byte; congruence | apply IH; exact Hrest].
Qed.

Lemma hex_nonempty bs : bs <> [] -> exists c h, hex bs = c :: h.
Proof. destruct bs as [|b bs]; [congruence|]. intros _. cbn. eauto. Qed.

Lemma hex_digit_lowercase n :
  (0 <= n < 16)%Z ->
  (48 <= hex_digit n <= 57)%Z \/ (97 <= hex_digit n <= 102)%Z.
Proof. unfold hex_digit. intros Hn. case_ifs; lia. Qed.

Lemma hex_lowercase bs :
  length (hex bs) = 2 * length bs /\
  Forall (fun c => (48 <= c <= 57)%Z \/ (97 <= c <= 102)%Z) (hex bs).
Proof.
  induction bs as [|b bs [IHl IHf]]; [split; [reflexivity|constructor]|].
  unfold hex in *. cbn [flat_map hex_byte app length]. split; [lia|].
  pose proof (Z_of_byte_range b) as R.
  constructor; [|constructor; [|exact IHf]];
    apply hex_digit_lowercase; Z.to_euclidean_division_equations; lia.
Qed.

Section with_platform.
Context {wc : WebCrypto} {je : JSON (list PasswordEntry)} {jc : JSON (list Category)}.

(** X3.  [hashPassword] resolves for every password, touching nothing, with
    the digest of the encoded password written in lowercase hexadecimal, two
    digits for each byte; the text determines the digest, so two passwords
    have the same hash exactly when their digests are equal. *)
Theorem hashPassword_is_lowercase_hex (password : jsstring) (w : World) :
  exists hash,
    hashPassword password w = (Ok hash, w) /\
    length hash = 2 * length (sha256 (UTF8.encode password)) /\
    Forall (fun c => (48 <= c <= 57)%Z \/ (97 <= c <= 102)%Z) hash /\
    forall other w',
      hashPassword other w' = (Ok hash, w') <->
      sha256 (UTF8.encode other) = sha256 (UTF8.encode password).
Proof.
  exists (hex (sha256 (UTF8.encode password))). split; [reflexivity|].
  destruct (hex_lowercase (sha256 (UTF8.encode password))) as [Hl Hf].
  split; [exact Hl|]. split; [exact Hf|].
  intros other w'. unfold hashPassword, ret. split.
  - intros H. apply hex_inj. congruence.
  - intros ->. reflexivity.
Qed.

(** X4.  After [setMasterPassword p] a vault exists, and
    [verifyMasterPassword q] resolves (it never rejects) with [true] exactly
    when the SHA-256 digests of the UTF-8 encodings of [q] and [p] are the
    same; [p] itself is accepted.  Neither call touches the entries. *)
Theorem verifyMasterPassword_after_setMasterPassword (p q : jsstring) (w : World) :
  digest_nonempty wc ->
  exists w',
    setMasterPassword p w = (Ok tt, w') /\
    hasMasterPassword w' = (Ok true, w') /\
    (exists accepted,
        verifyMasterPassword q w' = (Ok accepted, w') /\
        (accepted = true <-> sha256 (UTF8.encode q) = sha256 (UTF8.encode p))) /\
    verifyMasterPassword p w' = (Ok true, w') /\
    localStorage w' !! ENTRIES_KEY = localStorage w !! ENTRIES_KEY.
Proof.
  intros Hne. eexists. split; [reflexivity|].
  destruct (hex_nonempty _ (Hne (UTF8.encode p))) as (c & h & Hh).
  assert (Hv : forall q0, verifyMasterPassword q0
      (with_localStorage (insert MASTER_PASSWORD_HASH_KEY (hex (sha256 (UTF8.encode p)))) w)
    = (Ok (bool_decide (hex (sha256 (UTF8.encode q0)) = hex (sha256 (UTF8.encode p)))),
       with_localStorage (insert MASTER_PASSWORD_HASH_KEY (hex (sha256 (UTF8.encode p)))) w)).
  { intros q0. unfold verifyMasterPassword, bind, getItem.
    cbn [localStorage with_localStorage]. rewrite lookup_insert_eq.
    rewrite Hh, <-Hh. reflexivity. }
  unfold setMasterPassword, hashPassword, bind, ret, setItem.
  split; [|split; [|split]].
  - unfold hasMasterPassword, bind, getItem, ret. cbn [localStorage with_localStorage].
    rewrite lookup_insert_eq. now rewrite Hh.
  - eexists. split; [apply Hv|]. rewrite bool_decide_eq_true.
    split; [apply hex_inj | congruence].
  - rewrite Hv. now rewrite bool_decide_eq_true_2.
  - cbn [localStorage with_localStorage]. now rewrite lookup_insert_ne.
Qed.

(** X5.  [clearAll] removes the three keys of the vault and nothing else.
    Afterwards no master password is set, every password is refused by
    [verifyMasterPassword], and [getEntries] resolves with the empty list for
    every password. *)
Theorem clearAll_forgets_the_vault (pw : jsstring) (w : World) :
  exists w',
    clearAll w = (Ok tt, w') /\
    dom (localStorage w')
    = dom (localStorage w) ∖ {[ENTRIES_KEY; CATEGORIES_KEY; MASTER_PASSWORD_HASH_KEY]} /\
    (forall k, k <> ENTRIES_KEY -> k <> CATEGORIES_KEY -> k <> MASTER_PASSWORD_HASH_KEY ->
               localStorage w' !! k = localStorage w !! k) /\
    hasMasterPassword w' = (Ok false, w') /\
    verifyMasterPassword pw w' = (Ok false, w') /\
    getEntries pw w' = (Ok [], w').
Proof.
  eexists. split; [reflexivity|].
  cbn [localStorage with_localStorage].
  assert (Hm : delete MASTER_PASSWORD_HASH_KEY
                 (delete CATEGORIES_KEY (delete ENTRIES_KEY (localStorage w)))
               !! MASTER_PASSWORD_HASH_KEY = None) by apply lookup_delete_eq.
  assert (He : delete MASTER_PASSWORD_HASH_KEY
                 (delete CATEGORIES_KEY (delete ENTRIES_KEY (localStorage w)))
               !! ENTRIES_KEY = None).
  { rewrite lookup_delete_ne by discriminate. rewrite lookup_delete_ne by discriminate.
    apply lookup_delete_eq. }
  split; [|split; [|split; [|split]]].
  - now rewrite !dom_delete_L, !difference_difference_l_L.
  - intros k H1 H2 H3. now rewrite !lookup_delete_ne by congruence.
  - unfold hasMasterPassword, bind, getItem. cbn [localStorage with_localStorage].
    now rewrite Hm.
  - unfold verifyMasterPassword, bind, getItem. cbn [localStorage with_localStorage].
    now rewrite Hm.
  - unfold getEntries, bind, getItem. cbn [localStorage with_localStorage].
    now rewrite He.
Qed.

(** X6.  [saveEntries] checks neither the password nor what is stored.  A
    collection whose blob fits in one call is saved: the blob is replaced,
    no other key changes and a load under the same password returns the
    collection; of two such saves the later one wins, whatever the earlier
    one stored and under whichever password.  A collection whose blob does
    not fit is not saved: the save rejects with the [RangeError] of the
    spread and storage is as it was. *)
Theorem saveEntries_last_write_wins
    (es1 es2 : list PasswordEntry) (pw1 pw2 : jsstring) (w : World) :
  aead_correct wc -> json_correct je ->
  fits (stringify es1) pw1 w = true ->
  fits (stringify es2) pw2 (with_drawn (drawn w + 28) w) = true ->
  (exists w1 w2,
      saveEntries es1 pw1 w = (Ok tt, w1) /\
      getEntries pw1 w1 = (Ok es1, w1) /\
      saveEntries es2 pw2 w1 = (Ok tt, w2) /\
      getEntries pw2 w2 = (Ok es2, w2) /\
      (forall k, k <> ENTRIES_KEY -> localStorage w2 !! k = localStorage w !! k)) /\
  (forall es pw,
      fits (stringify es) pw w = false ->
      exists w',
        saveEntries es pw w = (Throw (RangeError w), w') /\
        localStorage w' = localStorage w).
Proof.
  intros Hwc Hje Hf1 Hf2. split.
  - destruct (saveEntries_getEntries es1 pw1 w Hwc Hje Hf1)
      as (t1 & w1 & Hs1 & Hw1 & _ & Hg1).
    assert (Hf2' : fits (stringify es2) pw2 w1 = true).
    { rewrite <-Hf2. apply fits_frame; rewrite Hw1; reflexivity. }
    destruct (saveEntries_getEntries es2 pw2 w1 Hwc Hje Hf2')
      as (t2 & w2 & Hs2 & Hw2 & _ & Hg2).
    exists w1, w2. repeat (split; [assumption|]).
    intros k Hk. rewrite Hw2, Hw1. cbn [localStorage with_localStorage with_drawn].
    now rewrite !lookup_insert_ne by congruence.
  - intros es pw Hf. eexists. split; [now apply saveEntries_too_large | reflexivity].
Qed.

(** X7.  A stored blob that is not base64 text makes [getEntries] reject
    with [Error "Invalid master password"] for every password, the right one
    included: the one error stands for a wrong password and for damaged
    data.  The cause goes to the console and storage is left as it was. *)
Theorem getEntries_reports_damage_as_invalid_password
    (masterPassword blob : jsstring) (c : Z) (w : World) :
  localStorage w !! ENTRIES_KEY = Some blob ->
  In c blob -> Base64.sextet_of_char c = None ->
  Base64.is_ascii_whitespace c = false -> c <> Base64.pad ->
  getEntries masterPassword w
  = (Throw (Error "Invalid master password"),
     with_console (console w ++ [("Failed to decrypt entries:"%string, DECRYPTION_FAILED)]) w).
Proof.
  intros Hblob Hin Hc Hw Hp. unfold getEntries, bind at 1, getItem. rewrite Hblob.
  destruct blob as [|c0 t]; [destruct Hin|].
  unfold try_catch, bind. rewrite decrypt_run.
  assert (Ha : Base64.atob (c0 :: t) = Throw InvalidCharacterError)
    by exact (EncryptionExtras.atob_invalid c (c0 :: t) Hin Hc Hw Hp).
  rewrite Ha. reflexivity.
Qed.

(** X8.  Categories are stored as plain JSON text: [saveCategories] changes
    the categories key only, and [getCategories] then returns the saved
    list, the empty list included (its text is not empty). *)
Theorem saveCategories_getCategories (cs : list Category) (w : World) :
  json_correct jc ->
  exists w',
    saveCategories cs w = (Ok tt, w') /\
    localStorage w' = <[CATEGORIES_KEY := stringify cs]> (localStorage w) /\
    getCategories w' = (Ok cs, w').
Proof.
  intros Hjc. destruct (Hjc cs) as (Hparse & Hhd & _).
  eexists. split; [reflexivity|]. split; [reflexivity|].
  unfold getCategories, bind, getItem. cbn [localStorage with_localStorage].
  rewrite lookup_insert_eq.
  destruct (stringify cs) as [|c t] eqn:Hs; [cbn in Hhd; discriminate|].
  unfold lift. now rewrite Hparse.
Qed.

(** X9.  With no categories stored (or the empty text), [getCategories]
    returns the five default categories and stores them, so the next call
    reads them back; the entries and the verifier are not touched. *)
Theorem getCategories_seeds_the_defaults (w : World) :
  json_correct jc ->
  truthy (localStorage w !! CATEGORIES_KEY) = false ->
  exists w',
    getCategories w = (Ok defaultCategories, w') /\
    map cat_name defaultCategories
    = [js "Social Media"; js "Banking"; js "Work"; js "Personal"; js "Shopping"] /\
    localStorage w' = <[CATEGORIES_KEY := stringify defaultCategories]> (localStorage w) /\
    getCategories w' = (Ok defaultCategories, w').
Proof.
  intros Hjc Hnone. destruct (Hjc defaultCategories) as (Hparse & Hhd & _).
  exists (with_localStorage (insert CATEGORIES_KEY (stringify defaultCategories)) w).
  split; [|split; [reflexivity|split; [reflexivity|]]].
  - unfold getCategories, bind at 1, getItem.
    destruct (localStorage w !! CATEGORIES_KEY) as [[|c t]|]; [reflexivity|discriminate|reflexivity].
  - unfold getCategories, bind, getItem. cbn [localStorage with_localStorage].
    rewrite lookup_insert_eq.
    destruct (stringify defaultCategories) as [|c t] eqn:Hs; [cbn in Hhd; discriminate|].
    unfold lift. now rewrite Hparse.
Qed.

End with_platform.

Lemma verifyMasterPassword_after_setMasterPassword_witness :
  exists w',
    @setMasterPassword Toy.crypto (js "longpass1") Toy.world = (Ok tt, w') /\
    @verifyMasterPassword Toy.crypto (js "longpass1") w' = (Ok true, w').
Proof.
  destruct (@verifyMasterPassword_after_setMasterPassword Toy.crypto
              (js "longpass1") (js "wrongpass") Toy.world
              EncryptionExtras.toy_digest_nonempty)
    as (w' & Hset & _ & _ & Hverify & _).
  exists w'. split; [exact Hset | exact Hverify].
Defined.

Lemma saveEntries_last_write_wins_witness :
  let e := new_entry Toy.gmail (js "7") (js "2025") (js "2025") in
  exists w1 w2,
    @saveEntries Toy.crypto Toy.json_entries [] (js "longpass1") Toy.configured
    = (Ok tt, w1) /\
    @saveEntries Toy.crypto Toy.json_entries [e] (js "otherpass") w1 = (Ok tt, w2) /\
    @getEntries Toy.crypto Toy.json_entries (js "otherpass") w2 = (Ok [e], w2).
Proof.
  intros e.
  destruct (@saveEntries_last_write_wins Toy.crypto Toy.json_entries
              [] [e] (js "longpass1") (js "otherpass") Toy.configured
              ToyFacts.crypto_correct ToyFacts.json_entries_correct)
    as [(w1 & w2 & H1 & _ & H2 & H3 & _) _].
  - vm_compute. reflexivity.
  - vm_compute. reflexivity.
  - exists w1, w2. auto.
Defined.

Lemma getEntries_reports_damage_as_invalid_password_witness :
  fst (@getEntries Toy.crypto Toy.json_entries (js "longpass1") Toy.garbled)
  = Throw (Error "Invalid master password").
Proof.
  rewrite (@getEntries_reports_damage_as_invalid_password Toy.crypto Toy.json_entries
             (js "longpass1") (js "!!!") 33%Z Toy.garbled).
  - reflexivity.
  - reflexivity.
  - cbn. tauto.
  - reflexivity.
  - reflexivity.
  - discriminate.
Defined.

Lemma saveCategories_getCategories_witness :
  exists w',
    @saveCategories Toy.json_categories [] Toy.world = (Ok tt, w') /\
    @getCategories Toy.json_categories w' = (Ok [], w').
Proof.
  destruct (@saveCategories_getCategories Toy.json_categories [] Toy.world
              ToyFacts.json_categories_correct) as (w' & Hs & _ & Hg).
  exists w'. auto.
Defined.

Lemma getCategories_seeds_the_defaults_witness :
  exists w',
    @getCategories Toy.json_categories Toy.configured = (Ok defaultCategories, w') /\
    @getCategories Toy.json_categories w' = (Ok defaultCategories, w').
Proof.
  destruct (@getCategories_seeds_the_defaults Toy.json_categories Toy.configured
              ToyFacts.json_categories_correct eq_refl) as (w' & Hg & _ & _ & Hg').
  exists w'. auto.
Defined.

End StorageExtras.

(** * Further properties of LocalDataSource *)

Module DataSourceExtras.
Import EncryptionService EncryptionFacts LocalStorageService StorageFacts.

Section with_platform.
Context {wc : WebCrypto} {je : JSON (list PasswordEntry)} {jc : JSON (list Category)}.

Lemma mapM_update_absent i patch (l : list PasswordEntry) w :
  Forall (fun e => id e <> i) l ->
  mapM (fun e => if bool_decide (id e = i)
                 then (u <- now ;; ret (touch (spread e patch) u))
                 else ret e) l w = (Ok l, w).
Proof.
  induction 1 as [|e l He _ IH]; [reflexivity|].
  cbn [mapM]. rewrite bool_decide_eq_false_2 by exact He.
  unfold bind at 1. unfold ret at 1. unfold bind at 1. rewrite IH. reflexivity.
Qed.

Lemma filter_absent i (l : list PasswordEntry) :
  Forall (fun e => id e <> i) l ->
  List.filter (fun e => negb (bool_decide (id e = i))) l = l.
Proof.
  induction 1 as [|e l He _ IH]; [reflexivity|].
  cbn [List.filter]. rewrite bool_decide_eq_false_2 by exact He. cbn [negb].
  now rewrite IH.
Qed.

Lemma addEntry_run pw entry existing w :
  aead_correct wc -> json_correct je ->
  getEntries pw w = (Ok existing, w) ->
  fits (stringify
          (new_entry entry
             (format_uuid (uuid_bytes (map (entropy w) (seq (drawn w) 16))))
             (clock w (ticks w)) (clock w (S (ticks w))) :: existing))
       pw (with_drawn (drawn w + 16) w) = true ->
  exists w',
    LocalDataSource.addEntry pw entry w
    = (Ok (new_entry entry
             (format_uuid (uuid_bytes (map (entropy w) (seq (drawn w) 16))))
             (clock w (ticks w)) (clock w (S (ticks w)))), w') /\
    getEntries pw w'
    = (Ok (new_entry entry
             (format_uuid (uuid_bytes (map (entropy w) (seq (drawn w) 16))))
             (clock w (ticks w)) (clock w (S (ticks w))) :: existing), w') /\
    entropy w' = entropy w /\ drawn w' = drawn w + 44 /\
    max_arguments w' = max_arguments w.
Proof.
  intros Hwc Hje Hload Hfits. unfold LocalDataSource.addEntry.
  set (w2 := with_ticks (S (S (ticks w))) (with_drawn (drawn w + 16) w)).
  set (newEntry := new_entry entry _ _ _) in *.
  assert (Hfits2 : fits (stringify (newEntry :: existing)) pw w2 = true).
  { rewrite <-Hfits. now apply fits_frame. }
  destruct (saveEntries_getEntries (newEntry :: existing) pw w2 Hwc Hje Hfits2)
    as (token & w' & Hsave & Hw' & Hdec & Hget).
  exists w'. split; [|split; [exact Hget|]].
  - erewrite bind_ok by reflexivity. erewrite bind_ok by reflexivity.
    erewrite bind_ok by reflexivity.
    erewrite bind_ok
      by (unfold LocalDataSource.loadEntries;
          apply (getEntries_ok_frame pw w w2 existing); [reflexivity|exact Hload]).
    erewrite bind_ok by exact Hsave. reflexivity.
  - rewrite Hw'. cbn. repeat split. lia.
Qed.

Lemma deleteEntry_run pw i existing w :
  aead_correct wc -> json_correct je ->
  getEntries pw w = (Ok existing, w) ->
  fits (stringify (List.filter (fun e => negb (bool_decide (id e = i))) existing))
       pw w = true ->
  exists w',
    LocalDataSource.deleteEntry pw i w = (Ok tt, w') /\
    getEntries pw w'
    = (Ok (List.filter (fun e => negb (bool_decide (id e = i))) existing), w') /\
    drawn w' = drawn w + 28.
Proof.
  intros Hwc Hje Hload Hfits. unfold LocalDataSource.deleteEntry.
  destruct (saveEntries_getEntries
              (List.filter (fun e => negb (bool_decide (id e = i))) existing)
              pw w Hwc Hje Hfits) as (token & w' & Hsave & Hw' & Hdec & Hget).
  exists w'. split; [|split; [exact Hget|]].
  - unfold LocalDataSource.loadEntries. erewrite bind_ok by exact Hload. exact Hsave.
  - rewrite Hw'. reflexivity.
Qed.

(** X11.  [updateEntry] and [deleteEntry] of the local data source given an
    id that no stored entry has are no error: when the blob of the stored
    collection fits in one call again, they resolve, a load afterwards
    returns the collection as it was, and the blob was nevertheless sealed
    again (28 fresh random bytes were drawn).  The clock is not read. *)
Theorem unknown_id_is_no_error
    (masterPassword i : jsstring) (patch : EntryPatch)
    (existing : list PasswordEntry) (w : World) :
  aead_correct wc -> json_correct je ->
  LocalDataSource.loadEntries masterPassword w = (Ok existing, w) ->
  Forall (fun e => id e <> i) existing ->
  fits (stringify existing) masterPassword w = true ->
  (exists w',
      LocalDataSource.updateEntry masterPassword i patch w = (Ok tt, w') /\
      LocalDataSource.loadEntries masterPassword w' = (Ok existing, w') /\
      drawn w' = drawn w + 28 /\ ticks w' = ticks w) /\
  (exists w',
      LocalDataSource.deleteEntry masterPassword i w = (Ok tt, w') /\
      LocalDataSource.loadEntries masterPassword w' = (Ok existing, w') /\
      drawn w' = drawn w + 28).
Proof.
  intros Hwc Hje Hload Habsent Hfits. unfold LocalDataSource.loadEntries in *. split.
  - destruct (saveEntries_getEntries existing masterPassword w Hwc Hje Hfits)
      as (token & w' & Hsave & Hw' & _ & Hget).
    exists w'. split; [|split; [exact Hget|rewrite Hw'; split; reflexivity]].
    unfold LocalDataSource.updateEntry, LocalDataSource.loadEntries.
    erewrite bind_ok by exact Hload.
    erewrite bind_ok by (apply mapM_update_absent; exact Habsent).
    exact Hsave.
  - assert (Hfits' : fits (stringify (List.filter (fun e => negb (bool_decide (id e = i)))
                                        existing)) masterPassword w = true)
      by (now rewrite (filter_absent i existing Habsent)).
    destruct (deleteEntry_run masterPassword i existing w Hwc Hje Hload Hfits')
      as (w' & Hdel & Hget & Hd).
    exists w'. rewrite (filter_absent i existing Habsent) in Hget. auto.
Qed.

(** X12.  [deleteEntry] with the id that [addEntry] returned takes the added
    entry out again: when the blobs of both saves fit in one call, a load
    then returns the earlier entries except those that had the same id, and
    all of them when the id is new. *)
Theorem deleteEntry_undoes_addEntry
    (masterPassword : jsstring) (entry : EntryInput)
    (existing : list PasswordEntry) (w : World) :
  let newEntry :=
    new_entry entry (format_uuid (uuid_bytes (map (entropy w) (seq (drawn w) 16))))
              (clock w (ticks w)) (clock w (S (ticks w))) in
  let others :=
    List.filter (fun e => negb (bool_decide (id e = id newEntry))) existing in
  aead_correct wc -> json_correct je ->
  LocalDataSource.loadEntries masterPassword w = (Ok existing, w) ->
  fits (stringify (newEntry :: existing)) masterPassword (with_drawn (drawn w + 16) w)
  = true ->
  fits (stringify others) masterPassword (with_drawn (drawn w + 44) w) = true ->
  exists w1 w2,
    LocalDataSource.addEntry masterPassword entry w = (Ok newEntry, w1) /\
    LocalDataSource.loadEntries masterPassword w1 = (Ok (newEntry :: existing), w1) /\
    LocalDataSource.deleteEntry masterPassword (id newEntry) w1 = (Ok tt, w2) /\
    LocalDataSource.loadEntries masterPassword w2 = (Ok others, w2) /\
    (Forall (fun e => id e <> id newEntry) existing ->
     LocalDataSource.loadEntries masterPassword w2 = (Ok existing, w2)).
Proof.
  intros newEntry others Hwc Hje Hload Hf1 Hf2.
  unfold LocalDataSource.loadEntries in *.
  destruct (addEntry_run masterPassword entry existing w Hwc Hje Hload Hf1)
    as (w1 & Hadd & Hget1 & He & Hd & Hm).
  fold newEntry in Hadd, Hget1.
  assert (Hfilter : List.filter (fun e => negb (bool_decide (id e = id newEntry)))
                      (newEntry :: existing) = others).
  { cbn [List.filter]. now rewrite bool_decide_eq_true_2 by reflexivity. }
  assert (Hf2' : fits (stringify (List.filter
                         (fun e => negb (bool_decide (id e = id newEntry)))
                         (newEntry :: existing))) masterPassword w1 = true).
  { rewrite Hfilter, <-Hf2. apply fits_frame; [exact He | exact Hd | exact Hm]. }
  destruct (deleteEntry_run masterPassword (id newEntry) (newEntry :: existing) w1
              Hwc Hje Hget1 Hf2') as (w2 & Hdel & Hget2 & _).
  rewrite Hfilter in Hget2.
  exists w1, w2. repeat (split; [assumption|]).
  intros Habsent. unfold others in Hget2.
  now rewrite (filter_absent _ existing Habsent) in Hget2.
Qed.

End with_platform.

Lemma unknown_id_is_no_error_witness :
  let e := new_entry Toy.gmail (js "7") (js "2025") (js "2025") in
  let w := snd (@saveEntries Toy.crypto Toy.json_entries [e] (js "longpass1") Toy.configured) in
  exists w',
    @LocalDataSource.deleteEntry Toy.crypto Toy.json_entries (js "longpass1") (js "8") w
    = (Ok tt, w') /\
    @LocalDataSource.loadEntries Toy.crypto Toy.json_entries (js "longpass1") w'
    = (Ok [e], w').
Proof.
  intros e w.
  destruct (@saveEntries_getEntries Toy.crypto Toy.json_entries [e] (js "longpass1")
              Toy.configured ToyFacts.crypto_correct ToyFacts.json_entries_correct
              ltac:(vm_compute; reflexivity))
    as (token & w0 & Hsave & _ & _ & Hget).
  assert (Hw : w = w0) by (unfold w; now rewrite Hsave).
  destruct (@unknown_id_is_no_error Toy.crypto Toy.json_entries (js "longpass1") (js "8")
              {| p_id := None; p_title := None; p_username := None; p_password := None;
                 p_url := None; p_category_id := None; p_tags := None; p_notes := None;
                 p_strength_score := None; p_last_used := None; p_created_at := None;
                 p_updated_at := None |} [e] w
              ToyFacts.crypto_correct ToyFacts.json_entries_correct)
    as [_ (w' & Hd & Hl & _)].
  - rewrite Hw. exact Hget.
  - constructor; [|constructor]. discriminate.
  - vm_compute. reflexivity.
  - exists w'. auto.
Defined.

Lemma deleteEntry_undoes_addEntry_witness :
  exists newEntry w1 w2,
    @LocalDataSource.addEntry Toy.crypto Toy.json_entries (js "longpass1") Toy.gmail
      Toy.saved = (Ok newEntry, w1) /\
    @LocalDataSource.deleteEntry Toy.crypto Toy.json_entries (js "longpass1")
      (id newEntry) w1 = (Ok tt, w2) /\
    @LocalDataSource.loadEntries Toy.crypto Toy.json_entries (js "longpass1") w2
    = (Ok [], w2).
Proof.
  destruct (@deleteEntry_undoes_addEntry Toy.crypto Toy.json_entries (js "longpass1")
              Toy.gmail [] Toy.saved
              ToyFacts.crypto_correct ToyFacts.json_entries_correct)
    as (w1 & w2 & Ha & _ & Hd & Hl & _).
  - vm_compute. reflexivity.
  - vm_compute. reflexivity.
  - vm_compute. reflexivity.
  - eexists _, w1, w2. split; [exact Ha|]. split; [exact Hd | exact Hl].
Defined.

Lemma local_mutations_need_the_blob_witness :
  exists w',
    @LocalDataSource.addEntry Toy.crypto Toy.json_entries (js "wrongpass") Toy.gmail
      Toy.saved = (Throw (Error "Invalid master password"), w') /\
    localStorage w' = localStorage Toy.saved.
Proof.
  refine (proj1 (@DataSourceFacts.local_mutations_need_the_blob
                   Toy.crypto Toy.json_entries (js "wrongpass") Toy.saved
                   (Error "Invalid master password") _) Toy.gmail).
  vm_compute. reflexivity.
Defined.

End DataSourceExtras.

(** * Further properties of VaultProvider *)

Module ProviderExtras.
Import EncryptionService EncryptionFacts LocalStorageService StorageFacts VaultProvider.

Section with_platform.
Context {wc : WebCrypto} {je : JSON (list PasswordEntry)} {jc : JSON (list Category)}.
Variable cloud : bool.
Variable SupabaseDataSource : jsstring -> jsstring -> VaultDataSource.t.

Lemma getCategories_frame w :
  exists r w', getCategories w = (r, w') /\
    forall k, k <> CATEGORIES_KEY -> localStorage w' !! k = localStorage w !! k.
Proof.
  unfold getCategories, bind at 1, getItem.
  destruct (localStorage w !! CATEGORIES_KEY) as [[|c t]|].
  - eexists _, _. split; [reflexivity|]. intros k Hk.
    cbn [localStorage with_localStorage]. now rewrite lookup_insert_ne.
  - unfold lift. destruct (parse (c :: t)); eexists _, _; (split; [reflexivity|auto]).
  - eexists _, _. split; [reflexivity|]. intros k Hk.
    cbn [localStorage with_localStorage]. now rewrite lookup_insert_ne.
Qed.

Lemma loadLocalEntries_frame (password : jsstring) (st : State) (w : World) :
  exists st' w',
    loadLocalEntries password st w = (Ok st', w') /\
    loading st' = false /\
    masterPassword st' = masterPassword st /\
    (forall k, k <> CATEGORIES_KEY -> localStorage w' !! k = localStorage w !! k).
Proof.
  unfold loadLocalEntries.
  destruct (getEntries_world password w) as [[es H]|[e H]]; rewrite H.
  - destruct (getCategories_frame w) as ([cs|e] & w' & Hc & Hk); rewrite Hc;
      eexists _, _; (split; [reflexivity|]); repeat split; exact Hk.
  - eexists _, _. split; [reflexivity|]. repeat split.
Qed.

Ltac peel_binds H :=
  repeat (apply bind_inv in H; destruct H as (? & ? & _ & H); cbv beta in H).

Ltac loaded H :=
  match type of H with
  | loadFromDataSource ?ds ?st ?w = _ =>
      let Hl := fresh in let Hg := fresh in
      destruct (ProviderFacts.loadFromDataSource_gate ds st w) as (? & ? & Hl & Hg);
      rewrite Hl in H; injection H as <- <-; rewrite (proj1 Hg); cbn;
      first [reflexivity | congruence]
  | loadLocalEntries ?pw ?st ?w = _ =>
      let Hl := fresh in let Hg := fresh in
      destruct (ProviderFacts.loadLocalEntries_gate pw st w) as (? & ? & Hl & Hg);
      rewrite Hl in H; injection H as <- <-; rewrite (proj1 Hg); cbn;
      first [reflexivity | congruence]
  | _ => unfold ret in H; injection H as <- <-; cbn; first [reflexivity | congruence]
  end.

Lemma handlers_keep_the_password st st' w w' :
  (forall pw, setMasterPassword cloud SupabaseDataSource pw st w = (Ok st', w') ->
              masterPassword st' = Some pw) /\
  (useEffect cloud SupabaseDataSource st w = (Ok st', w') ->
   masterPassword st' = masterPassword st) /\
  (forall entry, addEntry entry st w = (Ok st', w') ->
                 masterPassword st' = masterPassword st) /\
  (forall i patch, updateEntry i patch st w = (Ok st', w') ->
                   masterPassword st' = masterPassword st) /\
  (forall i, deleteEntry i st w = (Ok st', w') -> masterPassword st' = masterPassword st) /\
  (refreshEntries st w = (Ok st', w') -> masterPassword st' = masterPassword st).
Proof.
  repeat split.
  - intros pw H. unfold setMasterPassword in H. destruct (isGuest st).
    + apply bind_inv in H. destruct H as (has & w1 & _ & H).
      apply bind_inv in H. destruct H as ([|] & w2 & _ & H); cbn [negb] in H;
        [|discriminate].
      peel_binds H. loaded H.
    + destruct (user st); [destruct cloud|]; loaded H.
  - intros H. unfold useEffect in H.
    destruct (masterPassword st) as [[|c p]|] eqn:Em;
      destruct (isGuest st), (user st); try destruct cloud; loaded H.
  - intros entry H. unfold addEntry in H.
    destruct (isGuest st), (masterPassword st) as [[|c p]|] eqn:Em;
      try (destruct (dataSource st), (user st)); peel_binds H; loaded H.
  - intros i patch H. unfold updateEntry in H.
    destruct (isGuest st), (masterPassword st) as [[|c p]|] eqn:Em;
      try (destruct (dataSource st), (user st)); peel_binds H; loaded H.
  - intros i H. unfold deleteEntry in H.
    destruct (isGuest st), (masterPassword st) as [[|c p]|] eqn:Em;
      try (destruct (dataSource st), (user st)); peel_binds H; loaded H.
  - intros H. unfold refreshEntries in H.
    destruct (dataSource st) as [ds|], (user st), (isGuest st),
             (masterPassword st) as [[|c p]|] eqn:Em; loaded H.
Qed.

(** X13.  No handler of the provider drops the master password or leaves a
    data source without one.  [setMasterPassword] that resolves leaves the
    password it was given as the one held; the effect and the handlers
    [addEntry], [updateEntry], [deleteEntry] and [refreshEntries] leave the
    held password as it was; and from a state in which a data source exists
    only with a master password, each of them leads to such a state. *)
Theorem handlers_never_drop_the_password st st' w w' :
  gate_consistent st ->
  (forall pw, setMasterPassword cloud SupabaseDataSource pw st w = (Ok st', w') ->
              masterPassword st' = Some pw /\ gate_consistent st') /\
  (useEffect cloud SupabaseDataSource st w = (Ok st', w') ->
   masterPassword st' = masterPassword st /\ gate_consistent st') /\
  (forall entry, addEntry entry st w = (Ok st', w') ->
                 masterPassword st' = masterPassword st /\ gate_consistent st') /\
  (forall i patch, updateEntry i patch st w = (Ok st', w') ->
                   masterPassword st' = masterPassword st /\ gate_consistent st') /\
  (forall i, deleteEntry i st w = (Ok st', w') ->
             masterPassword st' = masterPassword st /\ gate_consistent st') /\
  (refreshEntries st w = (Ok st', w') ->
   masterPassword st' = masterPassword st /\ gate_consistent st').
Proof.
  intros Hc.
  destruct (handlers_keep_the_password st st' w w') as (P1 & P2 & P3 & P4 & P5 & P6).
  destruct (ProviderFacts.handlers_keep_gate_consistent cloud SupabaseDataSource
              st st' w w' Hc) as (G1 & G2 & G3 & G4 & G5 & G6).
  repeat split; eauto.
Qed.
(** X17.  [loadLocalEntries] never rejects and always ends the loading
    state, keeping the master password that is held.  When the entries do
    not load, the message shown is "Invalid master password" and the entries
    and categories in memory stay as they were (the categories are not even
    read); when they load they replace the entries in memory.  Storage can
    change at the key of the categories only. *)
Theorem loadLocalEntries_never_rejects (password : jsstring) (st : State) (w : World) :
  exists st' w',
    loadLocalEntries password st w = (Ok st', w') /\
    loading st' = false /\
    masterPassword st' = masterPassword st /\
    (forall k, k <> CATEGORIES_KEY -> localStorage w' !! k = localStorage w !! k) /\
    match fst (getEntries password w) with
    | Throw _ =>
        error st' = Some "Invalid master password"%string /\
        entries st' = entries st /\ categories st' = categories st /\
        localStorage w' = localStorage w
    | Ok es => entries st' = es
    end.
Proof.
  unfold loadLocalEntries.
  destruct (getEntries_world password w) as [[es H]|[e H]]; rewrite H; cbn [fst].
  - destruct (getCategories_frame w) as ([cs|e] & w' & Hc & Hk); rewrite Hc;
      eexists _, _; (split; [reflexivity|]); repeat split; exact Hk.
  - eexists _, _. split; [reflexivity|]. repeat split.
Qed.

(** X14.  On a page with nothing stored, a guest's [setMasterPassword]
    resolves for every password, with no check of its length: the verifier
    of the password and the five default categories are stored, and the
    provider holds the password, no entries and the default categories, with
    loading ended.  No random byte is drawn. *)
Theorem guest_setMasterPassword_creates_the_vault
    (password : jsstring) (st : State) (w : World) :
  isGuest st = true ->
  truthy (localStorage w !! MASTER_PASSWORD_HASH_KEY) = false ->
  localStorage w !! ENTRIES_KEY = None ->
  truthy (localStorage w !! CATEGORIES_KEY) = false ->
  exists st' w',
    setMasterPassword cloud SupabaseDataSource password st w = (Ok st', w') /\
    masterPassword st' = Some password /\
    entries st' = [] /\ categories st' = defaultCategories /\
    loading st' = false /\ error st' = error st /\
    localStorage w'
    = <[CATEGORIES_KEY := stringify defaultCategories]>
        (<[MASTER_PASSWORD_HASH_KEY := hex (sha256 (UTF8.encode password))]>
           (localStorage w)) /\
    drawn w' = drawn w.
Proof.
  intros Hg Hm He Hc. unfold setMasterPassword. rewrite Hg.
  unfold LocalStorageService.hasMasterPassword.
  unfold bind at 1. unfold bind at 1. unfold getItem at 1. unfold ret at 1.
  rewrite Hm. unfold bind at 1. unfold ret at 1. cbn [negb].
  unfold bind at 1. unfold bind at 1. unfold getItem at 1. unfold ret at 1.
  rewrite Hm. cbn [negb].
  unfold bind at 1. unfold LocalStorageService.setMasterPassword, hashPassword.
  unfold bind at 1. unfold ret at 1. unfold setItem.
  unfold loadLocalEntries, getEntries, bind at 1, getItem.
  cbn [localStorage with_localStorage].
  rewrite lookup_insert_ne by discriminate. rewrite He. unfold ret at 1.
  unfold getCategories, bind at 1, getItem. cbn [localStorage with_localStorage].
  rewrite lookup_insert_ne by discriminate.
  destruct (localStorage w !! CATEGORIES_KEY) as [[|c t]|]; try discriminate Hc;
    eexists _, _; (split; [reflexivity|]); repeat split.
Qed.

(** X15.  Once a verifier is stored, a guest's [setMasterPassword] compares
    the hexadecimal SHA-256 digest of the password with it.  If they differ
    it rejects with [Error "Invalid master password"] and nothing changes
    (nothing is loaded, nothing is logged); if they agree it resolves holding
    the password, with loading ended, and leaves the verifier and the blob
    of the entries as they were. *)
Theorem guest_setMasterPassword_checks_the_verifier
    (password stored : jsstring) (st : State) (w : World) :
  isGuest st = true ->
  localStorage w !! MASTER_PASSWORD_HASH_KEY = Some stored -> stored <> [] ->
  (hex (sha256 (UTF8.encode password)) <> stored ->
   setMasterPassword cloud SupabaseDataSource password st w
   = (Throw (Error "Invalid master password"), w)) /\
  (hex (sha256 (UTF8.encode password)) = stored ->
   exists st' w',
     setMasterPassword cloud SupabaseDataSource password st w = (Ok st', w') /\
     masterPassword st' = Some password /\ loading st' = false /\
     localStorage w' !! MASTER_PASSWORD_HASH_KEY = Some stored /\
     localStorage w' !! ENTRIES_KEY = localStorage w !! ENTRIES_KEY).
Proof.
  intros Hg Hm Hne.
  destruct stored as [|c h]; [congruence|]. clear Hne.
  assert (Hstart : forall k : bool -> M State,
    (has <- LocalStorageService.hasMasterPassword ;;
     isValid <- (if has : bool then LocalStorageService.verifyMasterPassword password
                 else ret true) ;; k isValid) w
    = k (bool_decide (hex (sha256 (UTF8.encode password)) = c :: h)) w).
  { intros k. unfold LocalStorageService.hasMasterPassword.
    unfold bind at 1. unfold bind at 1. unfold getItem at 1. unfold ret at 1.
    rewrite Hm. cbn [truthy].
    unfold bind at 1. unfold verifyMasterPassword, bind at 1, getItem. rewrite Hm.
    reflexivity. }
  unfold setMasterPassword. rewrite Hg. rewrite Hstart. split.
  - intros Hne. rewrite bool_decide_eq_false_2 by exact Hne. reflexivity.
  - intros Heq. rewrite bool_decide_eq_true_2 by exact Heq. cbn [negb].
    unfold LocalStorageService.hasMasterPassword.
    unfold bind at 1. unfold bind at 1. unfold getItem at 1. unfold ret at 1.
    rewrite Hm. cbn [truthy negb]. unfold bind at 1. unfold ret at 1.
    destruct (loadLocalEntries_frame password (setMasterPasswordState password st) w)
      as (st' & w' & Hl & Hload & Hmp & Hk).
    exists st', w'. split; [exact Hl|]. split; [exact Hmp|]. split; [exact Hload|].
    split.
    + rewrite Hk by discriminate. exact Hm.
    + apply Hk. discriminate.
Qed.

(** X16.  In guest mode, with a master password held, the handlers write
    the list they hold in memory and never read the blob.  Whatever was
    stored before (another collection, or text that is no token at all):
    when the blob of the new list fits in one call, each of [addEntry],
    [updateEntry] and [deleteEntry] resolves and a load under the held
    password then returns exactly the entries of the new state; when it does
    not fit, the handler rejects with the [RangeError] of the spread and
    storage is as it was. *)
Theorem guest_handlers_store_the_list_in_memory
    (st : State) (c : Z) (p : jsstring) (entry : EntryInput) (i : jsstring)
    (patch : EntryPatch) (w : World) :
  aead_correct wc -> json_correct je ->
  isGuest st = true -> masterPassword st = Some (c :: p) ->
  (exists newEntry,
      id newEntry = format_uuid (uuid_bytes (map (entropy w) (seq (drawn w) 16))) /\
      title newEntry = in_title entry /\ username newEntry = in_username entry /\
      password newEntry = in_password entry /\ url newEntry = in_url entry /\
      category_id newEntry = in_category_id entry /\ tags newEntry = in_tags entry /\
      notes newEntry = in_notes entry /\
      strength_score newEntry = in_strength_score entry /\
      last_used newEntry = in_last_used entry /\
      created_at newEntry = clock w (ticks w) /\
      updated_at newEntry = clock w (S (ticks w)) /\
      if fits (stringify (newEntry :: entries st)) (c :: p)
              (with_drawn (drawn w + 16) w)
      then exists st' w',
             addEntry entry st w = (Ok st', w') /\
             entries st' = newEntry :: entries st /\
             getEntries (c :: p) w' = (Ok (entries st'), w')
      else exists w',
             addEntry entry st w = (Throw (RangeError w), w') /\
             localStorage w' = localStorage w) /\
  (exists updated,
      Forall2 (fun e e' =>
                 if bool_decide (id e = i)
                 then id e' = default (id e) (p_id patch) /\
                      title e' = default (title e) (p_title patch) /\
                      username e' = default (username e) (p_username patch) /\
                      password e' = default (password e) (p_password patch) /\
                      url e' = default (url e) (p_url patch) /\
                      category_id e' = default (category_id e) (p_category_id patch) /\
                      tags e' = default (tags e) (p_tags patch) /\
                      notes e' = default (notes e) (p_notes patch) /\
                      strength_score e'
                      = default (strength_score e) (p_strength_score patch) /\
                      last_used e' = default (last_used e) (p_last_used patch) /\
                      created_at e' = default (created_at e) (p_created_at patch) /\
                      exists k, updated_at e' = clock w (ticks w + k)
                 else e' = e) (entries st) updated /\
      if fits (stringify updated) (c :: p) w
      then exists st' w',
             updateEntry i patch st w = (Ok st', w') /\
             entries st' = updated /\
             getEntries (c :: p) w' = (Ok (entries st'), w')
      else exists w',
             updateEntry i patch st w = (Throw (RangeError w), w') /\
             localStorage w' = localStorage w) /\
  (let updated := List.filter (fun e => negb (bool_decide (id e = i))) (entries st) in
   if fits (stringify updated) (c :: p) w
   then exists st' w',
          deleteEntry i st w = (Ok st', w') /\
          entries st' = updated /\
          getEntries (c :: p) w' = (Ok (entries st'), w')
   else exists w',
          deleteEntry i st w = (Throw (RangeError w), w') /\
          localStorage w' = localStorage w).
Proof.
  intros Hwc Hje Hg Hm. split; [|split].
  - unfold addEntry. rewrite Hg, Hm.
    set (w2 := with_ticks (S (S (ticks w))) (with_drawn (drawn w + 16) w)).
    set (newEntry := new_entry entry
           (format_uuid (uuid_bytes (map (entropy w) (seq (drawn w) 16))))
           (clock w (ticks w)) (clock w (S (ticks w)))).
    exists newEntry. do 12 (split; [reflexivity|]).
    rewrite <-(fits_frame _ _ _ w2) by reflexivity.
    destruct (fits (stringify (newEntry :: entries st)) (c :: p) w2) eqn:Hfits.
    + destruct (saveEntries_getEntries (newEntry :: entries st) (c :: p) w2 Hwc Hje Hfits)
        as (token & w' & Hsave & _ & _ & Hget).
      exists (setEntries (newEntry :: entries st) st), w'.
      split; [|split; [reflexivity|exact Hget]].
      erewrite bind_ok by reflexivity. erewrite bind_ok by reflexivity.
      erewrite bind_ok by reflexivity. erewrite bind_ok by exact Hsave. reflexivity.
    + eexists. split.
      * erewrite bind_ok by reflexivity. erewrite bind_ok by reflexivity.
        erewrite bind_ok by reflexivity.
        erewrite bind_throw by (apply saveEntries_too_large; exact Hfits). reflexivity.
      * reflexivity.
  - unfold updateEntry. rewrite Hg, Hm.
    destruct (DataSourceTheorems.mapM_update_clock i patch (entries st) w)
      as (updated & n & Hmap & HF).
    exists updated. split.
    { eapply Forall2_impl; [exact HF|]. intros e e'. cbn.
      destruct (bool_decide (id e = i)); [|auto].
      intros [k ->]. do 11 (split; [reflexivity|]). exists k. reflexivity. }
    rewrite <-(fits_frame _ _ _ (with_ticks (ticks w + n) w)) by reflexivity.
    destruct (fits (stringify updated) (c :: p) (with_ticks (ticks w + n) w)) eqn:Hfits.
    + destruct (saveEntries_getEntries updated (c :: p) _ Hwc Hje Hfits)
        as (token & w' & Hsave & _ & _ & Hget).
      exists (setEntries updated st), w'.
      split; [|split; [reflexivity|exact Hget]].
      erewrite bind_ok by exact Hmap. erewrite bind_ok by exact Hsave. reflexivity.
    + eexists. split.
      * erewrite bind_ok by exact Hmap.
        erewrite bind_throw by (apply saveEntries_too_large; exact Hfits). reflexivity.
      * reflexivity.
  - intros updated. unfold deleteEntry. rewrite Hg, Hm. fold updated.
    destruct (fits (stringify updated) (c :: p) w) eqn:Hfits.
    + destruct (saveEntries_getEntries updated (c :: p) w Hwc Hje Hfits)
        as (token & w' & Hsave & _ & _ & Hget).
      exists (setEntries updated st), w'.
      split; [|split; [reflexivity|exact Hget]].
      erewrite bind_ok by exact Hsave. reflexivity.
    + eexists. split.
      * erewrite bind_throw by (apply saveEntries_too_large; exact Hfits). reflexivity.
      * reflexivity.
Qed.

End with_platform.

Lemma guest_setMasterPassword_creates_the_vault_witness :
  exists st' w',
    @setMasterPassword Toy.crypto Toy.json_entries Toy.json_categories false
      (@SupabaseDataSource.make Toy.crypto None) (js "short") (initial true None) Toy.world
    = (Ok st', w') /\
    masterPassword st' = Some (js "short") /\ entries st' = [] /\ loading st' = false.
Proof.
  destruct (@guest_setMasterPassword_creates_the_vault
              Toy.crypto Toy.json_entries Toy.json_categories false
              (@SupabaseDataSource.make Toy.crypto None) (js "short") (initial true None) Toy.world
              eq_refl eq_refl eq_refl eq_refl)
    as (st' & w' & H & Hm & He & _ & Hl & _).
  exists st', w'. auto.
Defined.

Lemma guest_setMasterPassword_checks_the_verifier_witness :
  @setMasterPassword Toy.crypto Toy.json_entries Toy.json_categories false
    (@SupabaseDataSource.make Toy.crypto None) (js "wrongpass") (initial true None) Toy.configured
  = (Throw (Error "Invalid master password"), Toy.configured) /\
  exists st' w',
    @setMasterPassword Toy.crypto Toy.json_entries Toy.json_categories false
      (@SupabaseDataSource.make Toy.crypto None) (js "longpass1") (initial true None) Toy.configured
    = (Ok st', w') /\
    masterPassword st' = Some (js "longpass1").
Proof.
  split.
  - refine (proj1 (@guest_setMasterPassword_checks_the_verifier
                     Toy.crypto Toy.json_entries Toy.json_categories false
                     (@SupabaseDataSource.make Toy.crypto None) (js "wrongpass")
                     (hex (Toy.digest (UTF8.encode (js "longpass1"))))
                     (initial true None) Toy.configured eq_refl _ _) _).
    + vm_compute. reflexivity.
    + vm_compute. discriminate.
    + vm_compute. discriminate.
  - destruct (proj2 (@guest_setMasterPassword_checks_the_verifier
                     Toy.crypto Toy.json_entries Toy.json_categories false
                     (@SupabaseDataSource.make Toy.crypto None) (js "longpass1")
                     (hex (Toy.digest (UTF8.encode (js "longpass1"))))
                     (initial true None) Toy.configured eq_refl
                     ltac:(vm_compute; reflexivity) ltac:(vm_compute; discriminate))
                eq_refl)
      as (st' & w' & H & Hm & _).
    exists st', w'. auto.
Defined.

Lemma guest_handlers_store_the_list_in_memory_witness :
  exists newEntry st' w',
    @addEntry Toy.crypto Toy.json_entries Toy.gmail Toy.unlocked Toy.garbled = (Ok st', w') /\
    entries st' = [newEntry] /\
    @getEntries Toy.crypto Toy.json_entries (js "longpass1") w' = (Ok [newEntry], w').
Proof.
  destruct (@guest_handlers_store_the_list_in_memory Toy.crypto Toy.json_entries
              Toy.unlocked 108%Z (js "ongpass1") Toy.gmail (js "7")
              {| p_id := None; p_title := None; p_username := None; p_password := None;
                 p_url := None; p_category_id := None; p_tags := None; p_notes := None;
                 p_strength_score := None; p_last_used := None; p_created_at := None;
                 p_updated_at := None |} Toy.garbled
              ToyFacts.crypto_correct ToyFacts.json_entries_correct eq_refl eq_refl)
    as [(n & Hid & Ht & Hu & Hp & Hl & Hc & Hg & Hn & Hs & Hd & Hca & Hua & Hrun) _].
  assert (E : n = new_entry Toy.gmail
                    (format_uuid (uuid_bytes (map (entropy Toy.garbled)
                                                  (seq (drawn Toy.garbled) 16))))
                    (clock Toy.garbled (ticks Toy.garbled))
                    (clock Toy.garbled (S (ticks Toy.garbled)))).
  { destruct n.
    cbn [id title username password url category_id tags notes strength_score
         last_used created_at updated_at] in *.
    subst. reflexivity. }
  rewrite E in Hrun.
  assert (Hfits : @fits Toy.crypto
            (@stringify _ Toy.json_entries
               (new_entry Toy.gmail
                  (format_uuid (uuid_bytes (map (entropy Toy.garbled)
                                                (seq (drawn Toy.garbled) 16))))
                  (clock Toy.garbled (ticks Toy.garbled))
                  (clock Toy.garbled (S (ticks Toy.garbled))) :: entries Toy.unlocked))
            (108%Z :: js "ongpass1") (with_drawn (drawn Toy.garbled + 16) Toy.garbled)
          = true) by (vm_compute; reflexivity).
  rewrite Hfits in Hrun. destruct Hrun as (st' & w' & Ha & He & Hget).
  rewrite He in Hget. rewrite <-E in He, Hget.
  exists n, st', w'. split; [exact Ha|]. split; [exact He | exact Hget].
Defined.

Lemma handlers_never_drop_the_password_witness :
  let cloud_source := @SupabaseDataSource.make Toy.crypto (Some (Toy.client [])) in
  exists st',
    @setMasterPassword Toy.crypto Toy.json_entries Toy.json_categories true cloud_source
      (js "longpass1") (initial false (Some (js "user-1"))) Toy.world
    = (Ok st', Toy.world) /\
    dataSource st' = Some (cloud_source (js "user-1") (js "longpass1")) /\
    masterPassword st' = Some (js "longpass1") /\
    gate_consistent st'.
Proof.
  intros cloud_source. eexists. split; [reflexivity|]. split; [reflexivity|].
  refine (proj1
    (@handlers_never_drop_the_password Toy.crypto Toy.json_entries
       Toy.json_categories true cloud_source
       (initial false (Some (js "user-1"))) _ Toy.world Toy.world
       (ProviderFacts.initial_gate_consistent false (Some (js "user-1"))))
    (js "longpass1") eq_refl).
Defined.

End ProviderExtras.

(** * PasswordGenerator.generate and more on calculateStrength *)

Module GeneratorFacts.
Import PasswordGenerator.

Lemma length_uint32s n bs : length bs = 4 * n -> length (uint32s bs) = n.
Proof.
  revert bs. induction n as [|n IH]; intros bs H.
  - destruct bs; [reflexivity | discriminate].
  - destruct bs as [|b0 [|b1 [|b2 [|b3 rest]]]]; cbn [length] in H; try lia.
    cbn [uint32s length]. f_equal. apply IH. lia.
Qed.

Lemma getRandomUint32Array_run n w :
  (Z.of_nat n <= 16384)%Z ->
  getRandomUint32Array n w
  = (Ok (uint32s (map (entropy w) (seq (drawn w) (4 * n)))),
     with_drawn (drawn w + 4 * n) w).
Proof.
  intros Hn. unfold getRandomUint32Array.
  destruct (65536 <? 4 * Z.of_nat n)%Z eqn:E; [lia|]. reflexivity.
Qed.

Lemma length_random_array n w :
  length (uint32s (map (entropy w) (seq (drawn w) (4 * n)))) = n.
Proof. apply length_uint32s. now rewrite length_map, length_seq. Qed.

Lemma pick_in set v :
  set <> [] -> exists c, pick set (Some v) = [c] /\ In c set.
Proof.
  intros Hset. unfold pick.
  assert (Hlt : Z.to_nat (v mod Z.of_nat (length set)) < length set).
  { destruct set as [|a set']; [congruence|]. cbn [length].
    pose proof (Z.mod_pos_bound v (Z.of_nat (S (length set'))) ltac:(lia)). lia. }
  destruct (nth_error set (Z.to_nat (v mod Z.of_nat (length set)))) as [c|] eqn:E.
  - exists c. split; [reflexivity|]. eapply nth_error_In. exact E.
  - apply nth_error_None in E. lia.
Qed.

Lemma draft_spec set array :
  set <> [] ->
  length (flat_map (fun v => pick set (Some v)) array) = length array /\
  Forall (fun c => In c set) (flat_map (fun v => pick set (Some v)) array).
Proof.
  intros Hset. induction array as [|v array [IHl IHf]]; [split; [reflexivity|constructor]|].
  cbn [flat_map]. destruct (pick_in set v Hset) as (c & -> & Hc).
  cbn [app length]. split; [now rewrite IHl | now constructor].
Qed.

(** One fix-up on a password that is not empty: the tail is kept, and the
    head is either kept or, when the class was selected and missing, taken
    from the characters of the class. *)
Lemma ensure_class_head selected cls set v array a rest :
  set <> [] ->
  exists x,
    ensure_class selected cls set (v :: array) (a :: rest) = x :: rest /\
    ((x = a /\ (selected = false \/ test_class cls (a :: rest) = true)) \/
     (In x set /\ selected = true /\ test_class cls (a :: rest) = false)).
Proof.
  intros Hset. unfold ensure_class.
  destruct selected; cbn [andb].
  - destruct (test_class cls (a :: rest)) eqn:E; cbn [negb].
    + exists a. split; [reflexivity|]. left. auto.
    + cbn [hd_error]. destruct (pick_in set v Hset) as (x & -> & Hx).
      exists x. split; [reflexivity|]. right. auto.
  - exists a. split; [reflexivity|]. left. auto.
Qed.

Lemma ensure_class_present selected cls set v array a rest :
  set <> [] -> Forall (fun c => cls c = true) set -> selected = true ->
  test_class cls (ensure_class selected cls set (v :: array) (a :: rest)) = true.
Proof.
  intros Hset Hcls ->.
  destruct (ensure_class_head true cls set v array a rest Hset)
    as (x & -> & [[-> [H|H]]|(Hx & _ & _)]).
  - discriminate.
  - exact H.
  - unfold test_class. cbn [existsb]. rewrite List.Forall_forall in Hcls.
    now rewrite (Hcls x Hx).
Qed.

Lemma classes_of_the_sets :
  Forall (fun c => is_upper c = true) UPPERCASE /\
  Forall (fun c => is_lower c = true) LOWERCASE /\
  Forall (fun c => is_digit c = true) NUMBERS /\
  Forall (fun c => is_special c = true) SPECIAL.
Proof.
  repeat split; apply List.Forall_forall; intros c Hc; vm_compute in Hc;
    repeat (destruct Hc as [<-|Hc]; [reflexivity|]); destruct Hc.
Qed.

Lemma sets_nonempty :
  UPPERCASE <> [] /\ LOWERCASE <> [] /\ NUMBERS <> [] /\ SPECIAL <> [].
Proof. repeat split; discriminate. Qed.

Lemma is_special_in c : is_special c = true -> In c SPECIAL.
Proof.
  unfold is_special. rewrite existsb_exists. intros (x & Hx & E).
  apply Z.eqb_eq in E. now subst.
Qed.

(** A special character is no letter and no digit. *)
Lemma special_is_no_letter c :
  is_special c = true -> is_upper c = false /\ is_lower c = false /\ is_digit c = false.
Proof.
  intros H. apply is_special_in in H. vm_compute in H.
  repeat (destruct H as [<-|H]; [repeat split|]); destruct H.
Qed.

Lemma letters_are_not_special c :
  In c (UPPERCASE ++ LOWERCASE ++ NUMBERS) -> is_special c = false.
Proof.
  intros H. vm_compute in H.
  repeat (destruct H as [<-|H]; [reflexivity|]); destruct H.
Qed.

Lemma charset_nonempty options :
  (PasswordOptions.uppercase options || PasswordOptions.lowercase options
   || PasswordOptions.numbers options || PasswordOptions.special options) = true ->
  charset_of options <> [].
Proof.
  unfold charset_of.
  destruct (PasswordOptions.uppercase options), (PasswordOptions.lowercase options),
           (PasswordOptions.numbers options), (PasswordOptions.special options);
    cbn; (discriminate || congruence).
Qed.

Lemma charset_incl options :
  (PasswordOptions.uppercase options = true -> incl UPPERCASE (charset_of options)) /\
  (PasswordOptions.lowercase options = true -> incl LOWERCASE (charset_of options)) /\
  (PasswordOptions.numbers options = true -> incl NUMBERS (charset_of options)) /\
  (PasswordOptions.special options = true -> incl SPECIAL (charset_of options)).
Proof.
  unfold charset_of. repeat split; intros -> c Hc; rewrite !in_app_iff; auto.
Qed.

(** What [generate] computes once the random values are there. *)
Lemma generate_run options w :
  charset_of options <> [] -> (Z.of_nat (PasswordOptions.length options) <= 16384)%Z ->
  generate options w
  = (Ok (let array := uint32s (map (entropy w)
                                   (seq (drawn w) (4 * PasswordOptions.length options))) in
         ensure_class (PasswordOptions.special options) is_special SPECIAL array
           (ensure_class (PasswordOptions.numbers options) is_digit NUMBERS array
              (ensure_class (PasswordOptions.lowercase options) is_lower LOWERCASE array
                 (ensure_class (PasswordOptions.uppercase options) is_upper UPPERCASE array
                    (flat_map (fun v => pick (charset_of options) (Some v)) array))))),
     with_drawn (drawn w + 4 * PasswordOptions.length options) w).
Proof.
  intros Hc Hn. unfold generate.
  destruct (length (charset_of options) =? 0)%nat eqn:E.
  - apply Nat.eqb_eq in E. destruct (charset_of options); [congruence|discriminate].
  - unfold bind. rewrite getRandomUint32Array_run by exact Hn. reflexivity.
Qed.

End GeneratorFacts.

Module GeneratorTheorems.
Import PasswordGenerator GeneratorFacts.

(** X18.  Two edges of [generate].  With no class selected it throws
    [Error "At least one character type must be selected"] before anything
    is drawn, whatever the length.  With a class selected and the length 0
    it resolves, drawing nothing, and the password is not empty: the fix-up
    reads a random value that is not there, and the text [undefined] is
    what gets put in front. *)
Theorem generate_edges (options : PasswordOptions.t) (w : World) :
  ((PasswordOptions.uppercase options || PasswordOptions.lowercase options
    || PasswordOptions.numbers options || PasswordOptions.special options) = false ->
   generate options w
   = (Throw (Error "At least one character type must be selected"), w)) /\
  ((PasswordOptions.uppercase options || PasswordOptions.lowercase options
    || PasswordOptions.numbers options || PasswordOptions.special options) = true ->
   PasswordOptions.length options = 0 ->
   exists password w',
     generate options w = (Ok password, w') /\
     firstn 9 password = js "undefined" /\
     drawn w' = drawn w /\ localStorage w' = localStorage w).
Proof.
  split.
  - intros H. unfold generate, charset_of.
    destruct (PasswordOptions.uppercase options), (PasswordOptions.lowercase options),
             (PasswordOptions.numbers options), (PasswordOptions.special options);
      try discriminate H. reflexivity.
  - intros H Hn. pose proof (charset_nonempty options H) as Hc.
    eexists _, _. split; [apply generate_run; [exact Hc | lia]|].
    rewrite Hn. cbn [Nat.mul seq map uint32s flat_map drawn with_drawn localStorage].
    split; [|split; [lia | reflexivity]].
    unfold ensure_class. cbn [hd_error pick].
    destruct (PasswordOptions.uppercase options), (PasswordOptions.lowercase options),
             (PasswordOptions.numbers options), (PasswordOptions.special options);
      try discriminate H; reflexivity.
Qed.

(** X19.  For a length from 1 to 16384 and at least one class selected,
    [generate] returns a password of exactly the requested length whose
    characters all belong to the selected classes, and draws four random
    bytes per character. *)
Theorem generate_length_and_alphabet (options : PasswordOptions.t) (w : World) :
  (PasswordOptions.uppercase options || PasswordOptions.lowercase options
   || PasswordOptions.numbers options || PasswordOptions.special options) = true ->
  (1 <= Z.of_nat (PasswordOptions.length options) <= 16384)%Z ->
  exists password w',
    generate options w = (Ok password, w') /\
    length password = PasswordOptions.length options /\
    Forall (fun c => In c (charset_of options)) password /\
    w' = with_drawn (drawn w + 4 * PasswordOptions.length options) w.
Proof.
  intros Hsel [Hn1 Hn2]. pose proof (charset_nonempty options Hsel) as Hc.
  eexists _, _. split; [apply generate_run; assumption|].
  cbv zeta.
  set (array := uint32s _).
  assert (Hlen : length array = PasswordOptions.length options) by apply length_random_array.
  destruct (draft_spec (charset_of options) array Hc) as [Hdl Hdf].
  set (first := flat_map _ array) in *.
  clearbody first. clearbody array.
  destruct array as [|v array']; [cbn [length] in Hlen; clear - Hlen Hn1; lia|].
  destruct first as [|a rest]; [cbn [length] in Hdl; clear - Hdl; lia|].
  cbn [length] in Hlen, Hdl.
  destruct sets_nonempty as (HU & HL & HN & HS).
  destruct (charset_incl options) as (IU & IL & IN_ & IS).
  inversion Hdf as [|? ? Ha Hrest]; subst.
  destruct (ensure_class_head (PasswordOptions.uppercase options) is_upper UPPERCASE
              v array' a rest HU) as (x1 & -> & H1).
  destruct (ensure_class_head (PasswordOptions.lowercase options) is_lower LOWERCASE
              v array' x1 rest HL) as (x2 & -> & H2).
  destruct (ensure_class_head (PasswordOptions.numbers options) is_digit NUMBERS
              v array' x2 rest HN) as (x3 & -> & H3).
  destruct (ensure_class_head (PasswordOptions.special options) is_special SPECIAL
              v array' x3 rest HS) as (x4 & -> & H4).
  split; [cbn [length]; clear - Hlen Hdl; lia|]. split; [|reflexivity].
  constructor; [|exact Hrest].
  assert (I1 : In x1 (charset_of options)).
  { destruct H1 as [[-> _]|(Hx & Hs & _)]; [exact Ha | exact (IU Hs _ Hx)]. }
  assert (I2 : In x2 (charset_of options)).
  { destruct H2 as [[-> _]|(Hx & Hs & _)]; [exact I1 | exact (IL Hs _ Hx)]. }
  assert (I3 : In x3 (charset_of options)).
  { destruct H3 as [[-> _]|(Hx & Hs & _)]; [exact I2 | exact (IN_ Hs _ Hx)]. }
  destruct H4 as [[-> _]|(Hx & Hs & _)]; [exact I3 | exact (IS Hs _ Hx)].
Qed.

(** X20.  Of the selected classes, the one that is tested last (special,
    else digits, else lowercase, else uppercase) is always represented in
    the password that [generate] returns. *)
Theorem generate_holds_the_last_selected_class (options : PasswordOptions.t) (w : World) :
  (PasswordOptions.uppercase options || PasswordOptions.lowercase options
   || PasswordOptions.numbers options || PasswordOptions.special options) = true ->
  (1 <= Z.of_nat (PasswordOptions.length options) <= 16384)%Z ->
  exists password w',
    generate options w = (Ok password, w') /\
    (PasswordOptions.special options = true -> test_class is_special password = true) /\
    (PasswordOptions.special options = false -> PasswordOptions.numbers options = true ->
     test_class is_digit password = true) /\
    (PasswordOptions.special options = false -> PasswordOptions.numbers options = false ->
     PasswordOptions.lowercase options = true -> test_class is_lower password = true) /\
    (PasswordOptions.special options = false -> PasswordOptions.numbers options = false ->
     PasswordOptions.lowercase options = false ->
     PasswordOptions.uppercase options = true -> test_class is_upper password = true).
Proof.
  intros Hsel [Hn1 Hn2].
  eexists _, _. split; [apply generate_run; [apply charset_nonempty|]; assumption|].
  cbv zeta.
  set (array := uint32s _).
  assert (Hlen : length array = PasswordOptions.length options) by apply length_random_array.
  set (first := flat_map _ array).
  assert (Hfirst : array <> [] -> exists a rest, first = a :: rest).
  { unfold first. destruct array as [|v0 array0]; [congruence|]. intros _.
    cbn [flat_map]. unfold pick at 1.
    destruct (nth_error _ _); cbn [app]; eauto. }
  clearbody first. clearbody array.
  destruct array as [|v array']; [cbn [length] in Hlen; clear - Hlen Hn1; lia|].
  destruct Hfirst as (a & rest & ->); [discriminate|].
  destruct sets_nonempty as (HU & HL & HN & HS).
  destruct classes_of_the_sets as (CU & CL & CN & CS).
  destruct (ensure_class_head (PasswordOptions.uppercase options) is_upper UPPERCASE
              v array' a rest HU) as (x1 & E1 & _).
  destruct (ensure_class_head (PasswordOptions.lowercase options) is_lower LOWERCASE
              v array' x1 rest HL) as (x2 & E2 & _).
  destruct (ensure_class_head (PasswordOptions.numbers options) is_digit NUMBERS
              v array' x2 rest HN) as (x3 & E3 & _).
  split; [|split; [|split]].
  - intros Hs. rewrite E1, E2, E3. now apply ensure_class_present.
  - intros -> Hs. unfold ensure_class at 1. cbn [andb].
    rewrite E1, E2. now apply ensure_class_present.
  - intros -> -> Hs. unfold ensure_class at 1 2. cbn [andb].
    rewrite E1. now apply ensure_class_present.
  - intros -> -> -> Hs. unfold ensure_class at 1 2 3. cbn [andb].
    now apply ensure_class_present.
Qed.

(** X21.  A selected class can be missing from the result: every fix-up
    overwrites the first character, so when uppercase and special are both
    selected and the characters first drawn hold neither, the special
    character put in last replaces the uppercase letter put in before, and
    the password returned has no uppercase letter. *)
Theorem generate_can_miss_a_selected_class (options : PasswordOptions.t) (w : World) :
  let array :=
    uint32s (map (entropy w) (seq (drawn w) (4 * PasswordOptions.length options))) in
  let first := flat_map (fun v => pick (charset_of options) (Some v)) array in
  (1 <= Z.of_nat (PasswordOptions.length options) <= 16384)%Z ->
  PasswordOptions.uppercase options = true -> PasswordOptions.special options = true ->
  test_class is_upper first = false -> test_class is_special first = false ->
  exists password w',
    generate options w = (Ok password, w') /\
    length password = PasswordOptions.length options /\
    test_class is_special password = true /\
    test_class is_upper password = false.
Proof.
  intros array first [Hn1 Hn2] HselU HselS HnoU HnoS.
  assert (Hc : charset_of options <> []).
  { apply charset_nonempty. rewrite HselU. reflexivity. }
  eexists _, _. split; [apply generate_run; assumption|].
  cbv zeta. fold array. fold first.
  assert (Hlen : length array = PasswordOptions.length options) by apply length_random_array.
  destruct (draft_spec (charset_of options) array Hc) as [Hdl _]. fold first in Hdl.
  clearbody first. clearbody array.
  destruct array as [|v array']; [cbn [length] in Hlen; clear - Hlen Hn1; lia|].
  destruct first as [|a rest]; [cbn [length] in Hdl; clear - Hdl; lia|].
  cbn [length] in Hlen, Hdl.
  destruct sets_nonempty as (HU & HL & HN & HS).
  destruct classes_of_the_sets as (CU & CL & CN & CS).
  rewrite List.Forall_forall in CU, CL, CN, CS.
  unfold test_class in HnoU, HnoS. cbn [existsb] in HnoU, HnoS.
  apply orb_false_iff in HnoU, HnoS. destruct HnoU as [HaU HrU], HnoS as [HaS HrS].
  destruct (ensure_class_head (PasswordOptions.uppercase options) is_upper UPPERCASE
              v array' a rest HU) as (x1 & -> & H1).
  assert (S1 : is_special x1 = false).
  { destruct H1 as [[-> _]|(Hx & _)]; [exact HaS|].
    apply letters_are_not_special. rewrite !in_app_iff. auto. }
  destruct (ensure_class_head (PasswordOptions.lowercase options) is_lower LOWERCASE
              v array' x1 rest HL) as (x2 & -> & H2).
  assert (S2 : is_special x2 = false).
  { destruct H2 as [[-> _]|(Hx & _)]; [exact S1|].
    apply letters_are_not_special. rewrite !in_app_iff. auto. }
  destruct (ensure_class_head (PasswordOptions.numbers options) is_digit NUMBERS
              v array' x2 rest HN) as (x3 & -> & H3).
  assert (S3 : is_special x3 = false).
  { destruct H3 as [[-> _]|(Hx & _)]; [exact S2|].
    apply letters_are_not_special. rewrite !in_app_iff. auto. }
  destruct (ensure_class_head (PasswordOptions.special options) is_special SPECIAL
              v array' x3 rest HS) as (x4 & -> & H4).
  destruct H4 as [[-> [H4|H4]]|(Hx & _ & _)].
  - congruence.
  - unfold test_class in H4. cbn [existsb] in H4. rewrite S3, HrS in H4. discriminate.
  - split; [cbn [length]; clear - Hlen Hdl; lia|]. unfold test_class. cbn [existsb].
    rewrite (CS x4 Hx), HrU. split; [reflexivity|].
    now rewrite (proj1 (special_is_no_letter x4 (CS x4 Hx))).
Qed.

Lemma generate_length_and_alphabet_witness :
  exists password w',
    generate Toy.letters_and_symbols Toy.steady = (Ok password, w') /\
    length password = 8 /\ drawn w' = 32.
Proof.
  destruct (generate_length_and_alphabet Toy.letters_and_symbols Toy.steady eq_refl
              ltac:(cbn; lia))
    as (password & w' & Hg & Hl & _ & Hw).
  subst w'. eexists _, _. split; [exact Hg|]. split; [exact Hl | reflexivity].
Defined.

Lemma generate_holds_the_last_selected_class_witness :
  exists password w',
    generate Toy.letters_and_symbols Toy.steady = (Ok password, w') /\
    test_class is_special password = true.
Proof.
  destruct (generate_holds_the_last_selected_class Toy.letters_and_symbols Toy.steady
              eq_refl ltac:(cbn; lia))
    as (password & w' & Hg & Hs & _).
  exists password, w'. split; [exact Hg | apply Hs; reflexivity].
Defined.

Lemma generate_can_miss_a_selected_class_witness :
  PasswordOptions.uppercase Toy.letters_and_symbols = true /\
  exists password w',
    generate Toy.letters_and_symbols Toy.steady = (Ok password, w') /\
    length password = 8 /\
    test_class is_special password = true /\
    test_class is_upper password = false.
Proof.
  split; [reflexivity|].
  apply (generate_can_miss_a_selected_class Toy.letters_and_symbols Toy.steady).
  - cbn. lia.
  - reflexivity.
  - reflexivity.
  - vm_compute. reflexivity.
  - vm_compute. reflexivity.
Defined.

End GeneratorTheorems.

Module StrengthExtras.
Import PasswordGenerator StrengthTheorems.
Local Open Scope Z_scope.

Lemma bonus_mono (b1 b2 : bool) n :
  0 <= n -> (b1 = true -> b2 = true) -> bonus b1 n <= bonus b2 n.
Proof.
  intros Hn H. unfold bonus. destruct b1, b2; first [lia | discriminate (H eq_refl)].
Qed.

Lemma bonus_multiple b n : (5 | n) -> (5 | bonus b n).
Proof. intros H. unfold bonus. destruct b; [exact H | apply Z.divide_0_r]. Qed.

Lemma test_class_extended cls pre s post :
  test_class cls s = true -> test_class cls (pre ++ s ++ post) = true.
Proof.
  unfold test_class. intros H. rewrite !List.existsb_app.
  apply orb_true_iff. right. apply orb_true_iff. left. exact H.
Qed.

Lemma any_then_class_suffix cls s post :
  any_then_class cls s = true -> any_then_class cls (s ++ post) = true.
Proof.
  induction s as [|c s IH]; [discriminate|].
  intros H. cbn [any_then_class app] in *. destruct (cls c); [reflexivity|].
  cbn [orb] in *. destruct (is_line_terminator c); cbn [negb andb] in *;
    [discriminate | now apply IH].
Qed.

Lemma test_class_twice_suffix cls s post :
  test_class_twice cls s = true -> test_class_twice cls (s ++ post) = true.
Proof.
  induction s as [|c s IH]; [discriminate|].
  cbn [test_class_twice app]. intros H. apply orb_true_iff in H. apply orb_true_iff.
  destruct H as [H|H]; [left | right; now apply IH].
  apply andb_true_iff in H. destruct H as [Hc Ha].
  now rewrite Hc, (any_then_class_suffix cls s post Ha).
Qed.

Lemma test_class_twice_prefix cls pre s :
  test_class_twice cls s = true -> test_class_twice cls (pre ++ s) = true.
Proof.
  intros H. induction pre as [|c pre IH]; [exact H|].
  cbn [test_class_twice app]. rewrite IH. apply orb_true_r.
Qed.

Lemma test_class_twice_extended cls pre s post :
  test_class_twice cls s = true -> test_class_twice cls (pre ++ s ++ post) = true.
Proof.
  intros H. apply test_class_twice_prefix. now apply test_class_twice_suffix.
Qed.

(** X22.  The score of [calculateStrength] is a multiple of 5 between 0 and
    100, and the label and the colour go with it: Strong and green from 80,
    Good and blue from 60, Fair and amber from 40, Weak and red below. *)
Theorem strength_score_and_label (password : jsstring) :
  let s := calculateStrength password in
  0 <= score s <= 100 /\ (5 | score s) /\
  (label s, color s)
  = (if 80 <=? score s then ("Strong"%string, "#059669"%string)
     else if 60 <=? score s then ("Good"%string, "#3B82F6"%string)
     else if 40 <=? score s then ("Fair"%string, "#F59E0B"%string)
     else ("Weak"%string, "#EF4444"%string)).
Proof.
  cbv zeta. split; [apply score_range|]. split.
  - unfold calculateStrength. cbn [score].
    apply Z.min_case; [|exists 20; reflexivity].
    repeat apply Z.divide_add_r; try apply bonus_multiple;
      try (apply Z.divide_0_r);
      first [exists 4; reflexivity | exists 3; reflexivity
            | exists 2; reflexivity | exists 1; reflexivity].
  - unfold calculateStrength. cbn [score label color].
    set (s := Z.min _ 100). clearbody s. rewrite !Z.geb_leb.
    destruct (80 <=? s); [reflexivity|].
    destruct (60 <=? s); [reflexivity|].
    destruct (40 <=? s); reflexivity.
Qed.

(** X23.  Adding characters never lowers the score: the score of a password
    with characters put before and after it is at least the score of the
    password. *)
Theorem strength_never_drops_when_extended (pre password post : jsstring) :
  score (calculateStrength password)
  <= score (calculateStrength (pre ++ password ++ post)).
Proof.
  unfold calculateStrength. cbn [score].
  apply Z.min_le_compat_r.
  assert (Hlen : Z.of_nat (length password)
                 <= Z.of_nat (length (pre ++ password ++ post))).
  { rewrite !length_app. lia. }
  repeat apply Z.add_le_mono; try reflexivity;
    (apply bonus_mono; [lia|]);
    first [ apply test_class_twice_extended
          | apply test_class_extended
          | rewrite !Z.geb_leb; intros H; apply Z.leb_le in H; apply Z.leb_le; lia ].
Qed.

Lemma score_as_specified_on_one_line_witness :
  score (calculateStrength (js "Aa1!aaaa")) = specified_score (js "Aa1!aaaa").
Proof.
  apply score_as_specified_on_one_line.
  repeat constructor.
Defined.

End StrengthExtras.

(** * SupabaseDataSource *)

Module CloudTheorems.
Import EncryptionService EncryptionFacts.

Section with_platform.
Context {wc : WebCrypto}.

Lemma encrypt_opens P S w :
  aead_correct wc -> UTF8.preserved_text P ->
  exists token,
    encrypt P S w
    = (if fits P S w then Ok token else Throw (RangeError w),
       with_drawn (drawn w + 28) w) /\
    forall w', decrypt token S w' = (Ok P, w').
Proof.
  intros Hwc HP. eexists. split; [apply encrypt_run|]. intros w'.
  rewrite decrypt_token by (apply length_next_salt || apply length_next_nonce).
  unfold sealed. rewrite Hwc, UTF8Facts.decode_encode by assumption. reflexivity.
Qed.

Lemma open_rows_ok S (rows rows' : list PasswordEntry) w :
  Forall2 (fun r r' => decrypt (password r) S w = (Ok (password r'), w) /\
                       r' = with_password r (password r')) rows rows' ->
  mapM (fun r => p <- decrypt (password r) S ;; ret (with_password r p)) rows w
  = (Ok rows', w).
Proof.
  induction 1 as [|r r' rows rows' [Hd Hr] _ IH]; [reflexivity|].
  cbn [mapM]. erewrite bind_ok by (erewrite bind_ok by exact Hd; reflexivity).
  erewrite bind_ok by exact IH. unfold ret. now rewrite <-Hr.
Qed.

Lemma open_rows_throw S (rows : list PasswordEntry) w :
  Exists (fun r => decrypt (password r) S w = (Throw DECRYPTION_FAILED, w)) rows ->
  mapM (fun r => p <- decrypt (password r) S ;; ret (with_password r p)) rows w
  = (Throw DECRYPTION_FAILED, w).
Proof.
  induction 1 as [r rows Hd|r rows _ IH].
  - cbn [mapM]. apply bind_throw. apply bind_throw. exact Hd.
  - cbn [mapM]. destruct (EncryptionTheorems.decrypt_outcome (password r) S w) as [Hd|[p Hp]].
    + apply bind_throw. apply bind_throw. exact Hd.
    + erewrite bind_ok by (erewrite bind_ok by exact Hp; reflexivity).
      apply bind_throw. exact IH.
Qed.

(** X25.  The cloud data source opens the rows it is given all together:
    when every stored password opens under the encryption password, the load
    returns the rows in their order with the passwords in clear; when a
    single one does not open, the whole load rejects with the generic
    decryption error and no entry is returned. *)
Theorem cloud_load_is_all_or_nothing
    (sb : SupabaseClient) (encryptionPassword : jsstring)
    (rows : list PasswordEntry) (w w1 : World) :
  select_password_entries sb w = (Ok rows, w1) ->
  (forall rows',
      Forall2 (fun r r' =>
                 decrypt (password r) encryptionPassword w1 = (Ok (password r'), w1) /\
                 r' = with_password r (password r')) rows rows' ->
      SupabaseDataSource.loadEntries (Some sb) encryptionPassword w = (Ok rows', w1)) /\
  (Exists (fun r => decrypt (password r) encryptionPassword w1
                    = (Throw DECRYPTION_FAILED, w1)) rows ->
   SupabaseDataSource.loadEntries (Some sb) encryptionPassword w
   = (Throw DECRYPTION_FAILED, w1)).
Proof.
  intros Hsel. unfold SupabaseDataSource.loadEntries, SupabaseDataSource.ensureSupabase.
  split.
  - intros rows' H. erewrite bind_ok by reflexivity. erewrite bind_ok by exact Hsel.
    now apply open_rows_ok.
  - intros H. erewrite bind_ok by reflexivity. erewrite bind_ok by exact Hsel.
    now apply open_rows_throw.
Qed.

(** X26.  [addEntry] of the cloud data source seals the password first and
    rejects with the [RangeError] of the spread when the password is too
    large for one call.  Otherwise it hands the backend the entry with the
    password replaced by the token, which opens, under the encryption
    password, to the password given; every other field goes out as it was
    given.  What it returns is the row of the backend with the password in
    clear again; an error of the backend is passed on. *)
Theorem cloud_addEntry_encrypts_the_password_only
    (sb : SupabaseClient) (userId encryptionPassword : jsstring)
    (entry : EntryInput) (w : World) :
  aead_correct wc -> UTF8.preserved_text (in_password entry) ->
  exists token payload,
    payload = with_in_password entry token /\
    in_password payload = token /\
    (forall w', decrypt token encryptionPassword w' = (Ok (in_password entry), w')) /\
    SupabaseDataSource.addEntry (Some sb) userId encryptionPassword entry w
    = (if fits (in_password entry) encryptionPassword w
       then match insert_password_entry sb payload userId
                    (with_drawn (drawn w + 28) w) with
            | (Ok data, w2) => (Ok (with_password data (in_password entry)), w2)
            | (Throw e, w2) => (Throw e, w2)
            end
       else (Throw (RangeError w), with_drawn (drawn w + 28) w)) /\
    in_title payload = in_title entry /\ in_username payload = in_username entry /\
    in_url payload = in_url entry /\ in_notes payload = in_notes entry /\
    in_category_id payload = in_category_id entry /\ in_tags payload = in_tags entry /\
    in_strength_score payload = in_strength_score entry /\
    in_last_used payload = in_last_used entry.
Proof.
  intros Hwc HP.
  destruct (encrypt_opens (in_password entry) encryptionPassword w Hwc HP)
    as (token & Henc & Hdec).
  exists token, (with_in_password entry token).
  split; [reflexivity|]. split; [reflexivity|]. split; [exact Hdec|].
  split; [|repeat split].
  unfold SupabaseDataSource.addEntry, SupabaseDataSource.ensureSupabase.
  erewrite bind_ok by reflexivity. unfold bind at 1. rewrite Henc.
  destruct (fits (in_password entry) encryptionPassword w); [|reflexivity].
  unfold bind, ret.
  destruct (insert_password_entry sb _ userId _) as [[data|e] w2]; reflexivity.
Qed.


(** X28.  Without a Supabase client every method of the cloud data source
    rejects with [Error "Supabase is disabled"] before anything else happens
    (no random byte is drawn, nothing is encrypted), and a provider that
    loads from such a source does not reject: it shows that message and ends
    the loading state, keeping the entries it had. *)
Theorem disabled_cloud_source_only_reports
    (userId encryptionPassword i : jsstring) (entry : EntryInput) (patch : EntryPatch)
    (je : JSON (list PasswordEntry)) (jc : JSON (list Category))
    (st : VaultProvider.State) (w : World) :
  let source := SupabaseDataSource.make None userId encryptionPassword in
  let disabled {A} : result A * World := (Throw (Error "Supabase is disabled"), w) in
  VaultDataSource.loadEntries source w = disabled /\
  VaultDataSource.loadCategories source w = disabled /\
  VaultDataSource.addEntry source entry (Some userId) w = disabled /\
  VaultDataSource.updateEntry source i patch w = disabled /\
  VaultDataSource.deleteEntry source i w = disabled /\
  VaultProvider.loadFromDataSource source st w
  = (Ok (VaultProvider.setLoading false
           (VaultProvider.setError "Supabase is disabled" st)), w).
Proof. repeat split. Qed.

End with_platform.

Lemma cloud_load_is_all_or_nothing_witness :
  let good := Toy.row_of Toy.gmail (js "user-1") in
  let sealed_row := with_password good
    (@token_of Toy.crypto (js "hunter2") (js "longpass1")
       (next_salt Toy.world) (next_nonce Toy.world)) in
  let damaged := with_password good (js "!!!") in
  @SupabaseDataSource.loadEntries Toy.crypto (Some (Toy.client [sealed_row]))
    (js "longpass1") Toy.world = (Ok [good], Toy.world) /\
  @SupabaseDataSource.loadEntries Toy.crypto (Some (Toy.client [sealed_row; damaged]))
    (js "longpass1") Toy.world = (Throw DECRYPTION_FAILED, Toy.world).
Proof.
  intros good sealed_row damaged. split.
  - apply (proj1 (@cloud_load_is_all_or_nothing Toy.crypto (Toy.client [sealed_row])
                    (js "longpass1") [sealed_row] Toy.world Toy.world eq_refl)).
    constructor; [|constructor]. split; [vm_compute; reflexivity | reflexivity].
  - apply (proj2 (@cloud_load_is_all_or_nothing Toy.crypto
                    (Toy.client [sealed_row; damaged])
                    (js "longpass1") [sealed_row; damaged] Toy.world Toy.world eq_refl)).
    apply Exists_cons_tl, Exists_cons_hd. vm_compute. reflexivity.
Defined.

Lemma cloud_addEntry_encrypts_the_password_only_witness :
  exists created w',
    @SupabaseDataSource.addEntry Toy.crypto (Some (Toy.client [])) (js "user-1")
      (js "longpass1") Toy.gmail Toy.world = (Ok created, w') /\
    password created = js "hunter2".
Proof.
  destruct (@cloud_addEntry_encrypts_the_password_only Toy.crypto (Toy.client [])
              (js "user-1") (js "longpass1") Toy.gmail Toy.world
              ToyFacts.crypto_correct)
    as (token & payload & -> & _ & _ & Hadd & _).
  - split; [reflexivity | vm_compute; discriminate].
  - eexists _, _. split; [exact Hadd | reflexivity].
Defined.


End CloudTheorems.
